(** * Chime TTS: audio helpers and media-player helpers

    A shallow embedding of the parts of
    [custom_components/chime_tts/helpers/helpers.py] and
    [custom_components/chime_tts/helpers/media_player.py] that build the
    transcoder command, run it, combine audio segments, parse segment
    lists, fade volumes and poll media players.

    Conventions of the embedding:
    - Python [str] is [string]; the characters are bytes, so the model is
      exact for ASCII text (paths, ffmpeg tokens, YAML punctuation).
    - a Python [float] is an exact rational [Q] where the code compares
      it, rounds it to a number of digits or divides it by [0.5], none
      of which rounds in binary; comparisons are the boolean ones of
      [QArith]. Where the rounding of float arithmetic decides what the
      code does (the budget of the wait loops, the length of a pydub
      segment, the frames of a silence) the code is given in binary64,
      with the primitive floats.
    - a Python function that can raise returns a [result]; a function that
      touches the file system threads the file system through the monad [M].
    - a local variable that an execution path may leave unassigned is an
      [option]; reading it while unassigned raises [UnboundLocalError]. *)

From Stdlib Require Import ZArith QArith Qround String Ascii List Lia Lqa Bool.
From Stdlib Require Import Floats.
From stdpp Require Import base option list gmap strings.

Close Scope Q_scope.
Open Scope string_scope.

(** ** Python exceptions and results *)

Inductive exn : Type :=
| UnboundLocalError (var : string)
| ValueError
| IndexError
| KeyError (key : string)
| AttributeError
| TypeError
| RuntimeError
| FileNotFoundError (path : string)
| YAMLError
| ZeroDivisionError
| OSError.

Inductive result (A : Type) : Type :=
| Return (a : A)
| Raise (e : exn).
Arguments Return {A} a.
Arguments Raise {A} e.

(** ** Python string methods *)

Module PyStr.

(** [s[n:]] *)
Fixpoint drop (n : nat) (s : string) : string :=
  match n, s with
  | O, _ => s
  | S _, EmptyString => EmptyString
  | S n', String _ s' => drop n' s'
  end.

(** [str.replace(old, new)] for a non-empty [old]: scan left to right, at
    each position where [old] starts emit [new] and skip [old]. [skip]
    counts the characters of a matched [old] still to be passed over. *)
Fixpoint replace_skip (old new : string) (skip : nat) (s : string) : string :=
  match s with
  | EmptyString => EmptyString
  | String c s' =>
      match skip with
      | S k => replace_skip old new k s'
      | O =>
          if String.prefix old s
          then new ++ replace_skip old new (String.length old - 1) s'
          else String c (replace_skip old new 0 s')
      end
  end.

(** [str.replace("", new)] puts [new] before every character and at the end. *)
Fixpoint interleave (new s : string) : string :=
  match s with
  | EmptyString => new
  | String c s' => new ++ String c (interleave new s')
  end.

Definition replace (old new s : string) : string :=
  match old with
  | EmptyString => interleave new s
  | String _ _ => replace_skip old new 0 s
  end.

(** [old in s] *)
Fixpoint contains (old s : string) : bool :=
  String.prefix old s
  || match s with
     | EmptyString => false
     | String _ s' => contains old s'
     end.

(** [str.isspace] on one ASCII character: tab, line feed, vertical tab,
    form feed, carriage return, the four separators 28-31 and space. *)
Definition is_space (c : ascii) : bool :=
  let n := nat_of_ascii c in
  ((9 <=? n)%nat && (n <=? 13)%nat) || ((28 <=? n)%nat && (n <=? 32)%nat).

(** [str.split()] without argument: the maximal runs of non-space
    characters. [cur] is the word being read, if any. *)
Fixpoint split_from (cur : option string) (s : string) : list string :=
  match s with
  | EmptyString => match cur with Some w => [w] | None => [] end
  | String c s' =>
      if is_space c
      then match cur with
           | Some w => w :: split_from None s'
           | None => split_from None s'
           end
      else split_from (Some (default "" cur ++ String c "")) s'
  end.

Definition split (s : string) : list string := split_from None s.

(** [list.index(x)]: position of the first element equal to [x];
    [None] stands for [ValueError]. *)
Fixpoint index (x : string) (l : list string) : option nat :=
  match l with
  | [] => None
  | y :: l' => if String.eqb y x then Some O else S <$> index x l'
  end.

(** [str.lower()] on ASCII. *)
Definition lower_ascii (c : ascii) : ascii :=
  let n := nat_of_ascii c in
  if (65 <=? n)%nat && (n <=? 90)%nat then ascii_of_nat (n + 32) else c.

Fixpoint lower (s : string) : string :=
  match s with
  | EmptyString => EmptyString
  | String c s' => String (lower_ascii c) (lower s')
  end.

End PyStr.

(** ** The monad of effectful helpers

    A computation takes a state, returns or raises, and leaves a state
    behind; what it changed before raising stays changed. *)

Section Monad.
Context {S : Type}.

Definition M (A : Type) : Type := S → result A * S.

Definition ret {A} (a : A) : M A := λ w, (Return a, w).
Definition raise {A} (e : exn) : M A := λ w, (Raise e, w).

Definition bind {A B} (m : M A) (k : A → M B) : M B :=
  λ w, match m w with
       | (Return a, w') => k a w'
       | (Raise e, w') => (Raise e, w')
       end.

(** [try: m  except Exception as e: handler e] *)
Definition try_except {A} (m : M A) (handler : exn → M A) : M A :=
  λ w, match m w with
       | (Return a, w') => (Return a, w')
       | (Raise e, w') => handler e w'
       end.

Definition lift {A} (r : result A) : M A := λ w, (r, w).

Definition get_state : M S := λ w, (Return w, w).
Definition modify (f : S → S) : M unit := λ w, (Return tt, f w).

End Monad.
Arguments M S A : clear implicits.

(** ** The file system

    A finite map from paths to file contents. *)

Section FileSystem.
Context {content : Type}.

(** [os.path.exists] *)
Definition os_path_exists (path : string) : M (gmap string content) bool :=
  λ w, (Return (bool_decide (is_Some (w !! path))), w).

(** [os.remove] *)
Definition os_remove (path : string) : M (gmap string content) unit :=
  λ w, match w !! path with
       | Some _ => (Return tt, delete path w)
       | None => (Raise (FileNotFoundError path), w)
       end.

(** [shutil.move(src, dst)] between two file paths. *)
Definition shutil_move (src dst : string) : M (gmap string content) unit :=
  λ w, match w !! src with
       | Some c => (Return tt, <[dst := c]> (delete src w))
       | None => (Raise (FileNotFoundError src), w)
       end.

End FileSystem.

Declare Scope py_scope.
Delimit Scope py_scope with py.
Notation "x <- m ;; k" := (bind m (λ x, k))
  (at level 100, m at next level, right associativity) : py_scope.
Notation "m ;;; k" := (bind m (λ _, k))
  (at level 100, right associativity) : py_scope.

(** ** Transcoder invoker: [ffmpeg_convert_from_file] *)

(** What [ffmpeg_convert_from_file] returns: [False] or a path. *)
Inductive convert_result : Type :=
| ConvFalse
| ConvPath (path : string).

(** The collaborators that are not part of the two helper files: the
    [FilesystemHelper] methods used by the invoker and the [ffmpeg]
    process. Saving returns the path of the stored file or [None];
    [ffmpeg cmd] may raise (the binary is missing), otherwise it exits
    with a return code; it may write files either way. The error output
    of the process only feeds the log and is left out. *)
Record collaborators (frame content : Type) : Type := {
  async_save_audio_to_folder :
    list frame → string → string → M (gmap string content) (option string);
  async_load_audio : string → M (gmap string content) (list frame);
  ffmpeg : list string → M (gmap string content) Z
}.
Arguments async_save_audio_to_folder {frame content} _ _ _ _ _.
Arguments async_load_audio {frame content} _ _ _.
Arguments ffmpeg {frame content} _ _ _.

(** The body of the inner [try] (lines 595-600): the binding it leaves in
    [converted_file_path], [None] when no assignment ran; it raises
    [ValueError] when [-f] is absent and [IndexError] when [-f] is the
    last token. *)
Definition format_swap (file_path ffmpeg_args : string) (ffmpeg_cmd : list string)
  : result (option string) :=
  match PyStr.index "-f" ffmpeg_cmd with
  | None => Raise ValueError
  | Some index =>
      if (0 <=? index)%nat && (index <=? String.length ffmpeg_args)%nat
      then match ffmpeg_cmd !! (index + 1)%nat with
           | None => Raise IndexError
           | Some file_extension =>
               if negb (String.eqb file_extension "mp3")
               then Return (Some (PyStr.replace ".mp3" ("." ++ file_extension) file_path))
               else Return None
           end
      else Return None
  end.

(** The inner [try] with its [except Exception]: mp3 as default. *)
Definition converted_path_binding (file_path ffmpeg_args : string)
    (ffmpeg_cmd : list string) : option string :=
  match format_swap file_path ffmpeg_args ffmpeg_cmd with
  | Return binding => binding
  | Raise _ => Some (PyStr.replace ".mp3" "_converted.mp3" file_path)
  end.

Definition ffmpeg_command (file_path ffmpeg_args : string) : list string :=
  ["ffmpeg"; "-i"; file_path] ++ PyStr.split ffmpeg_args.

(** Lines 594-606: the output path, after the collision test
    [if converted_file_path == file_path]. Reading the variable while it
    is unassigned raises. *)
Definition computed_output_path (file_path ffmpeg_args : string) : result string :=
  match converted_path_binding file_path ffmpeg_args
          (ffmpeg_command file_path ffmpeg_args) with
  | None => Raise (UnboundLocalError "converted_file_path")
  | Some converted_file_path =>
      if String.eqb converted_file_path file_path
      then Return (PyStr.replace ".mp3" "_converted.mp3" file_path)
      else Return converted_file_path
  end.

Section Transcoder.
Context {frame content : Type}.
Variable env : collaborators frame content.

Local Open Scope py_scope.

(** The statements of the outer [try] up to the assignment of
    [ffmpeg_cmd_string] (lines 586-612). *)
Definition prepare_output (file_path ffmpeg_args : string) : M (gmap string content) string :=
  converted_file_path <- lift (computed_output_path file_path ffmpeg_args);;
  present <- os_path_exists converted_file_path;;
  (if present then os_remove converted_file_path else ret tt);;;
  ret converted_file_path.

(** The statements of the outer [try] from the assignment of
    [ffmpeg_cmd_string] on (lines 615-642). *)
Definition run_ffmpeg (file_path ffmpeg_args converted_file_path : string)
  : M (gmap string content) convert_result :=
  let ffmpeg_cmd := (ffmpeg_command file_path ffmpeg_args ++ [converted_file_path])%list in
  returncode <- ffmpeg env ffmpeg_cmd;;
  if negb (returncode =? 0)%Z then ret ConvFalse
  else if String.eqb converted_file_path
            (PyStr.replace ".mp3" "_converted.mp3" file_path)
  then try_except
         (shutil_move converted_file_path file_path;;; ret (ConvPath file_path))
         (λ _, ret ConvFalse)
  else ret (ConvPath converted_file_path).

(** [ffmpeg_convert_from_file]. Both handlers of the outer [try] format
    their log line with [ffmpeg_cmd_string]: an exception raised before
    that variable is assigned makes the handler itself raise
    [UnboundLocalError]; one raised after it is logged and the function
    falls through to [return file_path]. *)
Definition ffmpeg_convert_from_file (file_path ffmpeg_args : string)
  : M (gmap string content) convert_result :=
  present <- os_path_exists file_path;;
  if negb present then ret ConvFalse
  else
    converted_file_path <-
      try_except (prepare_output file_path ffmpeg_args)
                 (λ _, raise (UnboundLocalError "ffmpeg_cmd_string"));;
    try_except (run_ffmpeg file_path ffmpeg_args converted_file_path)
               (λ _, ret (ConvPath file_path)).

(** The final loop of [async_ffmpeg_convert_from_audio_segment]
    (lines 566-574) for one path. *)
Definition remove_if_exists (file_path : string) : M (gmap string content) unit :=
  if negb (String.eqb file_path "")
  then present <- os_path_exists file_path;;
       if present then try_except (os_remove file_path) (λ _, ret tt) else ret tt
  else ret tt.

(** [async_ffmpeg_convert_from_audio_segment]. An absent buffer is
    [None]; an absent or empty argument string or folder is [""]. *)
Definition async_ffmpeg_convert_from_audio_segment
    (audio_segment : option (list frame)) (ffmpeg_args folder : string)
  : M (gmap string content) (option (list frame)) :=
  let ret_val := audio_segment in
  match audio_segment with
  | None | Some [] => ret ret_val
  | Some audio =>
      if String.eqb ffmpeg_args "" || String.eqb folder "" then ret ret_val
      else
        let temp_filename := "temp_segment.mp3" in
        saved <- async_save_audio_to_folder env audio folder temp_filename;;
        match saved with
        | None | Some "" => ret ret_val
        | Some temp_audio_file =>
            converted_audio_file <- ffmpeg_convert_from_file temp_audio_file ffmpeg_args;;
            ret_val <-
              match converted_audio_file with
              | ConvFalse => ret ret_val
              | ConvPath path =>
                  if (String.length path <? 5)%nat then ret ret_val
                  else try_except
                         (loaded <- async_load_audio env path;; ret (Some loaded))
                         (λ _, ret ret_val)
              end;;
            remove_if_exists temp_audio_file;;;
            match converted_audio_file with
            | ConvFalse => ret tt
            | ConvPath path => remove_if_exists path
            end;;;
            ret ret_val
        end
  end.

End Transcoder.

(** ** Rational helpers standing for Python float operations *)

Definition Qltb (x y : Q) : bool := negb (Qle_bool y x).

Definition half : Q := 1 # 2.

Fixpoint Qproduct (l : list Q) : Q :=
  match l with
  | [] => 1%Q
  | x :: l' => (x * Qproduct l')%Q
  end.

(** A natural number and a power of two as rationals. *)
Definition Qnat (n : nat) : Q := inject_Z (Z.of_nat n).
Definition pow2 (n : nat) : Q := inject_Z (2 ^ Z.of_nat n).

(** [round(x)] to the nearest integer, ties to even. *)
Definition round_half_even (x : Q) : Z :=
  let f := Qfloor x in
  let r := (x - inject_Z f)%Q in
  if Qltb r half then f
  else if Qltb half r then (f + 1)%Z
  else if Z.even f then f else (f + 1)%Z.

(** [round(x, ndigits)] *)
Definition py_round (x : Q) (ndigits : nat) : Q :=
  let scale := inject_Z (10 ^ Z.of_nat ndigits) in
  (inject_Z (round_half_even (x * scale)) / scale)%Q.

(** ** Tempo decomposition: [add_atempo_values_to_ffmpeg_args_string] *)

(** The [while remaining < 0.5] loop (lines 660-665). [fuel] bounds the
    number of iterations; [None] means the bound was reached. *)
Fixpoint atempo_loop (fuel : nat) (remaining : Q) (tempos : list Q)
  : option (list Q) :=
  if Qltb remaining half then
    match fuel with
    | O => None
    | S fuel' =>
        let remaining := (remaining / half)%Q in
        if Qle_bool half remaining
        then Some (tempos ++ [remaining])%list
        else atempo_loop fuel' remaining (tempos ++ [half])%list
    end
  else Some tempos.

(** Doubling a positive [n # d] reaches [1/2] within the bit length of [d]. *)
Definition atempo_fuel (tempo : Q) : nat := Pos.size_nat (Qden tempo).

(** The list [tempos] (lines 656-667), [None] when the loop does not end
    (a tempo that is zero or negative). *)
Definition atempo_values (tempo : Q) : option (list Q) :=
  if Qltb tempo half
  then atempo_loop (atempo_fuel tempo) tempo [half]
  else Some [tempo].

(** Lines 669-675: one [atempo=] stage per tempo. [float_str] is the text
    Python prints for a float in an f-string. *)
Definition append_atempo_stages (float_str : Q → string) (tempos : list Q)
    (ffmpeg_args_string : option string) : option string :=
  fold_left
    (λ acc tempo_n,
       match acc with
       | None => Some ("-af atempo=" ++ float_str tempo_n)
       | Some args => Some (args ++ ",atempo=" ++ float_str tempo_n)
       end)
    tempos ffmpeg_args_string.

Definition add_atempo_values_to_ffmpeg_args_string (float_str : Q → string)
    (tempo : Q) (ffmpeg_args_string : option string) : option (option string) :=
  tempos ← atempo_values tempo;
  Some (append_atempo_stages float_str tempos ffmpeg_args_string).

(** ** Audio segments: [combine_audio] and [overlay]

    For the overlay, where pydub cuts and pads to whole milliseconds, a
    pydub [AudioSegment] is the list of its frames, one frame for each
    millisecond, so that [len] is [length], [+] is [++] and [seg[n:]] is
    [drop n]. [mix] adds two frames sample by sample ([audioop.add]) and
    [silence] is a frame of [AudioSegment.silent]. What depends on the
    rounding of [len] and on the formats that [+] brings together is
    settled on the segments of the next section. *)

Section Audio.
Context {frame : Type}.
Variable mix : frame → frame → frame.
Variable silence : frame.

(** [AudioSegment.silent(duration=d)] *)
Definition silent (duration : Z) : list frame :=
  replicate (Z.to_nat duration) silence.

(** pydub's [seg1.overlay(seg2, position=p)]: the frames of [seg1]
    before [p], then the rest of [seg1] with [seg2] added on top, [seg2]
    being cut to what is left of [seg1], then what remains of [seg1]. *)
Definition pydub_overlay (seg1 seg2 : list frame) (position : Z) : list frame :=
  let head := take (Z.to_nat position) seg1 in
  let rest := drop (Z.to_nat position) seg1 in
  let remaining := length rest in
  let seg2 := if (remaining <=? length seg2)%nat then take remaining seg2 else seg2 in
  (head ++ zip_with mix (take (length seg2) rest) seg2
        ++ drop (length seg2) rest)%list.

(** [overlay] (lines 744-753) *)
Definition overlay (audio_1 audio_2 : list frame) (overlay : Z) : list frame :=
  let overlay := Z.abs overlay in
  let overlap_point := (Z.of_nat (length audio_1) - overlay)%Z in
  let overlap_point := Z.max 0 overlap_point in
  let crossover_audio := pydub_overlay audio_1 audio_2 overlap_point in
  if (overlay <? Z.of_nat (length audio_2))%Z
  then (crossover_audio ++ drop (Z.to_nat overlay) audio_2)%list
  else crossover_audio.

(** [combine_audio] (lines 722-742); [None] is an absent segment. *)
Definition combine_audio (audio_1 audio_2 : option (list frame)) (offset : Z)
  : option (list frame) :=
  match audio_1, audio_2 with
  | None, _ => audio_2
  | Some _, None => audio_1
  | Some a1, Some a2 =>
      let ret_val := (a1 ++ a2)%list in
      if (offset <? 0)%Z then Some (overlay a1 a2 offset)
      else if (0 <? offset)%Z then Some (a1 ++ (silent offset ++ a2))%list
      else Some ret_val
  end.

End Audio.

(** ** Segments as pydub holds them

    The length of a pydub segment is not a datum: [len] rounds the
    number of sample frames, [1000 * frame_count / frame_rate], to whole
    milliseconds, in binary64. For what depends on that rounding a
    segment is given here with its format and its sample frames, [+] is
    pydub's [append] without crossfade, and [combine_audio] and
    [overlay] are given once more over these segments. The conversions
    of [audioop] and pydub's own [overlay] and slicing are left open. *)

(** [float(n)] for an [int]; exact below [2^53], and for the counts and
    durations below [2^63] that a segment in memory can have. *)
Definition float_of_Z (z : Z) : float := PrimFloat.of_uint63 (Uint63.of_Z z).

(** The whole part and the rest of the absolute value of a float, as a
    quotient and a remainder by [divisor]; [divisor] is [1] for a float
    without a fractional part. *)
Definition float_parts (x : float) : option (bool * Z * Z * Z) :=
  match Prim2SF x with
  | S754_zero negative => Some (negative, 0, 0, 1)%Z
  | S754_finite negative m e =>
      if (0 <=? e)%Z then Some (negative, Z.pos m * 2 ^ e, 0, 1)%Z
      else let divisor := (2 ^ (- e))%Z in
           Some (negative, Z.pos m / divisor, Z.pos m mod divisor, divisor)%Z
  | _ => None
  end.

(** [int(x)]: towards zero. *)
Definition py_int (x : float) : result Z :=
  match float_parts x with
  | Some (negative, whole, _, _) => Return (if negative then - whole else whole)%Z
  | None => Raise ValueError
  end.

(** [round(x)]: to the nearest integer, a tie to the even one. *)
Definition py_round_int (x : float) : result Z :=
  match float_parts x with
  | Some (negative, whole, rest, divisor) =>
      let up := if (2 * rest <? divisor)%Z then false
                else if (divisor <? 2 * rest)%Z then true
                else Z.odd whole in
      let magnitude := if up then (whole + 1)%Z else whole in
      Return (if negative then - magnitude else magnitude)%Z
  | None => Raise ValueError
  end.

Definition and_then {A B : Type} (r : result A) (k : A → result B) : result B :=
  match r with
  | Return a => k a
  | Raise e => Raise e
  end.

Module Pydub.

Record AudioSegment (frame : Type) : Type := {
  channels : positive;
  sample_width : positive;
  frame_rate : positive;
  frames : list frame
}.
Arguments channels {frame} _.
Arguments sample_width {frame} _.
Arguments frame_rate {frame} _.
Arguments frames {frame} _.

Section Segments.
Context {frame : Type}.

(** The data that [audioop] makes of a segment for another number of
    channels, another frame rate and another sample width; it raises
    for a conversion that it does not support. *)
Variable to_channels : positive → AudioSegment frame → result (list frame).
Variable to_frame_rate : positive → AudioSegment frame → result (list frame).
Variable to_sample_width : positive → AudioSegment frame → result (list frame).

(** pydub's [seg1.overlay(seg2, position=p)] and [seg[n:]]. *)
Variable pydub_overlay : AudioSegment frame → AudioSegment frame → Z
                         → result (AudioSegment frame).
Variable slice_from : AudioSegment frame → Z → result (AudioSegment frame).

(** A frame of [AudioSegment.silent]. *)
Variable silence : frame.

(** [len(seg)]: [round(1000 * (frame_count / frame_rate))]. *)
Definition milliseconds (rate : positive) (frame_count : nat) : result Z :=
  py_round_int
    (PrimFloat.mul (float_of_Z 1000)
       (PrimFloat.div (float_of_Z (Z.of_nat frame_count)) (float_of_Z (Z.pos rate)))).

Definition len (seg : AudioSegment frame) : result Z :=
  milliseconds (frame_rate seg) (length (frames seg)).

(** [set_channels], [set_frame_rate] and [set_sample_width]: each
    returns the segment itself when there is nothing to convert. *)
Definition set_channels (c : positive) (seg : AudioSegment frame)
  : result (AudioSegment frame) :=
  if Pos.eqb c (channels seg) then Return seg
  else and_then (to_channels c seg)
         (λ data, Return {| channels := c; sample_width := sample_width seg;
                            frame_rate := frame_rate seg; frames := data |}).

Definition set_frame_rate (r : positive) (seg : AudioSegment frame)
  : result (AudioSegment frame) :=
  if Pos.eqb r (frame_rate seg) then Return seg
  else and_then (to_frame_rate r seg)
         (λ data, Return {| channels := channels seg;
                            sample_width := sample_width seg;
                            frame_rate := r; frames := data |}).

Definition set_sample_width (w : positive) (seg : AudioSegment frame)
  : result (AudioSegment frame) :=
  if Pos.eqb w (sample_width seg) then Return seg
  else and_then (to_sample_width w seg)
         (λ data, Return {| channels := channels seg; sample_width := w;
                            frame_rate := frame_rate seg; frames := data |}).

(** One segment of [_sync]: to the channels, the frame rate and the
    sample width given, in that order. *)
Definition to_format (c r w : positive) (seg : AudioSegment frame)
  : result (AudioSegment frame) :=
  and_then (set_channels c seg)
    (λ seg, and_then (set_frame_rate r seg) (set_sample_width w)).

(** [seg1 + seg2]: [append] with [crossfade=0]. Both segments are
    brought to the larger number of channels, frame rate and sample
    width, and the data are put one after the other. *)
Definition add (seg1 seg2 : AudioSegment frame) : result (AudioSegment frame) :=
  let c := Pos.max (channels seg1) (channels seg2) in
  let r := Pos.max (frame_rate seg1) (frame_rate seg2) in
  let w := Pos.max (sample_width seg1) (sample_width seg2) in
  and_then (to_format c r w seg1)
    (λ seg1, and_then (to_format c r w seg2)
       (λ seg2, Return {| channels := channels seg1;
                          sample_width := sample_width seg1;
                          frame_rate := frame_rate seg1;
                          frames := (frames seg1 ++ frames seg2)%list |})).

(** The frames of [AudioSegment.silent(duration)]:
    [int(frame_rate * (duration / 1000.0))] with the frame rate 11025. *)
Definition silent_frame_count (duration : Z) : result Z :=
  py_int (PrimFloat.mul (float_of_Z 11025)
            (PrimFloat.div (float_of_Z duration) (float_of_Z 1000))).

(** [AudioSegment.silent(duration=d)]: mono, two bytes a sample. *)
Definition silent (duration : Z) : result (AudioSegment frame) :=
  and_then (silent_frame_count duration)
    (λ count, Return {| channels := 1; sample_width := 2; frame_rate := 11025;
                        frames := replicate (Z.to_nat count) silence |}).

(** [overlay] (lines 744-753) *)
Definition overlay (audio_1 audio_2 : AudioSegment frame) (overlay : Z)
  : result (AudioSegment frame) :=
  let overlay := Z.abs overlay in
  and_then (len audio_1)
    (λ len_1,
       let overlap_point := Z.max 0 (len_1 - overlay) in
       and_then (pydub_overlay audio_1 audio_2 overlap_point)
         (λ crossover_audio,
            and_then (len audio_2)
              (λ len_2,
                 if (overlay <? len_2)%Z
                 then and_then (slice_from audio_2 overlay) (add crossover_audio)
                 else Return crossover_audio))).

(** [combine_audio] (lines 722-742); [None] is an absent segment. *)
Definition combine_audio (audio_1 audio_2 : option (AudioSegment frame)) (offset : Z)
  : result (option (AudioSegment frame)) :=
  match audio_1, audio_2 with
  | None, _ => Return audio_2
  | Some _, None => Return audio_1
  | Some a1, Some a2 =>
      and_then (add a1 a2)
        (λ ret_val,
           if (offset <? 0)%Z
           then and_then (overlay a1 a2 offset) (λ seg, Return (Some seg))
           else if (0 <? offset)%Z
           then and_then (silent offset)
                  (λ gap, and_then (add gap a2)
                            (λ rest, and_then (add a1 rest)
                                       (λ seg, Return (Some seg))))
           else Return (Some ret_val))
  end.

(** The frames that a delay of [offset] milliseconds puts between two
    segments with [c] channels, the frame rate [r] and the sample width
    [w]: none for no delay, else those of [AudioSegment.silent(offset)]
    brought to that format. *)
Definition delay_frames (c r w : positive) (offset : Z) (gap_frames : list frame)
  : Prop :=
  (offset = 0%Z ∧ gap_frames = [])
  ∨ ((0 < offset)%Z
     ∧ ∃ gap gap', silent offset = Return gap
                   ∧ to_format c r w gap = Return gap'
                   ∧ frames gap' = gap_frames).

End Segments.
End Pydub.


Definition no_conversion (target : positive) (seg : Pydub.AudioSegment Z)
  : result (list Z) := Raise RuntimeError.

Definition no_overlay (seg1 seg2 : Pydub.AudioSegment Z) (position : Z)
  : result (Pydub.AudioSegment Z) := Raise RuntimeError.

Definition no_slice (seg : Pydub.AudioSegment Z) (start : Z)
  : result (Pydub.AudioSegment Z) := Raise RuntimeError.

(** Half a second in the format of [AudioSegment.silent], and the
    silence of [500] milliseconds with the frame [0]. *)
Definition half_second : Pydub.AudioSegment Z :=
  {| Pydub.channels := 1; Pydub.sample_width := 2; Pydub.frame_rate := 11025;
     Pydub.frames := replicate (Z.to_nat 5512) 1%Z |}.

Definition half_second_of_silence : Pydub.AudioSegment Z :=
  {| Pydub.channels := 1; Pydub.sample_width := 2; Pydub.frame_rate := 11025;
     Pydub.frames := replicate (Z.to_nat 5512) 0%Z |}.

(** ** Playback sync waiters (media_player.py, lines 239-301)

    The budget of the loops is an exact rational here, which is right
    for all that does not depend on how [timeout - delay] rounds: what a
    round does to the list, what a result means, the first round. The
    number of rounds that a time-out pays for is settled on the loops of
    the next section. *)

(** The poll interval, [delay = 0.2]. *)
Definition poll_delay : Q := 2 # 10.

(** Rounds that a budget of [timeout] can pay for:
    [ceil(timeout / delay)]. *)
Definition max_rounds (timeout : Q) : nat :=
  Z.to_nat (Qceiling (timeout / poll_delay)).

(** What a waiter leaves behind: the rounds it ran, what is left of its
    local [timeout], the devices still waited for, the sleeps it took. *)
Record wait_state (device : Type) : Type := {
  rounds : nat;
  budget : Q;
  still_waiting : list device;
  sleeps : nat
}.
Arguments rounds {device} _.
Arguments budget {device} _.
Arguments still_waiting {device} _.
Arguments sleeps {device} _.

Section SharedWaiter.
Context {device : Type} `{EqDecision device}.

(** [index = l.index(x); del l[index]] *)
Fixpoint remove_first (x : device) (l : list device) : list device :=
  match l with
  | [] => []
  | y :: l' => if decide (y = x) then l' else y :: remove_first x l'
  end.

(** The [for media_player_dict in still_waiting] loop (lines 253-257).
    Python's list iterator reads position [i] of the list as it is at
    that moment, so a deletion shifts the unread elements. [steps]
    bounds the number of reads. *)
Fixpoint poll_from (steps : nat) (condition : device → bool) (i : nat)
    (waiting : list device) : list device :=
  match steps with
  | O => waiting
  | S steps' =>
      match waiting !! i with
      | None => waiting
      | Some d =>
          poll_from steps' condition (S i)
            (if condition d then remove_first d waiting else waiting)
      end
  end.

Definition poll (condition : device → bool) (waiting : list device) : list device :=
  poll_from (length waiting) condition 0 waiting.

(** The [while len(still_waiting) > 0 and timeout > 0] loop (lines
    252-261). [condition n] is the predicate as the devices answer it
    in round [n]. [None] means [fuel] rounds were not enough. *)
Fixpoint wait_loop (fuel : nat) (condition : nat → device → bool)
    (st : wait_state device) : option (wait_state device) :=
  if (0 <? length (still_waiting st))%nat && Qltb 0 (budget st) then
    match fuel with
    | O => None
    | S fuel' =>
        let waiting := poll (condition (rounds st)) (still_waiting st) in
        wait_loop fuel' condition
          {| rounds := S (rounds st);
             budget := (budget st - poll_delay)%Q;
             still_waiting := waiting;
             sleeps := if (0 <? length waiting)%nat then S (sleeps st) else sleeps st |}
    end
  else Some st.

(** [_async_wait_until_media_players]: the returned boolean and the
    final state of the loop. [resolves d] says that the entity id of [d]
    is known to [hass] when the wait starts. *)
Definition _async_wait_until_media_players (resolves : device → bool)
    (media_player_dicts : list device) (condition : nat → device → bool)
    (timeout : Q) : option (bool * wait_state device) :=
  let start := {| rounds := 0; budget := timeout;
                  still_waiting := media_player_dicts; sleeps := 0 |} in
  if (length media_player_dicts =? 0)%nat then Some (false, start)
  else if negb (forallb resolves media_player_dicts) then Some (false, start)
  else
    st ← wait_loop (max_rounds timeout) condition start;
    Some ((length (still_waiting st) =? 0)%nat, st).

End SharedWaiter.

Section VolumeWaiter.
Context {device : Type}.

(** [volume n d] is the [volume_level] that [hass] reports for the
    entity of [d] in round [n]: [None] when the entity is unknown,
    [-1] when it has no such attribute. *)
Variable volume : nat → device → option Q.

(** Lines 274-283: the flag [volume_reached] after one pass over the devices. *)
Definition all_at_target (n : nat) (media_player_dicts : list device)
    (target_volume : Q) : bool :=
  forallb
    (λ d, match volume n d with
          | None => true
          | Some v => Qeq_bool (py_round v 3) (py_round target_volume 3)
          end)
    media_player_dicts.

(** The loop of [async_wait_until_media_player_volume_level]; the
    result is what the function returns. The state keeps the devices
    unchanged and counts rounds and sleeps. *)
Fixpoint volume_wait_loop (fuel : nat) (target_volume : Q)
    (st : wait_state device) : option (bool * wait_state device) :=
  if Qltb 0 (budget st) then
    match fuel with
    | O => None
    | S fuel' =>
        if all_at_target (rounds st) (still_waiting st) target_volume
        then Some (true, {| rounds := S (rounds st); budget := budget st;
                            still_waiting := still_waiting st;
                            sleeps := sleeps st |})
        else volume_wait_loop fuel' target_volume
               {| rounds := S (rounds st);
                  budget := (budget st - poll_delay)%Q;
                  still_waiting := still_waiting st;
                  sleeps := S (sleeps st) |}
    end
  else Some (false, st).

Definition async_wait_until_media_player_volume_level
    (media_player_dicts : list device) (target_volume timeout : Q)
  : option (bool * wait_state device) :=
  volume_wait_loop (max_rounds timeout) target_volume
    {| rounds := 0; budget := timeout;
       still_waiting := media_player_dicts; sleeps := 0 |}.

End VolumeWaiter.

(** ** The wait loops over the arithmetic of their budget

    The local [timeout] of a wait loop is a Python [float], and
    [timeout - delay] rounds its result. The two loops are given here
    once more with the arithmetic of the budget left open: [subtract] is
    [-], [positive t] is [t > 0] and [delay] is [0.2]. With the
    rationals these are the loops above; with [binary64] they are the
    loops that the interpreter runs. Python gives no bound on the number
    of rounds, so [fuel] is an argument, and [None] means that [fuel]
    rounds were not enough. *)

Record loop_state (num device : Type) : Type := {
  loop_rounds : nat;
  loop_budget : num;
  loop_waiting : list device;
  loop_sleeps : nat
}.
Arguments loop_rounds {num device} _.
Arguments loop_budget {num device} _.
Arguments loop_waiting {num device} _.
Arguments loop_sleeps {num device} _.

Module Budgeted.
Section Arithmetic.
Context {num device : Type} `{EqDecision device}.
Variable subtract : num → num → num.
Variable positive : num → bool.
Variable delay : num.

(** The budget after [n] rounds that went on: [timeout] with [delay]
    subtracted [n] times, one subtraction after the other. *)
Fixpoint budget_after (n : nat) (timeout : num) : num :=
  match n with
  | O => timeout
  | S n' => budget_after n' (subtract timeout delay)
  end.

(** The [while len(still_waiting) > 0 and timeout > 0] loop (lines
    252-261). *)
Fixpoint wait_loop (fuel : nat) (condition : nat → device → bool)
    (st : loop_state num device) : option (loop_state num device) :=
  if (0 <? length (loop_waiting st))%nat && positive (loop_budget st) then
    match fuel with
    | O => None
    | S fuel' =>
        let waiting := poll (condition (loop_rounds st)) (loop_waiting st) in
        wait_loop fuel' condition
          {| loop_rounds := S (loop_rounds st);
             loop_budget := subtract (loop_budget st) delay;
             loop_waiting := waiting;
             loop_sleeps := if (0 <? length waiting)%nat
                            then S (loop_sleeps st) else loop_sleeps st |}
    end
  else Some st.

(** [_async_wait_until_media_players] *)
Definition _async_wait_until_media_players (fuel : nat) (resolves : device → bool)
    (media_player_dicts : list device) (condition : nat → device → bool)
    (timeout : num) : option (bool * loop_state num device) :=
  let start := {| loop_rounds := 0; loop_budget := timeout;
                  loop_waiting := media_player_dicts; loop_sleeps := 0 |} in
  if (length media_player_dicts =? 0)%nat then Some (false, start)
  else if negb (forallb resolves media_player_dicts) then Some (false, start)
  else
    st ← wait_loop fuel condition start;
    Some ((length (loop_waiting st) =? 0)%nat, st).

(** The loop of [async_wait_until_media_player_volume_level] (lines
    272-288). [at_target n] is the flag [volume_reached] after the pass
    of round [n] over the devices. *)
Fixpoint volume_wait_loop (fuel : nat) (at_target : nat → bool)
    (st : loop_state num device) : option (bool * loop_state num device) :=
  if positive (loop_budget st) then
    match fuel with
    | O => None
    | S fuel' =>
        if at_target (loop_rounds st)
        then Some (true, {| loop_rounds := S (loop_rounds st);
                            loop_budget := loop_budget st;
                            loop_waiting := loop_waiting st;
                            loop_sleeps := loop_sleeps st |})
        else volume_wait_loop fuel' at_target
               {| loop_rounds := S (loop_rounds st);
                  loop_budget := subtract (loop_budget st) delay;
                  loop_waiting := loop_waiting st;
                  loop_sleeps := S (loop_sleeps st) |}
    end
  else Some (false, st).

(** [async_wait_until_media_player_volume_level]; [volume] is as above. *)
Definition async_wait_until_media_player_volume_level (fuel : nat)
    (volume : nat → device → option Q) (media_player_dicts : list device)
    (target_volume : Q) (timeout : num) : option (bool * loop_state num device) :=
  volume_wait_loop fuel
    (λ n, all_at_target volume n media_player_dicts target_volume)
    {| loop_rounds := 0; loop_budget := timeout;
       loop_waiting := media_player_dicts; loop_sleeps := 0 |}.

End Arithmetic.
End Budgeted.

(** Binary64, the arithmetic of a Python [float]: [t > 0], and the
    number that Python reads [0.2] as, the float nearest to one fifth. *)
Definition float_positive (t : float) : bool := PrimFloat.ltb 0%float t.
Definition float_delay : float := 0x1.999999999999ap-3%float.

(** A state of the loops above, read as a state of the loops over the
    rationals. *)
Definition exact_state {device : Type} (st : wait_state device) : loop_state Q device :=
  {| loop_rounds := rounds st; loop_budget := budget st;
     loop_waiting := still_waiting st; loop_sleeps := sleeps st |}.

(** ** Volume fade controller: [async_set_volume_for_media_players]

    The levels and the number of steps are computed in exact rationals:
    right for which calls are made, in which order, and for what is
    stored and skipped; a level that the fade computes can differ in its
    last digit from the one that binary64 gives. *)

(** What the fader asks of [hass]: a [volume_set] service call or a sleep. *)
Inductive hass_event : Type :=
| VolumeSet (entity : string) (volume_level : Q)
| Sleep (seconds : Q).

(** A [hass] state object, as far as the fader reads it. *)
Record State : Type := {
  state : string;
  volume_level : option Q
}.

(** A media player dictionary: its [entity_id], its numeric entries (such
    as [initial_volume_level] and [playback_volume_level]) and the entry
    [volume_steps], absent until a fade stores it. *)
Record media_player_dict : Type := {
  entity_id : string;
  levels : gmap string Q;
  volume_steps : option (list Q)
}.

(** [volume_key] is the name of a dictionary entry or a volume level. *)
Inductive volume_key : Type :=
| KeyName (key : string)
| Level (level : Q).

(** The dictionaries, which the fader updates in place, and the events
    issued so far. *)
Record fade_state : Type := {
  dicts : list media_player_dict;
  events : list hass_event
}.

(** [for x in l: body x] *)
Fixpoint for_each {S A : Type} (l : list A) (body : A → M S unit) : M S unit :=
  match l with
  | [] => ret tt
  | x :: l' => bind (body x) (λ _, for_each l' body)
  end.

Section Fade.
(** [TRANSITION_STEP_MS] of [const.py]. *)
Variable TRANSITION_STEP_MS : Q.

(** [hass events entity] is [hass.states.get(entity)] once [events]
    have been issued. *)
Variable hass : list hass_event → string → option State.

Local Open Scope py_scope.

(** [media_player_dict.get(str(volume_key), volume_key)]; [None] is a
    value that is not a number (the key itself when no entry has that
    name). *)
Definition target_of (d : media_player_dict) (key : volume_key) : option Q :=
  match key with
  | KeyName k => levels d !! k
  | Level v => Some v
  end.

(** [float(hass.states.get(entity_id).attributes.get("volume_level", 0))] *)
Definition current_volume_of (entity : string) : M fade_state Q :=
  λ st, match hass (events st) entity with
        | None => (Raise AttributeError, st)
        | Some s => (Return (default 0%Q (volume_level s)), st)
        end.

Definition emit (e : hass_event) : M fade_state unit :=
  modify (λ st, {| dicts := dicts st; events := (events st ++ [e])%list |}).

Definition store_volume_steps (j : nat) (steps : list Q) : M fade_state unit :=
  modify (λ st,
    {| dicts := alter (λ d, {| entity_id := entity_id d; levels := levels d;
                               volume_steps := Some steps |}) j (dicts st);
       events := events st |}).

Definition same_number (target : option Q) (x : Q) : bool :=
  match target with
  | Some t => Qeq_bool t x
  | None => false
  end.

(** The body of the inner loop of the stepped fade (lines 315-354) for
    the dictionary at position [j]. *)
Definition fade_device_step (key : volume_key) (fade_steps step j : nat)
  : M fade_state unit :=
  st <- get_state;;
  match dicts st !! j with
  | None => ret tt
  | Some d =>
      let target_volume := target_of d key in
      current_volume <- current_volume_of (entity_id d);;
      if same_number target_volume current_volume && (step =? 0)%nat then ret tt
      else if same_number target_volume (-1)%Q then ret tt
      else
        (if (step =? 0)%nat
         then match target_volume with
              | None => raise TypeError
              | Some target =>
                  let volume_step :=
                    ((target - current_volume) / inject_Z (Z.of_nat fade_steps))%Q in
                  store_volume_steps j
                    (map (λ i, (current_volume + volume_step * inject_Z (Z.of_nat i))%Q)
                         (seq 1 (fade_steps - 1)))
              end
         else ret tt);;;
        st <- get_state;;
        match dicts st !! j with
        | None => ret tt
        | Some d =>
            match volume_steps d with
            | None => raise (KeyError "volume_steps")
            | Some steps =>
                value <- (if (step <? length steps)%nat
                          then match steps !! step with
                               | Some v => ret v
                               | None => raise IndexError
                               end
                          else match target_volume with
                               | Some target => ret target
                               | None => raise TypeError
                               end);;
                let new_volume :=
                  py_round (if Qltb value 0 then 0%Q else value) 4 in
                emit (VolumeSet (entity_id d) new_volume)
            end
        end
  end.

(** The loop of the direct set (lines 358-378) for one dictionary. *)
Definition set_device_directly (key : volume_key) (j : nat) : M fade_state unit :=
  st <- get_state;;
  match dicts st !! j with
  | None => ret tt
  | Some d =>
      current_volume <- current_volume_of (entity_id d);;
      match target_of d key with
      | None => raise TypeError
      | Some target_volume =>
          if Qle_bool 0 target_volume && negb (Qeq_bool target_volume current_volume)
          then emit (VolumeSet (entity_id d) target_volume)
          else ret tt
      end
  end.

(** [async_set_volume_for_media_players]; [fade_duration] is in
    milliseconds. *)
Definition async_set_volume_for_media_players (key : volume_key)
    (fade_duration : Q) : M fade_state unit :=
  st <- get_state;;
  let players := seq 0 (length (dicts st)) in
  if (length (dicts st) =? 0)%nat then ret tt
  else
    let fade_duration := (fade_duration / 1000)%Q in
    fade_steps <-
      (if Qltb 0 fade_duration
       then if Qeq_bool TRANSITION_STEP_MS 0 then raise ZeroDivisionError
            else ret (Qceiling (fade_duration * 1000 / TRANSITION_STEP_MS))
       else ret 1%Z);;
    if (fade_steps =? 0)%Z then raise ZeroDivisionError
    else
      let delay_s := (fade_duration / inject_Z fade_steps)%Q in
      if (1 <? fade_steps)%Z then
        let fade_steps := Z.to_nat fade_steps in
        for_each (seq 0 fade_steps)
          (λ step,
             for_each players (fade_device_step key fade_steps step);;;
             if negb (step =? fade_steps - 1)%nat then emit (Sleep delay_s)
             else ret tt)
      else for_each players (set_device_directly key).

End Fade.

(** ** Segment parser: [convert_yaml_str] and [parse_message] *)

(** A decoded YAML value. A mapping keeps its entries in insertion order,
    as a Python [dict] does. *)
#[local] Set Warnings "-register-all".
Inductive yaml : Type :=
| YNull
| YBool (b : bool)
| YInt (n : Z)
| YFloat (q : Q)
| YStr (s : string)
| YList (items : list yaml)
| YDict (entries : list (string * yaml)).
#[local] Set Warnings "register-all".

Module Dict.

Definition has (key : string) (d : list (string * yaml)) : bool :=
  existsb (λ kv, String.eqb (fst kv) key) d.

Fixpoint get (key : string) (d : list (string * yaml)) : option yaml :=
  match d with
  | [] => None
  | (k, v) :: d' => if String.eqb k key then Some v else get key d'
  end.

(** [d[key] = v]: an existing entry keeps its position. *)
Fixpoint set (key : string) (v : yaml) (d : list (string * yaml))
  : list (string * yaml) :=
  match d with
  | [] => [(key, v)]
  | (k, v') :: d' =>
      if String.eqb k key then (k, v) :: d' else (k, v') :: set key v d'
  end.

(** [del d[key]] for a key that is present. *)
Fixpoint del (key : string) (d : list (string * yaml)) : list (string * yaml) :=
  match d with
  | [] => []
  | (k, v) :: d' => if String.eqb k key then d' else (k, v) :: del key d'
  end.

End Dict.

(** Python truth value of a decoded value. *)
Definition truthy (v : yaml) : bool :=
  match v with
  | YNull => false
  | YBool b => b
  | YInt n => negb (n =? 0)%Z
  | YFloat q => negb (Qeq_bool q 0)
  | YStr s => negb (String.eqb s "")
  | YList l => negb (length l =? 0)%nat
  | YDict d => negb (length d =? 0)%nat
  end.

(** [remove_niqqud]: drops the code points U+0591 to U+05C7, which UTF-8
    writes as the byte 214 followed by 145-191, or 215 followed by 128-135. *)
Definition is_niqqud (c1 c2 : ascii) : bool :=
  let a := nat_of_ascii c1 in
  let b := nat_of_ascii c2 in
  ((a =? 214)%nat && (145 <=? b)%nat && (b <=? 191)%nat)
  || ((a =? 215)%nat && (128 <=? b)%nat && (b <=? 135)%nat).

Fixpoint remove_niqqud (message_text : string) : string :=
  match message_text with
  | EmptyString => EmptyString
  | String c1 rest =>
      match rest with
      | String c2 rest' =>
          if is_niqqud c1 c2 then remove_niqqud rest'
          else String c1 (remove_niqqud rest)
      | EmptyString => String c1 EmptyString
      end
  end.

Section Parser.
(** [QUOTE_CHAR_SUBSTITUTE] of [const.py]. *)
Variable QUOTE_CHAR_SUBSTITUTE : string.

(** [yaml.safe_load]: the decoded value, or [YAMLError]. *)
Variable safe_load : string → result yaml.

(** Line 378: an escaped quote becomes the substitute, other quotes stay. *)
Definition escape_quotes (yaml_string : string) : string :=
  PyStr.replace "\'" "'"
    (PyStr.replace "\\'" QUOTE_CHAR_SUBSTITUTE
       (PyStr.replace "'" "\'" yaml_string)).

(** [convert_yaml_str] on a string; [YNull] is [None]. *)
Definition convert_yaml_str (yaml_string : string) : yaml :=
  if String.eqb yaml_string "" then YDict []
  else match safe_load (escape_quotes yaml_string) with
       | Return yaml_object => yaml_object
       | Raise _ => YNull
       end.

(** Lines 310-327 for one dictionary: the dictionary after the
    conversion of the short form, and whether it is a valid segment.
    [elem["chime"].replace] raises when the value is not a string. *)
Definition convert_short_form (elem : list (string * yaml))
  : result (list (string * yaml) * bool) :=
  if Dict.has "type" elem then Return (elem, true)
  else if Dict.has "chime" elem then
    match Dict.get "chime" elem with
    | Some (YStr path) =>
        let elem := Dict.set "type" (YStr "chime") elem in
        let elem := Dict.set "path"
                      (YStr (PyStr.replace QUOTE_CHAR_SUBSTITUTE "'" path)) elem in
        Return (Dict.del "chime" elem, true)
    | _ => Raise AttributeError
    end
  else if Dict.has "tts" elem then
    match Dict.get "tts" elem with
    | Some (YStr message) =>
        let elem := Dict.set "type" (YStr "tts") elem in
        let elem := Dict.set "message"
                      (YStr (PyStr.replace QUOTE_CHAR_SUBSTITUTE "'" message)) elem in
        Return (Dict.del "tts" elem, true)
    | _ => Raise AttributeError
    end
  else if Dict.has "delay" elem then
    match Dict.get "delay" elem with
    | Some length =>
        let elem := Dict.set "type" (YStr "delay") elem in
        let elem := Dict.set "length" length elem in
        Return (Dict.del "delay" elem, true)
    | None => Raise (KeyError "delay")
    end
  else Return (elem, false).

(** The loop of lines 306-329: the list with its dictionaries
    converted, and the flag [is_valid]. *)
Fixpoint validate (message_yaml : list yaml) : result (list yaml * bool) :=
  match message_yaml with
  | [] => Return ([], true)
  | elem :: rest =>
      match (match elem with
             | YDict d =>
                 match convert_short_form d with
                 | Return (d', ok) => Return (YDict d', ok)
                 | Raise e => Raise e
                 end
             | other => Return (other, false)
             end) with
      | Raise e => Raise e
      | Return (elem', ok) =>
          match validate rest with
          | Raise e => Raise e
          | Return (rest', ok') => Return (elem' :: rest', ok && ok')
          end
      end
  end.

(** Lines 346-347: [value[key_n.lower()] = value_n] for every entry of
    a nested dictionary, while iterating over it. An assignment that
    adds an entry changes the size of the dictionary and the iteration
    raises [RuntimeError]. *)
Fixpoint lower_nested (steps i : nat) (value : list (string * yaml))
  : result (list (string * yaml)) :=
  match steps with
  | O => Return value
  | S steps' =>
      match value !! i with
      | None => Return value
      | Some (key_n, value_n) =>
          if Dict.has (PyStr.lower key_n) value
          then lower_nested steps' (S i) (Dict.set (PyStr.lower key_n) value_n value)
          else Raise RuntimeError
      end
  end.

(** Lines 343-349: the copy of a segment with lowercase keys. *)
Fixpoint lower_keys (segment_n segment : list (string * yaml))
  : result (list (string * yaml)) :=
  match segment_n with
  | [] => Return segment
  | (key, value) :: rest =>
      match (match value with
             | YDict d =>
                 match lower_nested (length d) 0 d with
                 | Return d' => Return (YDict d')
                 | Raise e => Raise e
                 end
             | other => Return other
             end) with
      | Raise e => Raise e
      | Return value' => lower_keys rest (Dict.set (PyStr.lower key) value' segment)
      end
  end.

(** Lines 352-357: [speed] and [pitch] are other names of [tts_speed]
    and [tts_pitch]. *)
Definition rename_alias (alias name : string) (segment : list (string * yaml))
  : list (string * yaml) :=
  match Dict.get alias segment with
  | Some v => if truthy v then Dict.del alias (Dict.set name v segment) else segment
  | None => segment
  end.

(** Lines 360-364: how many times the segment is appended. *)
Definition repeat_count (segment : list (string * yaml)) : nat :=
  match Dict.get "repeat" segment with
  | Some (YInt n) => Z.to_nat (Z.max n 1)
  | _ => 1
  end.

(** Lines 341-366 *)
Fixpoint final_adjustments (segments : list (list (string * yaml)))
  : result (list (list (string * yaml))) :=
  match segments with
  | [] => Return []
  | segment_n :: rest =>
      match lower_keys segment_n [] with
      | Raise e => Raise e
      | Return segment =>
          let segment := rename_alias "speed" "tts_speed" segment in
          let segment := rename_alias "pitch" "tts_pitch" segment in
          match final_adjustments rest with
          | Raise e => Raise e
          | Return final_segments =>
              Return (replicate (repeat_count segment) segment ++ final_segments)%list
          end
      end
  end.

(** The dictionaries of a list that passed [validate]. *)
Definition as_dicts (l : list yaml) : list (list (string * yaml)) :=
  omap (λ v, match v with YDict d => Some d | _ => None end) l.

(** Lines 296-298: [contains_keys] starts [True] and is only ever
    or-ed with the searches. *)
Definition contains_keys (message_string : string) : bool :=
  fold_left
    (λ acc key,
       acc || PyStr.contains ("'" ++ key ++ "':") message_string
           || PyStr.contains (String (ascii_of_nat 34) key
                                ++ String (ascii_of_nat 34) ":") message_string)
    ["type"; "tts"; "chime"; "delay"] true.

(** [parse_message] *)
Definition parse_message (message_string : string)
  : result (list (list (string * yaml))) :=
  let message_string := remove_niqqud message_string in
  if String.eqb message_string "" || String.eqb message_string "None"
  then Return []
  else
    match (if contains_keys message_string
           then match convert_yaml_str message_string with
                | YList message_yaml =>
                    match validate message_yaml with
                    | Raise e => Raise e
                    | Return (converted, is_valid) =>
                        Return (if is_valid then as_dicts converted else [])
                    end
                | _ => Return []
                end
           else Return []) with
    | Raise e => Raise e
    | Return segments =>
        let segments :=
          if (length segments =? 0)%nat
          then [[("type", YStr "tts"); ("message", YStr message_string)]]
          else segments in
        final_adjustments segments
    end.

End Parser.

(** ** Collaborators used in the examples

    A file system helper that keeps the frames it is given under
    [folder/file_name] and loads what a path holds, and a transcoder that
    leaves an empty output file behind and exits with code 1. *)

Definition memory_save (audio : list Z) (folder file_name : string)
  : M (gmap string (list Z)) (option string) :=
  let path := folder ++ "/" ++ file_name in
  λ w, (Return (Some path), <[path := audio]> w).

Definition memory_load (path : string) : M (gmap string (list Z)) (list Z) :=
  λ w, match w !! path with
       | Some audio => (Return audio, w)
       | None => (Raise (FileNotFoundError path), w)
       end.

Definition failing_ffmpeg (cmd : list string) : M (gmap string (list Z)) Z :=
  λ w, match last cmd with
       | Some output => (Return 1%Z, <[output := []]> w)
       | None => (Return 1%Z, w)
       end.

Definition failing_transcoder : collaborators Z (list Z) :=
  {| async_save_audio_to_folder := memory_save;
     async_load_audio := memory_load;
     ffmpeg := failing_ffmpeg |}.

(** A transcoder that writes every frame of its input twice (half speed)
    to its output and exits with code 0. *)

Definition doubling_ffmpeg (cmd : list string) : M (gmap string (list Z)) Z :=
  λ w, match cmd !! 2%nat, last cmd with
       | Some input, Some output =>
           match w !! input with
           | Some audio => (Return 0%Z, <[output := audio ≫= (λ x, [x; x])]> w)
           | None => (Return 1%Z, w)
           end
       | _, _ => (Return 1%Z, w)
       end.

Definition working_transcoder : collaborators Z (list Z) :=
  {| async_save_audio_to_folder := memory_save;
     async_load_audio := memory_load;
     ffmpeg := doubling_ffmpeg |}.

(** A media player that reports the volume level [0.5] whatever it is
    sent, its dictionary before any fade, and the same dictionary with the
    [volume_steps] that an earlier fade in three steps from [0] to [0.3]
    stored. *)

Definition steady_hass (issued : list hass_event) (entity : string) : option State :=
  Some {| state := "idle"; volume_level := Some (5 # 10)%Q |}.

(** A media player that reports the level of the last [volume_set], and
    [0.5] before the first one. *)
Definition following_hass (issued : list hass_event) (entity : string) : option State :=
  Some {| state := "idle";
          volume_level :=
            Some (fold_left (λ level e, match e with
                                        | VolumeSet _ sent => sent
                                        | Sleep _ => level
                                        end)
                            issued (5 # 10)%Q) |}.

Definition kitchen : media_player_dict :=
  {| entity_id := "media_player.kitchen"; levels := ∅; volume_steps := None |}.

Definition kitchen_after_fade : media_player_dict :=
  {| entity_id := "media_player.kitchen"; levels := ∅;
     volume_steps := Some [(1 # 10)%Q; (2 # 10)%Q] |}.

(** A quote substitute, and what [yaml.safe_load] decodes the two flow
    sequences of the examples to. *)

Definition example_substitute : string := "<quote>".

Definition example_safe_load (text : string) : result yaml :=
  if String.eqb text "[{'type': 'tts', 'message': 'Don<quote>t'}]"
  then Return (YList [YDict [("type", YStr "tts"); ("message", YStr "Don<quote>t")]])
  else if String.eqb text "[{'tts': 'Don<quote>t'}]"
  then Return (YList [YDict [("tts", YStr "Don<quote>t")]])
  else Raise YAMLError.

(** ** Speed change: [async_change_speed_of_audiosegment] *)

(** The stages after the first one, as the f-string of line 673 writes them. *)
Fixpoint atempo_chain (float_str : Q → string) (tempos : list Q) : string :=
  match tempos with
  | [] => ""
  | tempo_n :: rest => ",atempo=" ++ float_str tempo_n ++ atempo_chain float_str rest
  end.

(** [async_change_speed_of_audiosegment] (lines 677-695). An absent
    [temp_folder] is [""]. The result is [None] when the tempo loop does
    not end. *)
Definition async_change_speed_of_audiosegment {frame content : Type}
    (env : collaborators frame content) (float_str : Q → string)
    (audio_segment : option (list frame)) (speed : Q) (temp_folder : string)
  : option (M (gmap string content) (option (list frame))) :=
  let absent := match audio_segment with None | Some [] => true | Some _ => false end in
  if absent || Qeq_bool speed 100 || Qltb speed 1 || Qltb 500 speed
  then Some (ret audio_segment)
  else
    let tempo := (speed / 100)%Q in
    ffmpeg_args_string ← add_atempo_values_to_ffmpeg_args_string float_str tempo None;
    Some (async_ffmpeg_convert_from_audio_segment env audio_segment
            (default "" ffmpeg_args_string) temp_folder).

(** A segment that names its kind. *)
Definition typed (segment : list (string * yaml)) : Prop :=
  Dict.has "type" segment = true.

(** Every byte of a string is an ASCII character. *)
Fixpoint ascii_only (s : string) : bool :=
  match s with
  | EmptyString => true
  | String c s' => (nat_of_ascii c <? 128)%nat && ascii_only s'
  end.

(** ** Predicates on what the fader issued *)

(** The level of a [volume_set] call is not negative. *)
Definition nonnegative_level (e : hass_event) : Prop :=
  match e with
  | VolumeSet _ level => (0 <= level)%Q
  | Sleep _ => True
  end.

Definition is_sleep (e : hass_event) : Prop :=
  match e with
  | VolumeSet _ _ => False
  | Sleep _ => True
  end.

(** The level that a fade in [n] steps from [current] to [target] sends
    in step [s], computed without rounding errors: a point on the
    straight line between the two for every step but the last, the
    target in the last step, not below [0] and rounded to four digits. *)
Definition fade_level (current target : Q) (n s : nat) : Q :=
  let value :=
    if (s <? n - 1)%nat
    then (current + (target - current) / Qnat n * Qnat (1 + s))%Q
    else target in
  py_round (if Qltb value 0 then 0%Q else value) 4.

(** The calls and sleeps of such a fade for one player. *)
Definition fade_schedule (entity : string) (current target delay_s : Q) (n : nat)
  : list hass_event :=
  flat_map
    (λ s, VolumeSet entity (fade_level current target n s)
          :: if (s =? n - 1)%nat then [] else [Sleep delay_s])
    (seq 0 n).

(** Every dictionary resolves to the target [-1] and no [volume_set]
    has been issued. *)
Definition unchanged_targets (key : volume_key) (st : fade_state) : Prop :=
  (∀ d, d ∈ dicts st → same_number (target_of d key) (-1)%Q = true)
  ∧ Forall is_sleep (events st).

(** A computation keeps a property of the state, whether it returns or
    raises. *)
Definition preserves {S A : Type} (P : S → Prop) (m : M S A) : Prop :=
  ∀ w, P w → P (snd (m w)).

(** ** TTS platform selection (helpers.py, lines 410-443 and 485-530) *)

(** What the selection reads from [hass]: the keys of
    [hass.data["tts_manager"].providers] in their order, the entity ids
    of [hass.states.async_all()], and whether [hass.states.get] finds a
    state for an id. *)
Record tts_hass : Type := {
  tts_manager_providers : list string;
  states_async_all : list string;
  states_get : string → bool
}.

(** [get_installed_tts_platforms] *)
Definition get_installed_tts_platforms (hass : tts_hass) : list string :=
  let tts_providers := tts_manager_providers hass in
  let tts_entities := List.filter (String.prefix "tts.") (states_async_all hass) in
  (tts_providers ++ tts_entities)%list.

(** [get_default_tts_platform]; the result [None] is Python's [False],
    the argument [None] Python's [None]. *)
Definition get_default_tts_platform (hass : tts_hass)
    (default_tts_platform : option string) : option string :=
  let installed_tts := tts_manager_providers hass in
  match installed_tts with
  | [] => None
  | first :: _ =>
      match default_tts_platform with
      | None => Some first
      | Some default =>
          if (String.length default =? 0)%nat then Some first
          else if existsb (String.eqb default) installed_tts || states_get hass default
               then Some default
               else Some first
      end
  end.

Section TtsPlatform.
(** [NABU_CASA_CLOUD_TTS_OLD], [NABU_CASA_CLOUD_TTS] and
    [GOOGLE_TRANSLATE] of [const.py]. *)
Variable NABU_CASA_CLOUD_TTS_OLD : string.
Variable NABU_CASA_CLOUD_TTS : string.
Variable GOOGLE_TRANSLATE : string.

(** Lines 431-437: an entity whose name holds [google]. *)
Definition google_entity (tts_provider_n : string) : bool :=
  PyStr.contains "google" (PyStr.lower tts_provider_n)
  && String.prefix "tts." tts_provider_n.

(** [get_tts_platform]; [None] is Python's [False]. *)
Definition get_tts_platform (hass : tts_hass) (tts_platform : string)
    (default_tts_platform : option string) : option string :=
  let installed_tts_platforms := get_installed_tts_platforms hass in
  if String.eqb (PyStr.lower tts_platform) NABU_CASA_CLOUD_TTS_OLD
  then Some NABU_CASA_CLOUD_TTS
  else
    match List.find (String.eqb tts_platform) installed_tts_platforms with
    | Some tts_provider_n => Some tts_provider_n
    | None =>
        let default := get_default_tts_platform hass default_tts_platform in
        if PyStr.contains "google" tts_platform then
          match (if String.prefix "tts." tts_platform
                 then List.find google_entity installed_tts_platforms
                 else None) with
          | Some tts_provider_n => Some tts_provider_n
          | None =>
              if existsb (λ tts_provider_n,
                            String.eqb (PyStr.lower tts_provider_n) GOOGLE_TRANSLATE)
                         installed_tts_platforms
              then Some GOOGLE_TRANSLATE
              else default
          end
        else default
    end.

End TtsPlatform.

(** ** Media player platforms (media_player.py, lines 114-146) *)

(** An entry of [hass.data["entity_registry"].entities]. *)
Record registry_entry : Type := {
  reg_entity_id : string;
  reg_platform : string;
  reg_device_id : option string
}.

(** [get_media_player_platform]: the platform of the first entry with
    the entity id, [None] without one. *)
Definition get_media_player_platform (entity_registry : list registry_entry)
    (entity_id : string) : option string :=
  match List.find (λ entity, String.eqb (reg_entity_id entity) entity_id)
                  entity_registry with
  | Some entity => Some (reg_platform entity)
  | None => None
  end.

(** [str(platform)], which is the text [None] for [None]. *)
Definition py_str (platform : option string) : string :=
  match platform with
  | Some s => s
  | None => "None"
  end.

Section Platforms.
(** [ALEXA_MEDIA_PLAYER_PLATFORM], [SONOS_PLATFORM] and
    [SPOTIFY_PLATFORM] of [const.py]. *)
Variable ALEXA_MEDIA_PLAYER_PLATFORM : string.
Variable SONOS_PLATFORM : string.
Variable SPOTIFY_PLATFORM : string.
Variable entity_registry : list registry_entry.

Definition get_is_media_player_alexa (entity_id : string) : bool :=
  String.eqb (PyStr.lower (py_str (get_media_player_platform entity_registry entity_id)))
             ALEXA_MEDIA_PLAYER_PLATFORM.

Definition get_is_media_player_sonos (entity_id : string) : bool :=
  String.eqb (PyStr.lower (py_str (get_media_player_platform entity_registry entity_id)))
             SONOS_PLATFORM.

Definition get_is_media_player_spotify (entity_id : string) : bool :=
  String.eqb (PyStr.lower (py_str (get_media_player_platform entity_registry entity_id)))
             SPOTIFY_PLATFORM.

Definition get_is_standard_media_player (entity_id : string) : bool :=
  negb (get_is_media_player_alexa entity_id
        || get_is_media_player_sonos entity_id
        || get_is_media_player_spotify entity_id).

(** [get_alexa_media_player_count]: the loop with its counter. *)
Definition get_alexa_media_player_count (entity_ids : list string) : nat :=
  fold_left (λ ret_val entity_id,
               if get_is_media_player_alexa entity_id then ret_val + 1 else ret_val)%nat
            entity_ids 0%nat.

End Platforms.

(** ** Supported features and joining (media_player.py, lines 148-163
    and 380-417) *)

(** The attribute names that [get_supported_feature] compares its
    argument with by identity; [other_feature] is any other object. *)
Inductive feature : Type :=
  | ATTR_MEDIA_VOLUME_LEVEL
  | ATTR_MEDIA_ANNOUNCE
  | ATTR_GROUP_MEMBERS
  | other_feature.

(** A state object as [get_supported_feature] reads it: its
    [attributes], if any, and in them [supported_features], if set. *)
Record entity_state : Type := {
  attributes : option (option Z)
}.

(** [bool(supported_features & mask)] *)
Definition has_flag (supported_features mask : Z) : bool :=
  negb (Z.land supported_features mask =? 0)%Z.

(** [get_supported_feature] *)
Definition get_supported_feature (entity : option entity_state) (f : feature) : bool :=
  match entity with
  | None => false
  | Some e =>
      match attributes e with
      | None => false
      | Some attrs =>
          let supported_features := default 0%Z attrs in
          match f with
          | ATTR_MEDIA_VOLUME_LEVEL => has_flag supported_features 2
          | ATTR_MEDIA_ANNOUNCE => has_flag supported_features 1048576
          | ATTR_GROUP_MEMBERS => has_flag supported_features 524288
          | other_feature => false
          end
      end
  end.

(** A call of the service [media_player.join]: the [entity_id] and the
    [group_members] of its data. *)
Record join_call : Type := {
  join_entity_id : string;
  join_group_members : list string
}.

(** [async_join_media_players]: the returned id ([None] is Python's
    [False]) and the service calls made. [hass_states_get] is
    [hass.states.get], which no [await] separates from the loop that
    reads it; [join_raises] says whether the service call raises. *)
Definition async_join_media_players
    (hass_states_get : string → option entity_state)
    (join_raises : join_call → bool) (entity_ids : list string)
    : option string * list join_call :=
  let supported_entity_ids :=
    List.filter (λ entity_id,
                   get_supported_feature (hass_states_get entity_id) ATTR_GROUP_MEMBERS)
                entity_ids in
  if (1 <? length supported_entity_ids)%nat then
    match supported_entity_ids with
    | join_media_player_entity_id :: _ =>
        let call := {| join_entity_id := join_media_player_entity_id;
                       join_group_members := supported_entity_ids |} in
        if join_raises call then (None, [call])
        else (Some join_media_player_entity_id, [call])
    | [] => (None, [])
    end
  else (None, []).

(** Bit 19 of the [supported_features] of the state that [hass] holds
    for an entity id; false without a state, without attributes and
    without the attribute. *)
Definition group_bit (hass_states_get : string → option entity_state)
    (entity_id : string) : bool :=
  match hass_states_get entity_id with
  | Some {| attributes := Some (Some supported_features) |} =>
      Z.testbit supported_features 19
  | _ => false
  end.

(** ** Media content ids (media_player.py, lines 173-189) *)

(** [str.find(sub)]: the first position where [sub] starts; [None]
    stands for [-1]. *)
Fixpoint str_find (sub s : string) : option nat :=
  if String.prefix sub s then Some 0%nat
  else match s with
       | EmptyString => None
       | String _ s' => S <$> str_find sub s'
       end.

Section MediaContent.
(** [MEDIA_DIR_DEFAULT] of [const.py]. *)
Variable MEDIA_DIR_DEFAULT : string.

(** [get_media_content_id]. The local [media_dir] is computed and not
    read again. *)
Definition get_media_content_id (file_path : option string) (media_dir : string)
  : option string :=
  match file_path with
  | None => None
  | Some file_path =>
      let media_dir := PyStr.replace "//" "/" ("/" ++ media_dir ++ "/") in
      let media_source_path := file_path in
      match str_find "/media/" media_source_path with
      | Some media_folder_path_index =>
          let media_path :=
            PyStr.replace "//" "/"
              (PyStr.drop (media_folder_path_index + String.length "/media/")
                          media_source_path) in
          Some (PyStr.replace "<media_path>" media_path
                  (PyStr.replace "<media_dir>" ("/" ++ MEDIA_DIR_DEFAULT ++ "/")
                     "media-source://media_source<media_dir><media_path>"))
      | None => None
      end
  end.

End MediaContent.

(** A registry of three players for the examples: the den and the hall
    can be grouped, the television cannot. *)
Definition group_states (entity_id : string) : option entity_state :=
  if String.eqb entity_id "media_player.tv"
  then Some {| attributes := Some (Some 2%Z) |}
  else Some {| attributes := Some (Some 524288%Z) |}.

(** * Properties *)

(** ** String replacement *)

Module PyStrFacts.
Import PyStr.

Lemma append_cons (c : ascii) (s1 s2 : string) :
  String c s1 ++ s2 = String c (s1 ++ s2).
Proof. reflexivity. Qed.

Lemma length_append (s1 s2 : string) :
  String.length (s1 ++ s2) = (String.length s1 + String.length s2)%nat.
Proof. induction s1 as [|c s1 IH]; simpl; [reflexivity | now rewrite IH]. Qed.

Lemma drop_0 (s : string) : drop 0 s = s.
Proof. now destruct s. Qed.

Lemma length_drop (n : nat) (s : string) :
  String.length (drop n s) = (String.length s - n)%nat.
Proof.
  revert s; induction n as [|n IH]; intros s.
  - rewrite drop_0. lia.
  - destruct s as [|c s]; simpl; [reflexivity | apply IH].
Qed.

Lemma replace_skip_drop (old new : string) (k : nat) (s : string) :
  replace_skip old new k s = replace_skip old new 0 (drop k s).
Proof.
  revert k; induction s as [|c s IH]; intros k.
  - now destruct k.
  - destruct k as [|k]; [reflexivity |]. simpl. apply IH.
Qed.

(** A string that starts with [old] is [old] followed by the rest. *)
Lemma prefix_split (old s : string) :
  String.prefix old s = true → s = old ++ drop (String.length old) s.
Proof.
  revert s; induction old as [|a old IH]; intros s Hp.
  - change (s = drop 0 s). now rewrite drop_0.
  - destruct s as [|b s]; simpl in Hp; [discriminate |].
    destruct (ascii_dec a b) as [->|]; [| discriminate].
    rewrite append_cons. simpl. f_equal. now apply IH.
Qed.

(** The unfolding of [replace_skip] at a position where nothing is skipped. *)
Lemma replace_skip_cons (old new : string) (c : ascii) (s : string) :
  old ≠ "" →
  replace_skip old new 0 (String c s) =
    if String.prefix old (String c s)
    then new ++ replace_skip old new 0 (drop (String.length old) (String c s))
    else String c (replace_skip old new 0 s).
Proof.
  intros Hold.
  change (replace_skip old new 0 (String c s))
    with (if String.prefix old (String c s)
          then new ++ replace_skip old new (String.length old - 1) s
          else String c (replace_skip old new 0 s)).
  destruct (String.prefix old (String c s)); [| reflexivity].
  rewrite replace_skip_drop. destruct old as [|a old]; [congruence |].
  simpl. now rewrite Nat.sub_0_r.
Qed.

Lemma append_inj_length (a b x y : string) :
  String.length a = String.length b → a ++ x = b ++ y → a = b.
Proof.
  revert b; induction a as [|c a IH]; intros [|d b] Hl He; simpl in *;
    try discriminate; [reflexivity |].
  injection He as -> He. f_equal. apply IH; [lia | assumption].
Qed.

(** Replacing by a longer string never shortens, by a shorter one never
    lengthens. *)
Lemma length_replace_skip (old new : string) :
  old ≠ "" →
  ∀ n s, (String.length s ≤ n)%nat →
    ((String.length old ≤ String.length new)%nat →
       (String.length s ≤ String.length (replace_skip old new 0 s))%nat)
    ∧ ((String.length new ≤ String.length old)%nat →
       (String.length (replace_skip old new 0 s) ≤ String.length s)%nat).
Proof.
  intros Hold n; induction n as [|n IH]; intros s Hn.
  - destruct s; simpl in *; [split; intros; lia | lia].
  - destruct s as [|c s]; [simpl; split; intros; lia |].
    rewrite replace_skip_cons by assumption.
    destruct (String.prefix old (String c s)) eqn:Hp.
    + pose proof (prefix_split _ _ Hp) as Hs.
      assert (Hlen : String.length (String c s) =
                     (String.length old + String.length (drop (String.length old) (String c s)))%nat).
      { rewrite Hs at 1. apply length_append. }
      assert (Hpos : (0 < String.length old)%nat).
      { destruct old; [congruence | simpl; lia]. }
      destruct (IH (drop (String.length old) (String c s))) as [IH1 IH2].
      { rewrite length_drop. simpl in *. lia. }
      rewrite length_append. split; intros Hle.
      * specialize (IH1 Hle). lia.
      * specialize (IH2 Hle). lia.
    + destruct (IH s) as [IH1 IH2]; [simpl in Hn; lia |].
      simpl. split; intros Hle; [specialize (IH1 Hle) | specialize (IH2 Hle)]; lia.
Qed.

Lemma contains_cons (old : string) (c : ascii) (s : string) :
  contains old (String c s) = String.prefix old (String c s) || contains old s.
Proof. reflexivity. Qed.

(** A replacement that leaves a string unchanged found nothing to
    replace, unless it replaces [old] by itself. *)
Lemma replace_skip_fixed (old new : string) :
  old ≠ "" →
  ∀ n s, (String.length s ≤ n)%nat →
    contains old s = true → replace_skip old new 0 s = s → new = old.
Proof.
  intros Hold n; induction n as [|n IH]; intros s Hn Hc He.
  - destruct s; simpl in *; [| lia].
    destruct old; [congruence | discriminate].
  - destruct s as [|c s].
    { simpl in Hc. destruct old; [congruence | discriminate]. }
    rewrite replace_skip_cons in He by assumption.
    rewrite contains_cons in Hc.
    destruct (String.prefix old (String c s)) eqn:Hp.
    + pose proof (prefix_split _ _ Hp) as Hs.
      set (rest := drop (String.length old) (String c s)) in *.
      assert (Hrest : (String.length rest ≤ n)%nat).
      { subst rest. rewrite length_drop.
        destruct old; [congruence | simpl in *; lia]. }
      destruct (length_replace_skip old new Hold n rest Hrest) as [L1 L2].
      assert (Hlen : (String.length new + String.length (replace_skip old new 0 rest)
                      = String.length old + String.length rest)%nat).
      { rewrite <- !length_append. rewrite <- Hs. now rewrite He. }
      assert (Heq : String.length new = String.length old).
      { destruct (Nat.le_gt_cases (String.length old) (String.length new)) as [H1|H1].
        - specialize (L1 H1). lia.
        - assert (H2 : (String.length new ≤ String.length old)%nat) by lia.
          specialize (L2 H2). lia. }
      assert (He' : new ++ replace_skip old new 0 rest = old ++ rest)
        by (rewrite He; exact Hs).
      eapply append_inj_length; eassumption.
    + injection He as He. rewrite orb_false_l in Hc.
      apply (IH s); [simpl in Hn; lia | assumption | assumption].
Qed.

Lemma replace_changes (old new s : string) :
  old ≠ "" → new ≠ old → contains old s = true → replace old new s ≠ s.
Proof.
  intros Hold Hnew Hc He. apply Hnew.
  unfold replace in He. destruct old as [|a old]; [congruence |].
  eapply (replace_skip_fixed _ new Hold (String.length s) s); eauto.
Qed.

End PyStrFacts.

(** A replacement of a text that does not occur changes nothing. *)
Lemma replace_skip_absent (old new s : string) :
  old ≠ "" → PyStr.contains old s = false → PyStr.replace_skip old new 0 s = s.
Proof.
  intros Hold. induction s as [|c s IH]; [reflexivity |].
  rewrite PyStrFacts.contains_cons. intros H.
  apply orb_false_iff in H as [Hp Hs].
  rewrite PyStrFacts.replace_skip_cons by exact Hold.
  rewrite Hp. now rewrite IH.
Qed.

Example replace_ext :
  PyStr.replace ".mp3" ".wav" "/tmp/temp_segment.mp3" = "/tmp/temp_segment.wav".
Proof. reflexivity. Qed.

Example replace_absent :
  PyStr.replace ".mp3" "_converted.mp3" "/tmp/a.wav" = "/tmp/a.wav".
Proof. reflexivity. Qed.

Example replace_overlapping : PyStr.replace "aa" "b" "aaaaa" = "bba".
Proof. reflexivity. Qed.

Example split_args :
  PyStr.split "  -f  wav -ar 24000 " = ["-f"; "wav"; "-ar"; "24000"].
Proof. reflexivity. Qed.

(** ** Transcoder invoker *)

Section TranscoderFacts.
Import PyStrFacts.

Lemma converted_path_binding_cases (file_path ffmpeg_args : string)
    (cmd : list string) (p : string) :
  converted_path_binding file_path ffmpeg_args cmd = Some p →
  p = PyStr.replace ".mp3" "_converted.mp3" file_path
  ∨ ∃ ext, ext ≠ "mp3" ∧ p = PyStr.replace ".mp3" ("." ++ ext) file_path.
Proof.
  unfold converted_path_binding, format_swap.
  destruct (PyStr.index "-f" cmd) as [index|]; [| intros [= <-]; now left].
  destruct ((0 <=? index)%nat && (index <=? String.length ffmpeg_args)%nat);
    [| discriminate].
  destruct (cmd !! (index + 1)%nat) as [ext|]; [| intros [= <-]; now left].
  destruct (String.eqb_spec ext "mp3") as [|Hne]; simpl; [discriminate |].
  intros [= <-]. right. now exists ext.
Qed.

(** With [-f mp3] no assignment to [converted_file_path] runs. *)
Lemma computed_output_path_f_mp3 (file_path : string) :
  file_path ≠ "-f" →
  computed_output_path file_path "-f mp3"
  = Raise (UnboundLocalError "converted_file_path").
Proof.
  intros Hne. unfold computed_output_path, converted_path_binding, format_swap.
  replace (ffmpeg_command file_path "-f mp3")
    with ["ffmpeg"; "-i"; file_path; "-f"; "mp3"] by reflexivity.
  assert (Hi : PyStr.index "-f" ["ffmpeg"; "-i"; file_path; "-f"; "mp3"] = Some 3%nat).
  { change (PyStr.index "-f" ["ffmpeg"; "-i"; file_path; "-f"; "mp3"])
      with (S <$> (S <$> (if String.eqb file_path "-f" then Some O
                           else S <$> Some O))).
    apply String.eqb_neq in Hne. now rewrite Hne. }
  rewrite Hi. reflexivity.
Qed.

(** The handler of the outer [try] then reads [ffmpeg_cmd_string]
    before its assignment. *)
Lemma ffmpeg_convert_from_file_f_mp3 {frame content : Type}
    (env : collaborators frame content) (file_path : string)
    (w : gmap string content) :
  file_path ≠ "-f" → is_Some (w !! file_path) →
  ffmpeg_convert_from_file env file_path "-f mp3" w
  = (Raise (UnboundLocalError "ffmpeg_cmd_string"), w).
Proof.
  intros Hne Hex.
  unfold ffmpeg_convert_from_file, bind, os_path_exists, try_except,
    prepare_output, lift, raise.
  rewrite bool_decide_eq_true_2 by assumption. simpl negb. cbv iota.
  unfold bind. now rewrite computed_output_path_f_mp3.
Qed.

(** So the whole conversion raises, whatever the collaborators are, as
    soon as the temp file has been stored. *)
Lemma convert_f_mp3_raises {frame content : Type}
    (env : collaborators frame content) (audio : list frame) (folder path : string)
    (w w' : gmap string content) :
  audio ≠ [] → folder ≠ "" →
  async_save_audio_to_folder env audio folder "temp_segment.mp3" w
    = (Return (Some path), w') →
  path ≠ "" → path ≠ "-f" → is_Some (w' !! path) →
  async_ffmpeg_convert_from_audio_segment env (Some audio) "-f mp3" folder w
  = (Raise (UnboundLocalError "ffmpeg_cmd_string"), w').
Proof.
  intros Ha Hf Hsave Hp Hpf Hex.
  unfold async_ffmpeg_convert_from_audio_segment.
  destruct audio as [|x audio]; [congruence |].
  apply String.eqb_neq in Hf. rewrite Hf.
  change (("-f mp3" =? "") || false) with false. cbv iota.
  unfold bind at 1. cbv beta. rewrite Hsave. cbv beta iota.
  destruct path as [|c path]; [congruence |].
  unfold bind at 1. cbv beta. now rewrite ffmpeg_convert_from_file_f_mp3.
Qed.

End TranscoderFacts.

(** For an input path without [.mp3] neither the format swap nor the
    [_converted] suffix changes the path, and the output path is the
    input path. *)
Example output_path_equals_input_without_mp3 :
  computed_output_path "/media/chime.wav" "-f ogg" = Return "/media/chime.wav".
Proof. reflexivity. Qed.

(** C3: the collision fallback of lines 605-606 does nothing whenever
    its test fires. When the path that lines 595-603 bind is the input
    path, the replacement of [.mp3] by [_converted.mp3] leaves it as it
    is, since the binding itself came from a replacement of [.mp3] that
    changed nothing: the output path is the input path. The function
    then removes its own input file before it starts the transcoder. *)
Theorem collision_fallback_keeps_input_path {content : Type}
    (file_path ffmpeg_args : string) (w : gmap string content) :
  converted_path_binding file_path ffmpeg_args (ffmpeg_command file_path ffmpeg_args)
  = Some file_path →
  is_Some (w !! file_path) →
  computed_output_path file_path ffmpeg_args = Return file_path
  ∧ prepare_output file_path ffmpeg_args w = (Return file_path, delete file_path w).
Proof.
  intros Hb Hex.
  assert (Hfix : PyStr.replace ".mp3" "_converted.mp3" file_path = file_path).
  { destruct (converted_path_binding_cases _ _ _ _ Hb) as [H1|(ext & Hext & H2)];
      [now symmetry |].
    destruct (PyStr.contains ".mp3" file_path) eqn:Hc.
    - exfalso.
      apply (PyStrFacts.replace_changes ".mp3" ("." ++ ext) file_path);
        [discriminate | | exact Hc | now symmetry].
      change ("." ++ ext) with (String "." ext). intros [= Heq]. now apply Hext.
    - apply replace_skip_absent; [discriminate | exact Hc]. }
  assert (Hpath : computed_output_path file_path ffmpeg_args = Return file_path).
  { unfold computed_output_path. now rewrite Hb, String.eqb_refl, Hfix. }
  split; [exact Hpath |].
  unfold prepare_output, bind, lift, os_path_exists, os_remove, ret.
  rewrite Hpath, bool_decide_eq_true_2 by exact Hex.
  destruct Hex as [c Hc]. now rewrite Hc.
Qed.

Lemma collision_fallback_keeps_input_path_witness :
  computed_output_path "/media/chime.wav" "-f ogg" = Return "/media/chime.wav"
  ∧ prepare_output "/media/chime.wav" "-f ogg"
      (<["/media/chime.wav" := [1; 2; 3]%Z]> ∅)
    = (Return "/media/chime.wav",
       delete "/media/chime.wav" (<["/media/chime.wav" := [1; 2; 3]%Z]> ∅)).
Proof.
  apply (collision_fallback_keeps_input_path "/media/chime.wav" "-f ogg").
  - reflexivity.
  - exists [1; 2; 3]%Z. apply lookup_insert_eq.
Defined.

(** For every input path that contains [.mp3] and every argument string
    for which [ffmpeg_convert_from_file] computes an output path, the
    output path is not the input path; it is the input path with [.mp3]
    replaced by [_converted.mp3] or by [.<ext>] for an extension that is
    not [mp3]. *)
Lemma output_path_of_mp3_input (file_path ffmpeg_args p : string) :
  PyStr.contains ".mp3" file_path = true →
  computed_output_path file_path ffmpeg_args = Return p →
  p ≠ file_path
  ∧ (p = PyStr.replace ".mp3" "_converted.mp3" file_path
     ∨ ∃ ext, ext ≠ "mp3" ∧ p = PyStr.replace ".mp3" ("." ++ ext) file_path).
Proof.
  intros Hc. unfold computed_output_path.
  destruct (converted_path_binding file_path ffmpeg_args
              (ffmpeg_command file_path ffmpeg_args)) as [q|] eqn:Hb;
    [| discriminate].
  assert (Hconv : PyStr.replace ".mp3" "_converted.mp3" file_path ≠ file_path)
    by (apply PyStrFacts.replace_changes; [discriminate | discriminate | assumption]).
  destruct (String.eqb_spec q file_path) as [->|Hq]; intros [= <-].
  - split; [assumption | now left].
  - split; [assumption |]. eapply converted_path_binding_cases; eassumption.
Qed.

(** A conversion that succeeds returns the converted frames and leaves
    no file behind, with the default suffix and with a format swap. *)
Example conversion_succeeds :
  async_ffmpeg_convert_from_audio_segment working_transcoder
    (Some [1; 2; 3]%Z) "-af atempo=0.5" "/tmp" ∅
  = (Return (Some [1; 1; 2; 2; 3; 3]%Z), ∅)
  ∧ async_ffmpeg_convert_from_audio_segment working_transcoder
      (Some [1; 2; 3]%Z) "-f wav" "/tmp" ∅
    = (Return (Some [1; 1; 2; 2; 3; 3]%Z), ∅).
Proof. split; vm_compute; reflexivity. Qed.

(** C1: the conversion raises when the argument string is [-f mp3],
    even with a transcoder that works. The temp file is saved, no output
    path is assigned, the read of [converted_file_path] raises inside the
    outer [try], and its handler raises again on [ffmpeg_cmd_string];
    nothing catches that. *)
Theorem convert_raises_on_f_mp3 :
  fst (async_ffmpeg_convert_from_audio_segment working_transcoder
         (Some [1; 2; 3]%Z) "-f mp3" "/tmp" ∅)
  = Raise (UnboundLocalError "ffmpeg_cmd_string").
Proof. vm_compute. reflexivity. Qed.

(** C4: after a transcoder run that exits with code 1 the temp source
    file is gone and the original frames are returned, but the file that
    the transcoder left at the computed output path is still there. *)
Theorem failed_conversion_leaves_output :
  let '(returned, files) :=
    async_ffmpeg_convert_from_audio_segment failing_transcoder
      (Some [1; 2; 3]%Z) "-ar 24000" "/tmp" ∅ in
  returned = Return (Some [1; 2; 3]%Z)
  ∧ computed_output_path "/tmp/temp_segment.mp3" "-ar 24000"
    = Return "/tmp/temp_segment_converted.mp3"
  ∧ files !! "/tmp/temp_segment.mp3" = None
  ∧ files !! "/tmp/temp_segment_converted.mp3" = Some [].
Proof. vm_compute. repeat split. Qed.

(** ** Tempo decomposition *)

Section TempoFacts.
Local Open Scope Q_scope.

Lemma Qltb_true (x y : Q) : Qltb x y = true ↔ x < y.
Proof.
  unfold Qltb. rewrite negb_true_iff. split.
  - intros Hb. apply Qnot_le_lt. intros Hle.
    apply Qle_bool_iff in Hle. congruence.
  - intros Hlt. destruct (Qle_bool y x) eqn:Hb; [| reflexivity].
    apply Qle_bool_iff in Hb. exfalso. eapply Qlt_not_le; eassumption.
Qed.

Lemma Qltb_false (x y : Q) : Qltb x y = false ↔ y <= x.
Proof.
  unfold Qltb. rewrite negb_false_iff. apply Qle_bool_iff.
Qed.

Lemma Qproduct_app (l1 l2 : list Q) :
  Qproduct (l1 ++ l2) == Qproduct l1 * Qproduct l2.
Proof.
  induction l1 as [|x l1 IH]; simpl.
  - ring.
  - rewrite IH. ring.
Qed.

Lemma pow2_succ (n : nat) : pow2 (S n) == 2 * pow2 n.
Proof.
  unfold pow2. rewrite Nat2Z.inj_succ, Z.pow_succ_r by lia.
  rewrite inject_Z_mult. reflexivity.
Qed.

Lemma size_nat_bound (p : positive) :
  (Z.pos p < 2 ^ Z.of_nat (Pos.size_nat p))%Z.
Proof.
  induction p as [p IH|p IH|]; simpl Pos.size_nat;
    rewrite ?Nat2Z.inj_succ, ?Z.pow_succ_r by lia; lia.
Qed.

(** Doubling a positive tempo as often as its denominator has bits
    passes one half. *)
Lemma atempo_fuel_enough (t : Q) : 0 < t → half <= t * pow2 (atempo_fuel t).
Proof.
  destruct t as [n d]. unfold Qlt, Qle, half, pow2, atempo_fuel. simpl.
  intros Hn. pose proof (size_nat_bound d) as Hd.
  set (N := (2 ^ Z.of_nat (Pos.size_nat d))%Z) in *.
  rewrite Pos.mul_1_r. nia.
Qed.

(** The loop, started below one half with enough fuel, ends: it appends
    some stages of one half and a residual of at least one half, and
    these stages times one half give back what it started from. *)
Lemma atempo_loop_spec (fuel : nat) :
  ∀ (remaining : Q) (tempos : list Q),
    remaining < half → half <= remaining * pow2 fuel →
    ∃ (k : nat) (residual : Q),
      atempo_loop fuel remaining tempos
        = Some (tempos ++ replicate k half ++ [residual])%list
      ∧ half <= residual
      ∧ Qproduct (replicate k half ++ [residual]) * half == remaining.
Proof.
  induction fuel as [|fuel IH]; intros remaining tempos Hlt Hfuel.
  - exfalso.
    assert (H1 : remaining * pow2 0 == remaining) by (unfold pow2; change (inject_Z (2 ^ Z.of_nat 0)) with 1; ring).
    rewrite H1 in Hfuel. eapply Qlt_not_le; eassumption.
  - simpl atempo_loop. apply Qltb_true in Hlt as Hb. rewrite Hb.
    destruct (Qle_bool half (remaining / half)) eqn:Hres.
    + exists 0%nat, (remaining / half). split; [reflexivity |].
      split; [now apply Qle_bool_iff |].
      simpl. unfold half. field.
    + assert (Hlt' : remaining / half < half).
      { apply Qltb_true. unfold Qltb. now rewrite Hres. }
      assert (Hfuel' : half <= remaining / half * pow2 fuel).
      { rewrite pow2_succ in Hfuel.
        assert (Hd : remaining / half * pow2 fuel == remaining * (2 * pow2 fuel))
          by (unfold half; field).
        now rewrite Hd. }
      destruct (IH (remaining / half) (tempos ++ [half])%list Hlt' Hfuel')
        as (k & residual & Heq & Hge & Hprod).
      exists (S k), residual. split; [| split; [assumption |]].
      * rewrite Heq. f_equal. rewrite <- app_assoc. reflexivity.
      * change (Qproduct (replicate (S k) half ++ [residual]))
          with (half * Qproduct (replicate k half ++ [residual])).
        rewrite <- Qmult_assoc, Hprod. unfold half. field.
Qed.

Lemma append_assoc (a b c : string) : ((a ++ b) ++ c = a ++ (b ++ c))%string.
Proof.
  induction a as [|x a IH]; [reflexivity |].
  rewrite !PyStrFacts.append_cons. now rewrite IH.
Qed.

(** The string that the loop of lines 669-675 builds on an argument
    string that is already there. *)
Lemma append_atempo_stages_some (float_str : Q → string) (tempos : list Q) :
  ∀ args : string,
    append_atempo_stages float_str tempos (Some args)
    = Some (args ++ atempo_chain float_str tempos)%string.
Proof.
  unfold append_atempo_stages.
  induction tempos as [|t tempos IH]; intros args; simpl.
  - f_equal. induction args as [|x args IHa]; [reflexivity |].
    rewrite PyStrFacts.append_cons. now rewrite <- IHa.
  - rewrite IH. f_equal. now rewrite !append_assoc.
Qed.

End TempoFacts.

(** The list [tempos] of lines 656-667: for every tempo factor [t > 0]
    it exists (the loop ends); below one half it is a chain of stages
    [0.5] followed by one residual stage of at least [0.5], otherwise it
    is the single stage [t]; and the product of all stages is [t]. *)
Lemma atempo_values_compose (t : Q) :
  (0 < t)%Q →
  ∃ tempos : list Q,
    atempo_values t = Some tempos
    ∧ (Qproduct tempos == t)%Q
    ∧ ((t < half)%Q →
       ∃ (k : nat) (residual : Q),
         tempos = (replicate (S k) half ++ [residual])%list
         ∧ (half <= residual)%Q)
    ∧ ((half <= t)%Q → tempos = [t]).
Proof.
  intros Hpos. unfold atempo_values.
  destruct (Qltb t half) eqn:Hb.
  - apply Qltb_true in Hb.
    destruct (atempo_loop_spec (atempo_fuel t) t [half] Hb (atempo_fuel_enough t Hpos))
      as (k & residual & Heq & Hge & Hprod).
    exists ([half] ++ replicate k half ++ [residual])%list.
    split; [exact Heq |]. split; [| split].
    + simpl. rewrite <- Hprod. ring.
    + intros _. exists k, residual. split; [reflexivity | assumption].
    + intros Hle. exfalso. eapply Qlt_not_le; eassumption.
  - apply Qltb_false in Hb. exists [t]. split; [reflexivity |].
    split; [simpl; ring |]. split; [| reflexivity].
    intros Hlt. exfalso. eapply Qlt_not_le; eassumption.
Qed.

(** C2: for every tempo factor [t > 0]
    [add_atempo_values_to_ffmpeg_args_string] returns (the loop ends),
    and what it returns is the argument string it was given, or
    [-af] when it was given none, with one [atempo=] stage appended for
    every element of a stage list [first :: rest], in that order. Below
    one half the list is a chain of stages [0.5] followed by one
    residual stage of at least [0.5], otherwise it is the single stage
    [t]; and the product of all stages is [t]. *)
Theorem atempo_stages_compose (float_str : Q → string) (t : Q)
    (ffmpeg_args_string : option string) :
  (0 < t)%Q →
  ∃ (first : Q) (rest : list Q),
    add_atempo_values_to_ffmpeg_args_string float_str t ffmpeg_args_string
    = Some (Some match ffmpeg_args_string with
                 | None =>
                     "-af atempo=" ++ float_str first ++ atempo_chain float_str rest
                 | Some args => args ++ atempo_chain float_str (first :: rest)
                 end)
    ∧ (Qproduct (first :: rest) == t)%Q
    ∧ ((t < half)%Q →
       ∃ (k : nat) (residual : Q),
         first :: rest = (replicate (S k) half ++ [residual])%list
         ∧ (half <= residual)%Q)
    ∧ ((half <= t)%Q → first = t ∧ rest = []).
Proof.
  intros Hpos.
  destruct (atempo_values_compose t Hpos) as (tempos & Hv & Hprod & Hlow & Hhigh).
  assert (Hne : tempos ≠ []).
  { destruct (Qlt_le_dec t half) as [Hlt|Hle].
    - destruct (Hlow Hlt) as (k & residual & -> & _). discriminate.
    - rewrite (Hhigh Hle). discriminate. }
  destruct tempos as [|first rest]; [congruence |].
  exists first, rest. split; [| split; [exact Hprod | split; [exact Hlow |]]].
  - unfold add_atempo_values_to_ffmpeg_args_string. rewrite Hv.
    change (Some (append_atempo_stages float_str (first :: rest) ffmpeg_args_string)
            = Some (Some match ffmpeg_args_string with
                         | None =>
                             "-af atempo=" ++ float_str first
                             ++ atempo_chain float_str rest
                         | Some args => args ++ atempo_chain float_str (first :: rest)
                         end)).
    f_equal. destruct ffmpeg_args_string as [args|].
    + apply append_atempo_stages_some.
    + change (append_atempo_stages float_str (first :: rest) None)
        with (append_atempo_stages float_str rest
                (Some ("-af atempo=" ++ float_str first))).
      rewrite append_atempo_stages_some. now rewrite append_assoc.
  - intros Hle. specialize (Hhigh Hle). now injection Hhigh as -> ->.
Qed.

Lemma atempo_stages_compose_witness :
  ∃ (first : Q) (rest : list Q),
    add_atempo_values_to_ffmpeg_args_string (λ _, "0.5") (1 # 4)%Q None
    = Some (Some ("-af atempo=" ++ "0.5" ++ atempo_chain (λ _, "0.5") rest))
    ∧ (Qproduct (first :: rest) == 1 # 4)%Q
    ∧ ((1 # 4 < half)%Q →
       ∃ (k : nat) (residual : Q),
         first :: rest = (replicate (S k) half ++ [residual])%list
         ∧ (half <= residual)%Q)
    ∧ ((half <= 1 # 4)%Q → first = (1 # 4)%Q ∧ rest = []).
Proof.
  apply (atempo_stages_compose (λ _, "0.5") (1 # 4)%Q None). reflexivity.
Defined.

Example atempo_one_tenth :
  atempo_values (1 # 10)%Q
  = Some [half; half; half; ((1 # 10) / half / half / half)%Q].
Proof. reflexivity. Qed.

Example atempo_half_speed : atempo_values (50 # 100)%Q = Some [(50 # 100)%Q].
Proof. reflexivity. Qed.

(** ** Combining audio segments *)

Section AudioFacts.
Context {frame : Type}.
Variable mix : frame → frame → frame.
Variable silence : frame.

Local Open Scope list_scope.

(** pydub's overlay without the bookkeeping of its loop. *)
Lemma pydub_overlay_eq (seg1 seg2 : list frame) (p : nat) :
  pydub_overlay mix seg1 seg2 (Z.of_nat p)
  = take p seg1 ++ zip_with mix (drop p seg1) seg2 ++ drop (p + length seg2) seg1.
Proof.
  unfold pydub_overlay. rewrite Nat2Z.id. f_equal.
  destruct (Nat.leb_spec (length (drop p seg1)) (length seg2)) as [Hle|Hgt].
  - rewrite length_take, Nat.min_l by assumption.
    rewrite (take_ge (drop p seg1)) by reflexivity.
    rewrite (drop_ge (drop p seg1)) by reflexivity.
    rewrite zip_with_take_r.
    rewrite length_drop in Hle. rewrite (drop_ge seg1 (p + length seg2)) by lia. reflexivity.
  - rewrite zip_with_take_l, drop_drop. reflexivity.
Qed.

(** The overlay of [b] on [a], [d] milliseconds before the end of [a]. *)
Lemma overlay_eq (a b : list frame) (d : nat) :
  overlay mix a b (- Z.of_nat d)
  = take (length a - d) a
    ++ zip_with mix (drop (length a - d) a) b
    ++ drop (length a - d + length b) a
    ++ drop d b.
Proof.
  unfold overlay.
  rewrite Z.abs_opp, Z.abs_eq by lia.
  replace (Z.max 0 (Z.of_nat (length a) - Z.of_nat d))
    with (Z.of_nat (length a - d)) by lia.
  rewrite pydub_overlay_eq, Nat2Z.id.
  destruct (Z.ltb_spec (Z.of_nat d) (Z.of_nat (length b))) as [Hlt|Hge].
  - now rewrite <- !app_assoc.
  - rewrite (drop_ge b) by lia. now rewrite !app_nil_r.
Qed.

(** C6: an overlay of [0 < d <= len(a)] milliseconds keeps the first
    [len(a) - d] milliseconds of [a] as they are, adds the first [d]
    milliseconds of [b] on top of [a] from there on, and appends what
    [b] has beyond [d] unmixed. *)
Theorem overlay_keeps_prefix (a b : list frame) (d : nat) :
  (0 < d ≤ length a)%nat →
  ∃ out,
    combine_audio mix silence (Some a) (Some b) (- Z.of_nat d) = Some out
    ∧ take (length a - d) out = take (length a - d) a
    ∧ out = take (length a - d) a
            ++ zip_with mix (drop (length a - d) a) (take d b)
            ++ drop (length a - d + min d (length b)) a
            ++ drop d b
    ∧ length out = (length a + (length b - d))%nat.
Proof.
  intros [Hpos Hle].
  exists (overlay mix a b (- Z.of_nat d)). split.
  { unfold combine_audio.
    destruct (Z.ltb_spec (- Z.of_nat d) 0); [reflexivity | lia]. }
  rewrite overlay_eq.
  assert (Hmix : zip_with mix (drop (length a - d) a) (take d b)
                 = zip_with mix (drop (length a - d) a) b).
  { apply zip_with_take_r'. rewrite length_drop. lia. }
  assert (Htail : drop (length a - d + min d (length b)) a
                  = drop (length a - d + length b) a).
  { destruct (Nat.le_gt_cases (length b) d).
    - now rewrite Nat.min_r.
    - rewrite !drop_ge by lia. reflexivity. }
  split; [| split].
  - rewrite take_app_le by (rewrite length_take; lia).
    rewrite take_take. f_equal. lia.
  - now rewrite Hmix, Htail.
  - rewrite !length_app, length_take, length_zip_with, !length_drop. lia.
Qed.

(** C10: an overlay of [d > len(a)] milliseconds is as long as [a]
    plus what [b] has beyond [d]; [b] is added on top of [a] from
    position [0] and cut at the end of [a]; the frames of [b] from
    [len(a)] up to [d] are in no way part of the result: any [b'] with
    the same first [len(a)] frames and the same frames from [d] on
    gives the same result. *)
Theorem overlay_longer_than_first (a b : list frame) (d : nat) :
  (length a < d)%nat →
  ∃ out,
    combine_audio mix silence (Some a) (Some b) (- Z.of_nat d) = Some out
    ∧ length out = (length a + (length b - d))%nat
    ∧ out = zip_with mix a (take (length a) b)
            ++ drop (length b) a
            ++ drop d b
    ∧ ∀ b', take (length a) b' = take (length a) b → drop d b' = drop d b →
            combine_audio mix silence (Some a) (Some b') (- Z.of_nat d) = Some out.
Proof.
  intros Hlt.
  assert (Hcomb : ∀ c, combine_audio mix silence (Some a) (Some c) (- Z.of_nat d)
                       = Some (zip_with mix a (take (length a) c)
                               ++ drop (length c) a ++ drop d c)).
  { intros c. unfold combine_audio.
    destruct (Z.ltb_spec (- Z.of_nat d) 0); [| lia].
    rewrite overlay_eq. replace (length a - d)%nat with 0%nat by lia.
    rewrite take_0, drop_0, zip_with_take_r. reflexivity. }
  eexists. split; [apply Hcomb |]. split; [| split; [reflexivity |]].
  - rewrite !length_app, length_zip_with, length_take, !length_drop. lia.
  - intros b' Htake Hdrop. rewrite Hcomb, Htake, Hdrop. do 3 f_equal.
    assert (Hlen : (length (take (length a) b') = length (take (length a) b))%nat)
      by now rewrite Htake.
    rewrite !length_take in Hlen.
    destruct (Nat.le_gt_cases (length a) (length b)),
             (Nat.le_gt_cases (length a) (length b')); try lia.
    + rewrite !drop_ge by lia. reflexivity.
    + f_equal. lia.
Qed.

End AudioFacts.

Lemma overlay_keeps_prefix_witness :
  ∃ out,
    combine_audio Z.add 0%Z (Some [1; 2; 3; 4]%Z) (Some [10; 20; 30]%Z) (-2) = Some out
    ∧ take 2 out = [1; 2]%Z
    ∧ out = [1; 2; 13; 24; 30]%Z
    ∧ length out = 5%nat.
Proof.
  apply (overlay_keeps_prefix Z.add 0%Z [1; 2; 3; 4]%Z [10; 20; 30]%Z 2).
  simpl. lia.
Defined.

Lemma overlay_longer_than_first_witness :
  ∃ out,
    combine_audio Z.add 0%Z (Some [1; 2]%Z) (Some [10; 20; 30; 40; 50]%Z) (-4) = Some out
    ∧ length out = 3%nat
    ∧ out = [11; 22; 50]%Z
    ∧ ∀ b', take 2 b' = [10; 20]%Z → drop 4 b' = [50]%Z →
            combine_audio Z.add 0%Z (Some [1; 2]%Z) (Some b') (-4) = Some out.
Proof.
  apply (overlay_longer_than_first Z.add 0%Z [1; 2]%Z [10; 20; 30; 40; 50]%Z 4).
  simpl. lia.
Defined.

(** ** Combining segments, frame by frame *)

Section PydubFacts.
Context {frame : Type}.
Variable to_channels : positive → Pydub.AudioSegment frame → result (list frame).
Variable to_frame_rate : positive → Pydub.AudioSegment frame → result (list frame).
Variable to_sample_width : positive → Pydub.AudioSegment frame → result (list frame).
Variable pydub_overlay : Pydub.AudioSegment frame → Pydub.AudioSegment frame → Z
                         → result (Pydub.AudioSegment frame).
Variable slice_from : Pydub.AudioSegment frame → Z → result (Pydub.AudioSegment frame).
Variable silence : frame.

Local Open Scope list_scope.

(** A conversion to the format that a segment has returns the segment. *)
Lemma to_format_same (seg : Pydub.AudioSegment frame) :
  Pydub.to_format to_channels to_frame_rate to_sample_width
    (Pydub.channels seg) (Pydub.frame_rate seg) (Pydub.sample_width seg) seg
  = Return seg.
Proof.
  unfold Pydub.to_format, Pydub.set_channels. rewrite Pos.eqb_refl. simpl.
  unfold Pydub.set_frame_rate. rewrite Pos.eqb_refl. simpl.
  unfold Pydub.set_sample_width. now rewrite Pos.eqb_refl.
Qed.

(** A conversion that returns, returns a segment of the format asked for. *)
Lemma to_format_format (c r w : positive) (seg out : Pydub.AudioSegment frame) :
  Pydub.to_format to_channels to_frame_rate to_sample_width c r w seg = Return out →
  Pydub.channels out = c ∧ Pydub.frame_rate out = r ∧ Pydub.sample_width out = w.
Proof.
  unfold Pydub.to_format, Pydub.set_channels.
  destruct (Pos.eqb_spec c (Pydub.channels seg)) as [Hc|_].
  - simpl. unfold Pydub.set_frame_rate.
    destruct (Pos.eqb_spec r (Pydub.frame_rate seg)) as [Hr|_].
    + simpl. unfold Pydub.set_sample_width.
      destruct (Pos.eqb_spec w (Pydub.sample_width seg)) as [Hw|_].
      * intros [= <-]. auto.
      * destruct (to_sample_width w seg); simpl; [| discriminate].
        intros [= <-]. auto.
    + destruct (to_frame_rate r seg) as [data|]; simpl; [| discriminate].
      unfold Pydub.set_sample_width. simpl.
      destruct (Pos.eqb_spec w (Pydub.sample_width seg)) as [Hw|_].
      * intros [= <-]. auto.
      * destruct (to_sample_width w _); simpl; [| discriminate].
        intros [= <-]. auto.
  - destruct (to_channels c seg) as [data|]; simpl; [| discriminate].
    unfold Pydub.set_frame_rate. simpl.
    destruct (Pos.eqb_spec r (Pydub.frame_rate seg)) as [Hr|_].
    + simpl. unfold Pydub.set_sample_width. simpl.
      destruct (Pos.eqb_spec w (Pydub.sample_width seg)) as [Hw|_].
      * intros [= <-]. auto.
      * destruct (to_sample_width w _); simpl; [| discriminate].
        intros [= <-]. auto.
    + destruct (to_frame_rate r _) as [data'|]; simpl; [| discriminate].
      unfold Pydub.set_sample_width. simpl.
      destruct (Pos.eqb_spec w (Pydub.sample_width seg)) as [Hw|_].
      * intros [= <-]. auto.
      * destruct (to_sample_width w _); simpl; [| discriminate].
        intros [= <-]. auto.
Qed.

(** Two segments of one format are put one after the other as they are. *)
Lemma add_same_format (a b : Pydub.AudioSegment frame) :
  Pydub.channels a = Pydub.channels b →
  Pydub.frame_rate a = Pydub.frame_rate b →
  Pydub.sample_width a = Pydub.sample_width b →
  Pydub.add to_channels to_frame_rate to_sample_width a b
  = Return {| Pydub.channels := Pydub.channels a;
              Pydub.sample_width := Pydub.sample_width a;
              Pydub.frame_rate := Pydub.frame_rate a;
              Pydub.frames := Pydub.frames a ++ Pydub.frames b |}.
Proof.
  destruct a as [ca wa ra fa], b as [cb wb rb fb]. simpl.
  intros <- <- <-. unfold Pydub.add. simpl. rewrite !Pos.max_id.
  unfold Pydub.to_format, Pydub.set_channels, Pydub.set_frame_rate,
    Pydub.set_sample_width, and_then. simpl. now rewrite !Pos.eqb_refl.
Qed.

(** A segment of a smaller format is converted to the format of the
    other one before the two are put together. *)
Lemma add_converted (gap gap' b : Pydub.AudioSegment frame) :
  (Pydub.channels gap ≤ Pydub.channels b)%positive →
  (Pydub.frame_rate gap ≤ Pydub.frame_rate b)%positive →
  (Pydub.sample_width gap ≤ Pydub.sample_width b)%positive →
  Pydub.to_format to_channels to_frame_rate to_sample_width
    (Pydub.channels b) (Pydub.frame_rate b) (Pydub.sample_width b) gap
  = Return gap' →
  Pydub.add to_channels to_frame_rate to_sample_width gap b
  = Return {| Pydub.channels := Pydub.channels b;
              Pydub.sample_width := Pydub.sample_width b;
              Pydub.frame_rate := Pydub.frame_rate b;
              Pydub.frames := Pydub.frames gap' ++ Pydub.frames b |}.
Proof.
  intros Hc Hr Hw Hconv. unfold Pydub.add.
  rewrite !Pos.max_r by assumption. rewrite Hconv. simpl.
  rewrite to_format_same. simpl.
  destruct (to_format_format _ _ _ _ _ Hconv) as (Hc' & Hr' & Hw').
  now rewrite Hc', Hr', Hw'.
Qed.

(** Two segments of one format with a delay between them: the frames of
    the first, the frames of the delay, the frames of the second. *)
Lemma combine_frames_delay (a b : Pydub.AudioSegment frame) (offset : Z)
    (gap_frames : list frame) :
  Pydub.channels a = Pydub.channels b →
  Pydub.frame_rate a = Pydub.frame_rate b →
  Pydub.sample_width a = Pydub.sample_width b →
  (2 ≤ Pydub.sample_width a)%positive →
  (11025 ≤ Pydub.frame_rate a)%positive →
  Pydub.delay_frames to_channels to_frame_rate to_sample_width silence
    (Pydub.channels a) (Pydub.frame_rate a) (Pydub.sample_width a)
    offset gap_frames →
  Pydub.combine_audio to_channels to_frame_rate to_sample_width pydub_overlay
    slice_from silence (Some a) (Some b) offset
  = Return (Some {| Pydub.channels := Pydub.channels a;
                    Pydub.sample_width := Pydub.sample_width a;
                    Pydub.frame_rate := Pydub.frame_rate a;
                    Pydub.frames := Pydub.frames a ++ gap_frames ++ Pydub.frames b |}).
Proof.
  intros Hc Hr Hw Hwidth Hrate Hgap. unfold Pydub.combine_audio.
  rewrite add_same_format by assumption. unfold and_then at 1.
  destruct Hgap as [[-> ->]|(Hpos & gap & gap' & Hsilent & Hconv & <-)].
  - reflexivity.
  - destruct (Z.ltb_spec offset 0) as [|_]; [lia |].
    destruct (Z.ltb_spec 0 offset) as [_|]; [| lia].
    rewrite Hsilent. unfold and_then at 1.
    assert (Hfmt : Pydub.channels gap = 1%positive
                   ∧ Pydub.frame_rate gap = 11025%positive
                   ∧ Pydub.sample_width gap = 2%positive).
    { unfold Pydub.silent in Hsilent.
      destruct (Pydub.silent_frame_count offset); simpl in Hsilent;
        [| discriminate].
      injection Hsilent as <-. auto. }
    destruct Hfmt as (Hgc & Hgr & Hgw).
    rewrite (add_converted gap gap' b).
    + unfold and_then at 1. rewrite add_same_format by (simpl; congruence).
      simpl. now rewrite Hc, Hr, Hw.
    + rewrite Hgc. apply Pos.le_1_l.
    + rewrite Hgr, <- Hr. exact Hrate.
    + rewrite Hgw, <- Hw. exact Hwidth.
    + rewrite <- Hc, <- Hr, <- Hw. exact Hconv.
Qed.

End PydubFacts.




(** The lengths of the example: two half seconds of 5512 frames at
    11025 Hz and 500 milliseconds of silence between them make 16536
    frames, and [len] is 1500. *)
Example combined_half_seconds :
  Pydub.len half_second = Return 500%Z
  ∧ Pydub.milliseconds 11025 (Z.to_nat 16536) = Return 1500%Z.
Proof. split; vm_compute; reflexivity. Qed.

(** ** Playback sync waiters *)

Section WaiterFacts.
Local Open Scope Q_scope.

Lemma Qnat_succ (n : nat) : Qnat (S n) == Qnat n + 1.
Proof.
  unfold Qnat. rewrite Nat2Z.inj_succ, <- Z.add_1_r, inject_Z_plus. reflexivity.
Qed.

Lemma poll_delay_pos : 0 < poll_delay.
Proof. reflexivity. Qed.

(** The rounds granted by [max_rounds] cover the time-out. *)
Lemma max_rounds_covers (timeout : Q) :
  timeout <= Qnat (max_rounds timeout) * poll_delay.
Proof.
  unfold max_rounds, Qnat.
  pose proof (Qle_ceiling (timeout / poll_delay)) as Hc.
  set (c := Qceiling (timeout / poll_delay)) in *.
  assert (Hz : inject_Z c <= inject_Z (Z.of_nat (Z.to_nat c))).
  { rewrite <- Zle_Qle. lia. }
  assert (Ht : timeout == timeout / poll_delay * poll_delay)
    by (unfold poll_delay; field).
  rewrite Ht at 1. apply Qmult_le_compat_r; [| apply Qlt_le_weak, poll_delay_pos].
  eapply Qle_trans; eassumption.
Qed.

Section Shared.
Context {device : Type} `{EqDecision device}.

Lemma length_remove_first (x : device) (l : list device) :
  (length (remove_first x l) ≤ length l)%nat.
Proof.
  induction l as [|y l IH]; simpl; [lia |].
  destruct (decide (y = x)); simpl; lia.
Qed.

(** The reads granted to [poll] are enough for the iterator to reach
    the end of the list: more reads change nothing. *)
Lemma poll_from_enough (condition : device → bool) (steps : nat) :
  ∀ (i : nat) (l : list device) (extra : nat),
    (length l ≤ i + steps)%nat →
    poll_from (steps + extra) condition i l = poll_from steps condition i l.
Proof.
  induction steps as [|steps IH]; intros i l extra Hlen.
  - assert (Hnone : l !! i = None) by (apply lookup_ge_None; lia).
    destruct extra; simpl; [reflexivity | now rewrite Hnone].
  - simpl. destruct (l !! i) as [d|]; [| reflexivity].
    apply IH. destruct (condition d); [| lia].
    pose proof (length_remove_first d l). lia.
Qed.

(** With a budget that [fuel] rounds use up, the loop ends: every
    round takes [poll_delay] off the budget, and at the end no device
    is waited for or the budget is spent. *)
Lemma wait_loop_spec (condition : nat → device → bool) (fuel : nat) :
  ∀ st : wait_state device,
    budget st <= Qnat fuel * poll_delay →
    ∃ st',
      wait_loop fuel condition st = Some st'
      ∧ (rounds st ≤ rounds st' ≤ rounds st + fuel)%nat
      ∧ budget st' + Qnat (rounds st') * poll_delay
        == budget st + Qnat (rounds st) * poll_delay
      ∧ (still_waiting st' = [] ∨ budget st' <= 0).
Proof.
  induction fuel as [|fuel IH]; intros st Hb.
  - assert (Hz : budget st <= 0).
    { change (Qnat 0) with 0 in Hb. lra. }
    apply Qltb_false in Hz as Hf.
    exists st. simpl. rewrite Hf, andb_false_r.
    split; [reflexivity |]. split; [lia |]. split; [reflexivity | now right].
  - simpl wait_loop.
    destruct ((0 <? length (still_waiting st))%nat && Qltb 0 (budget st)) eqn:Hc.
    + set (st1 := {| rounds := S (rounds st);
                     budget := budget st - poll_delay;
                     still_waiting := poll (condition (rounds st)) (still_waiting st);
                     sleeps := _ |}).
      destruct (IH st1) as (st' & Heq & Hr & Hbud & Hend).
      { simpl. rewrite Qnat_succ in Hb. lra. }
      exists st'. split; [exact Heq |]. simpl in Hr, Hbud.
      split; [lia |]. split; [| exact Hend].
      rewrite Hbud, Qnat_succ. ring.
    + exists st. split; [reflexivity |]. split; [lia |].
      split; [reflexivity |].
      apply andb_false_iff in Hc as [Hl|Hq].
      * left. apply Nat.ltb_ge in Hl. destruct (still_waiting st); [reflexivity |].
        simpl in Hl. lia.
      * right. now apply Qltb_false.
Qed.

End Shared.

Section Volume.
Context {device : Type}.
Variable volume : nat → device → option Q.

(** The volume waiter ends as well; it takes [poll_delay] off the
    budget in every round that did not find the target volume. It
    returns [True] from a round that found every known device at the
    target, and [False] with the budget spent after rounds that all
    found some device off the target. *)
Lemma volume_wait_loop_spec (target : Q) (fuel : nat) :
  ∀ st : wait_state device,
    budget st <= Qnat fuel * poll_delay →
    ∃ (result : bool) (st' : wait_state device),
      volume_wait_loop volume fuel target st = Some (result, st')
      ∧ (rounds st ≤ rounds st' ≤ rounds st + fuel)%nat
      ∧ budget st' + Qnat (sleeps st') * poll_delay
        == budget st + Qnat (sleeps st) * poll_delay
      ∧ (if result
         then all_at_target volume (Nat.pred (rounds st')) (still_waiting st) target
              = true
         else budget st' <= 0
              ∧ ∀ n, (rounds st ≤ n < rounds st')%nat →
                     all_at_target volume n (still_waiting st) target = false).
Proof.
  induction fuel as [|fuel IH]; intros st Hb.
  - assert (Hz : budget st <= 0).
    { change (Qnat 0) with 0 in Hb. lra. }
    apply Qltb_false in Hz as Hf.
    exists false, st. simpl. rewrite Hf.
    split; [reflexivity |]. split; [lia |]. split; [reflexivity |].
    split; [assumption | intros n Hn; lia].
  - simpl volume_wait_loop.
    destruct (Qltb 0 (budget st)) eqn:Hq.
    + destruct (all_at_target volume (rounds st) (still_waiting st) target) eqn:Hall.
      * eexists true, _. split; [reflexivity |]. simpl.
        split; [lia |]. split; [reflexivity | exact Hall].
      * set (st1 := {| rounds := S (rounds st);
                       budget := budget st - poll_delay;
                       still_waiting := still_waiting st;
                       sleeps := S (sleeps st) |}).
        destruct (IH st1) as (result & st' & Heq & Hr & Hbud & Hres).
        { simpl. rewrite Qnat_succ in Hb. lra. }
        exists result, st'. split; [exact Heq |]. simpl in Hr, Hbud, Hres.
        split; [lia |]. split; [rewrite Hbud, Qnat_succ; ring |].
        destruct result; [exact Hres |].
        destruct Hres as [Hspent Hnever]. split; [exact Hspent |].
        intros n Hn. destruct (decide (n = rounds st)) as [->|Hne];
          [exact Hall | apply Hnever; lia].
    + exists false, st. split; [reflexivity |]. split; [lia |].
      split; [reflexivity |]. split; [now apply Qltb_false | intros n Hn; lia].
Qed.

End Volume.

End WaiterFacts.

(** For the empty device list the shared waiter returns [False] before
    its loop, although no device is pending. *)
Example waiter_empty_list_returns_false :
  _async_wait_until_media_players (λ _ : string, true) [] (λ _ _, true) 1%Q
  = Some (false, {| rounds := 0; budget := 1%Q; still_waiting := []; sleeps := 0 |}).
Proof. reflexivity. Qed.

(** With the budget counted in exact rationals both waiters end after
    at most [ceil(timeout / poll_interval)] rounds, and each round that
    goes on takes the poll interval off the budget. *)
Lemma exact_waiters_terminate {device : Type} `{EqDecision device}
    (resolves : device → bool) (condition : nat → device → bool)
    (volume : nat → device → option Q)
    (media_player_dicts : list device) (target_volume timeout : Q) :
  (0 < timeout)%Q → media_player_dicts ≠ [] →
  (∃ (result : bool) (st : wait_state device),
     _async_wait_until_media_players resolves media_player_dicts condition timeout
       = Some (result, st)
     ∧ (rounds st ≤ max_rounds timeout)%nat
     ∧ (budget st == timeout - Qnat (rounds st) * poll_delay)%Q
     ∧ (result = false ↔ still_waiting st ≠ []))
  ∧ (∃ (result : bool) (st : wait_state device),
       async_wait_until_media_player_volume_level volume media_player_dicts
         target_volume timeout = Some (result, st)
       ∧ (rounds st ≤ max_rounds timeout)%nat
       ∧ (budget st == timeout - Qnat (sleeps st) * poll_delay)%Q
       ∧ (if result
          then all_at_target volume (Nat.pred (rounds st)) media_player_dicts
                 target_volume = true
          else (budget st <= 0)%Q
               ∧ ∀ n, (n < rounds st)%nat →
                      all_at_target volume n media_player_dicts target_volume
                      = false)).
Proof.
  intros Hpos Hne. split.
  - unfold _async_wait_until_media_players.
    set (start := {| rounds := 0; budget := timeout;
                     still_waiting := media_player_dicts; sleeps := 0 |}).
    destruct media_player_dicts as [|d l] eqn:Hd; [congruence |].
    rewrite <- Hd in *. assert (Hlen : (length media_player_dicts =? 0)%nat = false)
      by (rewrite Hd; reflexivity).
    rewrite Hlen.
    destruct (forallb resolves media_player_dicts); simpl.
    + destruct (wait_loop_spec condition (max_rounds timeout) start
                  (max_rounds_covers timeout))
        as (st & Heq & Hr & Hbud & _).
      rewrite Heq. simpl. exists (length (still_waiting st) =? 0)%nat, st.
      split; [reflexivity |]. simpl in Hr, Hbud.
      split; [lia |]. split.
      * change (Qnat 0) with 0%Q in Hbud. lra.
      * destruct (still_waiting st); simpl; split; congruence.
    + exists false, start. split; [reflexivity |]. simpl.
      split; [lia |]. split.
      * change (Qnat 0) with 0%Q. ring.
      * split; congruence.
  - unfold async_wait_until_media_player_volume_level.
    set (start := {| rounds := 0; budget := timeout;
                     still_waiting := media_player_dicts; sleeps := 0 |}).
    destruct (volume_wait_loop_spec volume target_volume (max_rounds timeout) start
                (max_rounds_covers timeout))
      as (result & st & Heq & Hr & Hbud & Hres).
    exists result, st. split; [exact Heq |]. simpl in Hr, Hbud.
    split; [lia |]. split.
    + change (Qnat 0) with 0%Q in Hbud. lra.
    + destruct result; [exact Hres |]. destruct Hres as [Hspent Hnever].
      split; [exact Hspent |]. intros n Hn. apply Hnever. simpl. lia.
Qed.

Example waiter_never_satisfied :
  _async_wait_until_media_players (λ _ : string, true)
    ["media_player.kitchen"] (λ _ _, false) 1%Q
  = Some (false, {| rounds := 5; budget := (1 - poll_delay - poll_delay - poll_delay
                                             - poll_delay - poll_delay)%Q;
                    still_waiting := ["media_player.kitchen"]; sleeps := 5 |}).
Proof. reflexivity. Qed.

(** Deleting from the list while iterating over it skips the device
    behind a deleted one until the next round. *)
Example poll_skips_after_delete :
  poll (λ _ : string, true) ["a"; "b"; "c"] = ["b"].
Proof. reflexivity. Qed.

(** ** Volume fade controller *)

(** A fade in one step leaves a player alone that is at its target. *)
Example direct_set_skips_player_at_target :
  async_set_volume_for_media_players 500%Q steady_hass (Level (5 # 10)%Q) 500%Q
    {| dicts := [kitchen]; events := [] |}
  = (Return tt, {| dicts := [kitchen]; events := [] |}).
Proof. reflexivity. Qed.

(** C7: a fade of more than one step does not leave a player alone that
    is at its target. The player is skipped in step [0] only; in step [1]
    the fader reads [volume_steps], which step [0] did not store, and
    raises [KeyError]. When an earlier fade left [volume_steps] in the
    dictionary, the fader sends these stale levels instead: two
    [volume_set] calls, the first of them to [0.2], for a player that
    was at its target [0.5]. *)
Theorem fade_at_target_raises :
  fst (async_set_volume_for_media_players 500%Q steady_hass (Level (5 # 10)%Q) 1000%Q
         {| dicts := [kitchen]; events := [] |})
  = Raise (KeyError "volume_steps")
  ∧ events (snd (async_set_volume_for_media_players 500%Q steady_hass
                   (Level (5 # 10)%Q) 1500%Q
                   {| dicts := [kitchen_after_fade]; events := [] |}))
    = [Sleep (1500 # 3000)%Q;
       VolumeSet "media_player.kitchen" (2000 # 10000)%Q;
       Sleep (1500 # 3000)%Q;
       VolumeSet "media_player.kitchen" (5000 # 10000)%Q].
Proof. split; vm_compute; reflexivity. Qed.

(** ** Segment parser *)

Section ParserFacts.
Variable QUOTE_CHAR_SUBSTITUTE : string.
Variable safe_load : string → result yaml.

Lemma contains_keys_true (message_string : string) :
  contains_keys message_string = true.
Proof. reflexivity. Qed.

(** A long-form [tts] segment comes out of [parse_message] with the
    message that [yaml.safe_load] gave it: no replacement runs on it. *)
Lemma long_form_message_unchanged (raw message : string) :
  remove_niqqud raw ≠ "" → remove_niqqud raw ≠ "None" →
  safe_load (escape_quotes QUOTE_CHAR_SUBSTITUTE (remove_niqqud raw))
    = Return (YList [YDict [("type", YStr "tts"); ("message", YStr message)]]) →
  parse_message QUOTE_CHAR_SUBSTITUTE safe_load raw
    = Return [[("type", YStr "tts"); ("message", YStr message)]].
Proof.
  intros He Hn Hload. unfold parse_message.
  apply String.eqb_neq in He, Hn. rewrite He, Hn. simpl orb. cbv iota.
  rewrite contains_keys_true. unfold convert_yaml_str. rewrite He, Hload.
  reflexivity.
Qed.

End ParserFacts.

(** C9: the quote substitute is restored in the short form and left in
    place in the long form. Both inputs write the message [Don\'t]; after
    [parse_message] the short form holds a quote and the long form still
    holds the substitute. *)
Theorem long_form_keeps_quote_substitute :
  parse_message example_substitute example_safe_load
    "[{'tts': 'Don\'t'}]"
  = Return [[("type", YStr "tts"); ("message", YStr "Don't")]]
  ∧ parse_message example_substitute example_safe_load
      "[{'type': 'tts', 'message': 'Don\'t'}]"
    = Return [[("type", YStr "tts"); ("message", YStr "Don<quote>t")]].
Proof.
  split; [reflexivity |].
  apply long_form_message_unchanged; [discriminate | discriminate | reflexivity].
Qed.

(** ** More on the playback sync waiters *)

Section PollFacts.
Context {device : Type} `{EqDecision device}.

Lemma elem_of_remove_first (x d : device) (l : list device) :
  d ∈ l → d ∈ remove_first x l ∨ d = x.
Proof.
  induction l as [|y l IH]; intros Hd; [now apply elem_of_nil in Hd |].
  simpl. destruct (decide (y = x)) as [->|Hne].
  - apply elem_of_cons in Hd as [->|Hd]; [now right | now left].
  - apply elem_of_cons in Hd as [->|Hd]; [left; apply elem_of_cons; now left |].
    destruct (IH Hd) as [Hin| ->]; [left; apply elem_of_cons; now right | now right].
Qed.

Lemma length_remove_first_elem (x : device) (l : list device) :
  x ∈ l → S (length (remove_first x l)) = length l.
Proof.
  induction l as [|y l IH]; intros Hx; [now apply elem_of_nil in Hx |].
  simpl. destruct (decide (y = x)) as [->|Hne]; [reflexivity |].
  apply elem_of_cons in Hx as [->|Hx]; [congruence |].
  simpl. now rewrite IH.
Qed.

(** A device that a poll takes off the list satisfied the predicate. *)
Lemma poll_from_keeps_or_satisfied (condition : device → bool) (steps : nat) :
  ∀ (i : nat) (l : list device) (d : device),
    d ∈ l → d ∈ poll_from steps condition i l ∨ condition d = true.
Proof.
  induction steps as [|steps IH]; intros i l d Hd; [now left |].
  simpl. destruct (l !! i) as [x|]; [| now left].
  destruct (condition x) eqn:Hx; [| now apply IH].
  destruct (elem_of_remove_first x d l Hd) as [Hin| ->]; [now apply IH | now right].
Qed.

(** A poll in which no device satisfies the predicate changes nothing. *)
Lemma poll_from_none_satisfied (condition : device → bool) (steps : nat) :
  ∀ (i : nat) (l : list device),
    (∀ d, d ∈ l → condition d = false) → poll_from steps condition i l = l.
Proof.
  induction steps as [|steps IH]; intros i l Hc; [reflexivity |].
  simpl. destruct (l !! i) as [x|] eqn:Hx; [| reflexivity].
  rewrite Hc by (eapply list_elem_of_lookup_2; eassumption). now apply IH.
Qed.

(** A poll in which every device satisfies the predicate deletes one
    device for every position it reads, and the deletion moves the next
    device under the position just read: half of the devices stay. *)
Lemma poll_from_all_satisfied (condition : device → bool) (steps : nat) :
  (∀ d, condition d = true) →
  ∀ (i : nat) (l : list device),
    (i ≤ S (length l))%nat → (length l - i ≤ steps)%nat →
    (2 * length (poll_from steps condition i l) ≤ length l + i
     ≤ 2 * length (poll_from steps condition i l) + 1)%nat.
Proof.
  intros Hall. induction steps as [|steps IH]; intros i l Hi Hfuel.
  - simpl. lia.
  - simpl. destruct (l !! i) as [x|] eqn:Hx.
    + rewrite Hall.
      assert (Hin : x ∈ l) by (eapply list_elem_of_lookup_2; eassumption).
      pose proof (length_remove_first_elem x l Hin) as Hlen.
      apply lookup_lt_Some in Hx.
      specialize (IH (S i) (remove_first x l)).
      replace (length (remove_first x l) + S i)%nat with (length l + i)%nat in IH by lia.
      apply IH; lia.
    + apply lookup_ge_None in Hx. lia.
Qed.

Lemma poll_all_satisfied (condition : device → bool) (l : list device) :
  (∀ d, condition d = true) →
  (2 * length (poll condition l) ≤ length l ≤ 2 * length (poll condition l) + 1)%nat.
Proof.
  intros Hall. unfold poll.
  pose proof (poll_from_all_satisfied condition (length l) Hall 0 l) as Hp.
  rewrite Nat.add_0_r in Hp. apply Hp; lia.
Qed.

Lemma max_rounds_pos (timeout : Q) : (0 < timeout)%Q → ∃ n, max_rounds timeout = S n.
Proof.
  intros Hpos. pose proof (max_rounds_covers timeout) as Hc.
  destruct (max_rounds timeout) as [|n]; [| now exists n].
  exfalso. change (Qnat 0) with 0%Q in Hc. lra.
Qed.

(** The shared loop keeps, for every device it started with, either the
    device in the list or a round in which it satisfied the predicate. *)
Lemma wait_loop_sound (condition : nat → device → bool) (devices : list device)
    (fuel : nat) :
  ∀ st st' : wait_state device,
    (∀ d, d ∈ devices →
          d ∈ still_waiting st ∨ ∃ n, (n < rounds st)%nat ∧ condition n d = true) →
    wait_loop fuel condition st = Some st' →
    ∀ d, d ∈ devices →
         d ∈ still_waiting st' ∨ ∃ n, (n < rounds st')%nat ∧ condition n d = true.
Proof.
  induction fuel as [|fuel IH]; intros st st' Hinv Hloop.
  - simpl in Hloop.
    destruct ((0 <? length (still_waiting st))%nat && Qltb 0 (budget st));
      [discriminate | now injection Hloop as <-].
  - simpl in Hloop.
    destruct ((0 <? length (still_waiting st))%nat && Qltb 0 (budget st));
      [| now injection Hloop as <-].
    eapply IH; [| exact Hloop]. simpl. intros d Hd.
    destruct (Hinv d Hd) as [Hin|(n & Hn & Hc)].
    + destruct (poll_from_keeps_or_satisfied (condition (rounds st))
                  (length (still_waiting st)) 0 (still_waiting st) d Hin)
        as [Hin'|Hc]; [now left |].
      right. exists (rounds st). split; [lia | exact Hc].
    + right. exists n. split; [lia | exact Hc].
Qed.

End PollFacts.

Section WaiterExtras.
Context {device : Type} `{EqDecision device}.

Lemma max_rounds_tight (timeout : Q) :
  (0 < timeout)%Q → (Qnat (max_rounds timeout) * poll_delay < timeout + poll_delay)%Q.
Proof.
  intros Hpos. unfold max_rounds, Qnat.
  pose proof (Qle_ceiling (timeout / poll_delay)) as Hle.
  pose proof (Qceiling_lt (timeout / poll_delay)) as Hlt.
  set (c := Qceiling (timeout / poll_delay)) in *.
  assert (Hx : (timeout / poll_delay * poll_delay == timeout)%Q)
    by (unfold poll_delay; field).
  assert (Hxpos : (0 < timeout / poll_delay)%Q).
  { apply Qlt_shift_div_l; [reflexivity | lra]. }
  assert (Hc : (0 < c)%Z).
  { rewrite Zlt_Qlt. change (inject_Z 0) with 0%Q.
    eapply Qlt_le_trans; eassumption. }
  rewrite Z2Nat.id by lia.
  assert (Hm : (inject_Z (c - 1) == inject_Z c - 1)%Q).
  { unfold Z.sub. rewrite inject_Z_plus. reflexivity. }
  rewrite Hm in Hlt. unfold poll_delay in *. lra.
Qed.

(** While no device satisfies the predicate, the loop runs for as many
    rounds as the budget pays for and sleeps after each of them. *)
Lemma wait_loop_never_satisfied (condition : nat → device → bool) (fuel : nat) :
  ∀ st : wait_state device,
    still_waiting st ≠ [] →
    (∀ n d, d ∈ still_waiting st → condition n d = false) →
    (budget st <= Qnat fuel * poll_delay)%Q →
    (fuel ≠ 0%nat → (Qnat fuel * poll_delay < budget st + poll_delay)%Q) →
    ∃ st',
      wait_loop fuel condition st = Some st'
      ∧ rounds st' = (rounds st + fuel)%nat
      ∧ sleeps st' = (sleeps st + fuel)%nat
      ∧ still_waiting st' = still_waiting st
      ∧ (budget st' == budget st - Qnat fuel * poll_delay)%Q.
Proof.
  induction fuel as [|fuel IH]; intros st Hne Hnever Hle Htight.
  - change (Qnat 0) with 0%Q in *.
    assert (Hf : Qltb 0 (budget st) = false) by (apply Qltb_false; lra).
    exists st. simpl. rewrite Hf, andb_false_r.
    repeat split; try lia. ring.
  - rewrite Qnat_succ in Hle, Htight.
    assert (Hpos : Qltb 0 (budget st) = true).
    { apply Qltb_true.
      assert (Hn : (0 <= Qnat fuel)%Q).
      { unfold Qnat. change 0%Q with (inject_Z 0). rewrite <- Zle_Qle. lia. }
      specialize (Htight ltac:(lia)). unfold poll_delay in *. nra. }
    assert (Hlen : (0 <? length (still_waiting st))%nat = true).
    { apply Nat.ltb_lt. destruct (still_waiting st); [congruence | simpl; lia]. }
    assert (Hpoll : poll (condition (rounds st)) (still_waiting st) = still_waiting st).
    { apply poll_from_none_satisfied. intros d Hd. now apply Hnever. }
    simpl wait_loop. rewrite Hlen, Hpos. simpl andb. cbv iota.
    rewrite Hpoll, Hlen.
    set (st1 := {| rounds := S (rounds st);
                   budget := (budget st - poll_delay)%Q;
                   still_waiting := still_waiting st;
                   sleeps := S (sleeps st) |}).
    destruct (IH st1) as (st' & Heq & Hr & Hs & Hw & Hb); simpl.
    + exact Hne.
    + exact Hnever.
    + lra.
    + intros Hf. specialize (Htight ltac:(lia)). lra.
    + exists st'. split; [exact Heq |]. simpl in Hr, Hs, Hw, Hb.
      repeat split; try lia; try assumption.
      rewrite Hb, Qnat_succ. ring.
Qed.

End WaiterExtras.

(** X1: a [True] from the shared waiter means that every device of the
    list satisfied the predicate in one of the rounds that were run. *)
Theorem waiter_true_means_all_satisfied {device : Type} `{EqDecision device}
    (resolves : device → bool) (condition : nat → device → bool)
    (media_player_dicts : list device) (timeout : Q) (st : wait_state device) :
  _async_wait_until_media_players resolves media_player_dicts condition timeout
    = Some (true, st) →
  ∀ d, d ∈ media_player_dicts →
       resolves d = true ∧ ∃ n, (n < rounds st)%nat ∧ condition n d = true.
Proof.
  unfold _async_wait_until_media_players. intros Hres d Hd.
  destruct (length media_player_dicts =? 0)%nat; [discriminate |].
  destruct (forallb resolves media_player_dicts) eqn:Hall; simpl in Hres;
    [| discriminate].
  split.
  { rewrite forallb_forall in Hall. apply Hall. now apply list_elem_of_In. }
  destruct (wait_loop (max_rounds timeout) condition _) as [st'|] eqn:Hloop;
    simpl in Hres; [| discriminate].
  injection Hres as Hempty <-.
  apply Nat.eqb_eq in Hempty. apply nil_length_inv in Hempty.
  eapply wait_loop_sound in Hloop as [Hin|Hsat]; [| exact Hsat | | exact Hd].
  - rewrite Hempty in Hin. now apply elem_of_nil in Hin.
  - simpl. intros d' Hd'. now left.
Qed.

Lemma waiter_true_means_all_satisfied_witness :
  (λ _ : string, true) "media_player.hall" = true
  ∧ ∃ n, (n < 2)%nat
         ∧ (λ (_ : nat) (_ : string), true) n "media_player.hall" = true.
Proof.
  refine (waiter_true_means_all_satisfied (λ _ : string, true) (λ _ _, true)
            ["media_player.kitchen"; "media_player.hall"] 1%Q
            {| rounds := 2; budget := (1 - poll_delay - poll_delay)%Q;
               still_waiting := []; sleeps := 1 |}
            _ "media_player.hall" _).
  - reflexivity.
  - set_solver.
Defined.

(** X2: one round cannot clear a list of two or more devices. With a
    time-out of at most one poll interval the shared waiter returns
    [False] after one round although every device satisfies the
    predicate: the round reads every other device only, and half of the
    devices are still in the list. *)
Theorem waiter_one_round_leaves_half {device : Type} `{EqDecision device}
    (resolves : device → bool) (condition : nat → device → bool)
    (media_player_dicts : list device) (timeout : Q) :
  (2 ≤ length media_player_dicts)%nat →
  forallb resolves media_player_dicts = true →
  (∀ n d, condition n d = true) →
  (0 < timeout)%Q → (timeout <= poll_delay)%Q →
  ∃ st : wait_state device,
    _async_wait_until_media_players resolves media_player_dicts condition timeout
      = Some (false, st)
    ∧ rounds st = 1%nat
    ∧ (2 * length (still_waiting st) ≤ length media_player_dicts
       ≤ 2 * length (still_waiting st) + 1)%nat.
Proof.
  intros Hlen Hres Hall Hpos Hle.
  unfold _async_wait_until_media_players.
  destruct (max_rounds_pos timeout Hpos) as [fuel ->].
  assert (Hnz : (length media_player_dicts =? 0)%nat = false)
    by (apply Nat.eqb_neq; lia).
  rewrite Hnz, Hres. simpl negb. cbv iota.
  simpl wait_loop.
  assert (Hl : (0 <? length media_player_dicts)%nat = true)
    by (apply Nat.ltb_lt; lia).
  assert (Hq : Qltb 0 timeout = true) by now apply Qltb_true.
  rewrite Hl, Hq. simpl andb. cbv iota.
  pose proof (poll_all_satisfied (condition 0%nat) media_player_dicts (Hall 0%nat))
    as Hhalf.
  set (left_over := poll (condition 0%nat) media_player_dicts) in *.
  assert (Hleft : (0 <? length left_over)%nat = true) by (apply Nat.ltb_lt; lia).
  rewrite Hleft.
  assert (Hspent : Qltb 0 (timeout - poll_delay) = false)
    by (apply Qltb_false; lra).
  destruct fuel; simpl; rewrite Hleft, Hspent; simpl;
    (eexists; split;
     [ f_equal; f_equal; apply Nat.eqb_neq; lia
     | split; [reflexivity | exact Hhalf] ]).
Qed.

Lemma waiter_one_round_leaves_half_witness :
  ∃ st : wait_state string,
    _async_wait_until_media_players (λ _, true)
      ["media_player.kitchen"; "media_player.hall"; "media_player.bath"]
      (λ _ _, true) (1 # 10)%Q
      = Some (false, st)
    ∧ rounds st = 1%nat
    ∧ (2 * length (still_waiting st) ≤ 3 ≤ 2 * length (still_waiting st) + 1)%nat.
Proof.
  apply (waiter_one_round_leaves_half (λ _ : string, true) (λ _ _, true)
           ["media_player.kitchen"; "media_player.hall"; "media_player.bath"]
           (1 # 10)%Q).
  - simpl. lia.
  - reflexivity.
  - reflexivity.
  - reflexivity.
  - discriminate.
Defined.

(** With the budget counted in exact rationals and a predicate that no
    device ever satisfies, the shared waiter runs exactly
    [ceil(timeout / poll_interval)] rounds. *)
Lemma exact_never_satisfied_rounds {device : Type} `{EqDecision device}
    (resolves : device → bool) (condition : nat → device → bool)
    (media_player_dicts : list device) (timeout : Q) :
  media_player_dicts ≠ [] →
  forallb resolves media_player_dicts = true →
  (∀ n d, d ∈ media_player_dicts → condition n d = false) →
  (0 < timeout)%Q →
  ∃ st : wait_state device,
    _async_wait_until_media_players resolves media_player_dicts condition timeout
      = Some (false, st)
    ∧ rounds st = max_rounds timeout
    ∧ sleeps st = max_rounds timeout
    ∧ still_waiting st = media_player_dicts
    ∧ (budget st <= 0)%Q.
Proof.
  intros Hne Hres Hnever Hpos.
  unfold _async_wait_until_media_players.
  assert (Hnz : (length media_player_dicts =? 0)%nat = false).
  { apply Nat.eqb_neq. destruct media_player_dicts; [congruence | simpl; lia]. }
  rewrite Hnz, Hres. simpl negb. cbv iota.
  destruct (wait_loop_never_satisfied condition (max_rounds timeout)
              {| rounds := 0; budget := timeout;
                 still_waiting := media_player_dicts; sleeps := 0 |})
    as (st & Heq & Hr & Hs & Hw & Hb); simpl.
  - exact Hne.
  - exact Hnever.
  - apply max_rounds_covers.
  - intros _. now apply max_rounds_tight.
  - rewrite Heq. simpl. exists st. simpl in Hr, Hs, Hw, Hb.
    rewrite Hw, Hnz. repeat split; try assumption.
    pose proof (max_rounds_covers timeout). lra.
Qed.

(** ** The wait loops in floating point *)

Section BudgetedFacts.
Context {num device : Type} `{EqDecision device}.
Variable subtract : num → num → num.
Variable positive : num → bool.
Variable delay : num.

Lemma elem_of_remove_first_inv (x d : device) (l : list device) :
  d ∈ remove_first x l → d ∈ l.
Proof.
  induction l as [|y l IH]; simpl; [trivial |].
  destruct (decide (y = x)); intros Hd; [set_solver |].
  apply elem_of_cons in Hd as [->|Hd]; set_solver.
Qed.

(** A poll adds no device to the list. *)
Lemma poll_from_subset (condition : device → bool) (steps : nat) :
  ∀ (i : nat) (l : list device) (d : device),
    d ∈ poll_from steps condition i l → d ∈ l.
Proof.
  induction steps as [|steps IH]; intros i l d; simpl; [trivial |].
  destruct (l !! i) as [x|]; [| trivial].
  intros Hd. apply IH in Hd. destruct (condition x); [| exact Hd].
  eapply elem_of_remove_first_inv; eassumption.
Qed.

(** Once [n] subtractions leave a budget that is not positive, the
    shared loop ends within [n] rounds. Each round that went on has
    subtracted the delay once; at the end no device is waited for or the
    budget is not positive. *)
Lemma wait_loop_ends (condition : nat → device → bool) (n : nat) :
  ∀ (fuel : nat) (st : loop_state num device),
    (n ≤ fuel)%nat →
    positive (Budgeted.budget_after subtract delay n (loop_budget st)) = false →
    ∃ (st' : loop_state num device) (k : nat),
      Budgeted.wait_loop subtract positive delay fuel condition st = Some st'
      ∧ (k ≤ n)%nat
      ∧ loop_rounds st' = (loop_rounds st + k)%nat
      ∧ loop_budget st' = Budgeted.budget_after subtract delay k (loop_budget st)
      ∧ (loop_waiting st' = [] ∨ positive (loop_budget st') = false).
Proof.
  induction n as [|n IH]; intros fuel st Hfuel Hspent.
  - simpl in Hspent. exists st, 0%nat.
    split; [destruct fuel; simpl; now rewrite Hspent, andb_false_r |].
    split; [lia |]. split; [lia |]. split; [reflexivity | now right].
  - destruct ((0 <? length (loop_waiting st))%nat && positive (loop_budget st))
      eqn:Hgo.
    + destruct fuel as [|fuel]; [lia |]. simpl. rewrite Hgo.
      set (st1 := {| loop_rounds := S (loop_rounds st);
                     loop_budget := subtract (loop_budget st) delay;
                     loop_waiting := _; loop_sleeps := _ |}).
      destruct (IH fuel st1) as (st' & k & Heq & Hk & Hr & Hb & Hend);
        [lia | exact Hspent |].
      exists st', (S k). split; [exact Heq |]. split; [lia |].
      split; [simpl in Hr; lia |]. split; [exact Hb | exact Hend].
    + exists st, 0%nat.
      split; [destruct fuel; simpl; now rewrite Hgo |].
      split; [lia |]. split; [lia |]. split; [reflexivity |].
      apply andb_false_iff in Hgo as [Hl|Hp]; [left | now right].
      apply Nat.ltb_ge in Hl. destruct (loop_waiting st); [reflexivity |].
      simpl in Hl. lia.
Qed.

(** The shared loop keeps, for every device, either the device in the
    list or a round in which it satisfied the predicate, and it adds no
    device to the list. *)
Lemma wait_loop_accounts (condition : nat → device → bool) (devices : list device)
    (fuel : nat) :
  ∀ st st' : loop_state num device,
    (∀ d, d ∈ loop_waiting st → d ∈ devices) →
    (∀ d, d ∈ devices →
          d ∈ loop_waiting st
          ∨ ∃ k, (k < loop_rounds st)%nat ∧ condition k d = true) →
    Budgeted.wait_loop subtract positive delay fuel condition st = Some st' →
    (∀ d, d ∈ loop_waiting st' → d ∈ devices)
    ∧ ∀ d, d ∈ devices →
           d ∈ loop_waiting st'
           ∨ ∃ k, (k < loop_rounds st')%nat ∧ condition k d = true.
Proof.
  induction fuel as [|fuel IH]; intros st st' Hsub Hinv Hloop; simpl in Hloop;
    destruct ((0 <? length (loop_waiting st))%nat && positive (loop_budget st));
    try discriminate; try (injection Hloop as <-; now split).
  eapply IH; [| | exact Hloop]; simpl.
  - intros d Hd. apply Hsub. eapply poll_from_subset; exact Hd.
  - intros d Hd. destruct (Hinv d Hd) as [Hin|(k & Hk & Hc)].
    + destruct (poll_from_keeps_or_satisfied (condition (loop_rounds st))
                  (length (loop_waiting st)) 0 (loop_waiting st) d Hin)
        as [Hin'|Hc]; [now left |].
      right. exists (loop_rounds st). split; [lia | exact Hc].
    + right. exists k. split; [lia | exact Hc].
Qed.

(** While no device satisfies the predicate, the shared loop runs as
    long as the budget stays positive and sleeps after every round. *)
Lemma wait_loop_runs_budget_down (condition : nat → device → bool) (n : nat) :
  ∀ (fuel : nat) (st : loop_state num device),
    (n ≤ fuel)%nat →
    loop_waiting st ≠ [] →
    (∀ k d, d ∈ loop_waiting st → condition k d = false) →
    (∀ k, (k < n)%nat →
          positive (Budgeted.budget_after subtract delay k (loop_budget st)) = true) →
    positive (Budgeted.budget_after subtract delay n (loop_budget st)) = false →
    Budgeted.wait_loop subtract positive delay fuel condition st
    = Some {| loop_rounds := loop_rounds st + n;
              loop_budget := Budgeted.budget_after subtract delay n (loop_budget st);
              loop_waiting := loop_waiting st;
              loop_sleeps := loop_sleeps st + n |}.
Proof.
  induction n as [|n IH]; intros fuel st Hfuel Hne Hnever Hpos Hspent.
  - simpl in *. rewrite !Nat.add_0_r.
    destruct fuel; simpl; rewrite Hspent, andb_false_r; now destruct st.
  - destruct fuel as [|fuel]; [lia |].
    assert (Hlen : (0 <? length (loop_waiting st))%nat = true).
    { apply Nat.ltb_lt. destruct (loop_waiting st); [congruence | simpl; lia]. }
    assert (Hp : positive (loop_budget st) = true) by (apply (Hpos 0%nat); lia).
    assert (Hpoll : poll (condition (loop_rounds st)) (loop_waiting st)
                    = loop_waiting st).
    { apply poll_from_none_satisfied. intros d Hd. now apply Hnever. }
    simpl Budgeted.wait_loop. rewrite Hlen, Hp. simpl andb. cbv iota.
    rewrite Hpoll, Hlen.
    rewrite IH; simpl.
    + now rewrite !Nat.add_succ_r.
    + lia.
    + exact Hne.
    + exact Hnever.
    + intros k Hk. apply (Hpos (S k)). lia.
    + exact Hspent.
Qed.

(** The volume loop ends within [n] rounds as well. It subtracts the
    delay once for every round that did not find the target volume. *)
Lemma volume_wait_loop_ends (at_target : nat → bool) (n : nat) :
  ∀ (fuel : nat) (st : loop_state num device),
    (n ≤ fuel)%nat →
    positive (Budgeted.budget_after subtract delay n (loop_budget st)) = false →
    ∃ (result : bool) (st' : loop_state num device) (k : nat),
      Budgeted.volume_wait_loop subtract positive delay fuel at_target st
      = Some (result, st')
      ∧ (loop_rounds st ≤ loop_rounds st' ≤ loop_rounds st + n)%nat
      ∧ loop_sleeps st' = (loop_sleeps st + k)%nat
      ∧ loop_budget st' = Budgeted.budget_after subtract delay k (loop_budget st)
      ∧ loop_waiting st' = loop_waiting st
      ∧ (if result
         then at_target (Nat.pred (loop_rounds st')) = true
         else positive (loop_budget st') = false
              ∧ ∀ m, (loop_rounds st ≤ m < loop_rounds st')%nat →
                     at_target m = false).
Proof.
  induction n as [|n IH]; intros fuel st Hfuel Hspent.
  - simpl in Hspent. exists false, st, 0%nat.
    split; [destruct fuel; simpl; now rewrite Hspent |].
    split; [lia |]. split; [lia |]. split; [reflexivity |].
    split; [reflexivity |]. split; [exact Hspent | intros m Hm; lia].
  - destruct (positive (loop_budget st)) eqn:Hgo.
    + destruct fuel as [|fuel]; [lia |]. simpl. rewrite Hgo.
      destruct (at_target (loop_rounds st)) eqn:Hall.
      * eexists true, _, 0%nat. split; [reflexivity |]. simpl.
        split; [lia |]. split; [lia |]. split; [reflexivity |].
        split; [reflexivity | exact Hall].
      * set (st1 := {| loop_rounds := S (loop_rounds st);
                       loop_budget := subtract (loop_budget st) delay;
                       loop_waiting := loop_waiting st;
                       loop_sleeps := S (loop_sleeps st) |}).
        destruct (IH fuel st1) as (result & st' & k & Heq & Hr & Hs & Hb & Hw & Hres);
          [lia | exact Hspent |].
        exists result, st', (S k). split; [exact Heq |].
        simpl in Hr, Hs, Hb, Hw, Hres.
        split; [lia |]. split; [lia |]. split; [exact Hb |].
        split; [exact Hw |].
        destruct result; [exact Hres |]. destruct Hres as [Hno Hnever].
        split; [exact Hno |]. intros m Hm.
        destruct (decide (m = loop_rounds st)) as [->|Hne];
          [exact Hall | apply Hnever; lia].
    + exists false, st, 0%nat.
      split; [destruct fuel; simpl; now rewrite Hgo |].
      split; [lia |]. split; [lia |]. split; [reflexivity |].
      split; [reflexivity |]. split; [exact Hgo | intros m Hm; lia].
Qed.

End BudgetedFacts.

(** With the rationals as the arithmetic of the budget, these are the
    loops of the first model. *)
Lemma wait_loop_exact {device : Type} `{EqDecision device}
    (condition : nat → device → bool) (fuel : nat) :
  ∀ st : wait_state device,
    Budgeted.wait_loop Qminus (Qltb 0) poll_delay fuel condition (exact_state st)
    = exact_state <$> wait_loop fuel condition st.
Proof.
  induction fuel as [|fuel IH]; intros st; simpl;
    destruct ((0 <? length (still_waiting st))%nat && Qltb 0 (budget st));
    try reflexivity.
  apply (IH {| rounds := S (rounds st); budget := (budget st - poll_delay)%Q;
               still_waiting := poll (condition (rounds st)) (still_waiting st);
               sleeps := _ |}).
Qed.

Lemma volume_wait_loop_exact {device : Type} (volume : nat → device → option Q)
    (target_volume : Q) (fuel : nat) :
  ∀ st : wait_state device,
    Budgeted.volume_wait_loop Qminus (Qltb 0) poll_delay fuel
      (λ n, all_at_target volume n (still_waiting st) target_volume) (exact_state st)
    = prod_map id exact_state <$> volume_wait_loop volume fuel target_volume st.
Proof.
  induction fuel as [|fuel IH]; intros st; simpl;
    destruct (Qltb 0 (budget st)); try reflexivity.
  destruct (all_at_target volume (rounds st) (still_waiting st) target_volume);
    [reflexivity |].
  apply (IH {| rounds := S (rounds st); budget := (budget st - poll_delay)%Q;
               still_waiting := still_waiting st; sleeps := S (sleeps st) |}).
Qed.

(** C8, as stated, fails. In binary64 five subtractions of [0.2] from
    [1.0] leave [5.6e-17], which is positive: with one device that never
    satisfies the predicate the shared waiter runs six rounds, one more
    than [ceil(1.0 / 0.2)]. And for the empty device list it returns
    [False] before its loop, although no device is pending. *)
Lemma waiter_exceeds_claimed_rounds :
  (∃ st : loop_state float string,
     Budgeted._async_wait_until_media_players PrimFloat.sub float_positive float_delay
       10 (λ _, true) ["media_player.kitchen"] (λ _ _, false) 1%float
     = Some (false, st)
     ∧ loop_rounds st = 6%nat
     ∧ (max_rounds 1 < loop_rounds st)%nat)
  ∧ (∃ st : loop_state float string,
       Budgeted._async_wait_until_media_players PrimFloat.sub float_positive
         float_delay 10 (λ _, true) [] (λ _ _, true) 1%float
       = Some (false, st)
       ∧ loop_waiting st = []).
Proof.
  split.
  - eexists. split; [vm_compute; reflexivity |]. split; [reflexivity |].
    vm_compute. lia.
  - eexists. split; reflexivity.
Qed.

(** C8 (amended): for every non-empty device list, every predicate and
    every time-out, each round of a wait loop that goes on subtracts the
    poll interval from the local budget, in the arithmetic of the
    budget, and a round is run only while the budget is positive. So
    whenever [n] subtractions of the poll interval bring the time-out to
    a value that is not positive, both waiters end within [n] rounds,
    even if no device ever satisfies the predicate. The shared waiter
    returns [False] exactly when a device is still pending: a device of
    the list that is still in the waiting list; every other device of
    the list satisfied the predicate in one of the rounds that were run.
    The volume waiter returns [False] exactly when its budget is spent
    after rounds that all found a device off the target volume. *)
Theorem waiters_terminate {num device : Type} `{EqDecision device}
    (subtract : num → num → num) (positive : num → bool) (delay : num)
    (resolves : device → bool) (condition : nat → device → bool)
    (volume : nat → device → option Q)
    (media_player_dicts : list device) (target_volume : Q) (timeout : num)
    (n fuel : nat) :
  media_player_dicts ≠ [] →
  positive (Budgeted.budget_after subtract delay n timeout) = false →
  (n ≤ fuel)%nat →
  (∃ (result : bool) (st : loop_state num device),
     Budgeted._async_wait_until_media_players subtract positive delay fuel
       resolves media_player_dicts condition timeout
     = Some (result, st)
     ∧ (loop_rounds st ≤ n)%nat
     ∧ loop_budget st
       = Budgeted.budget_after subtract delay (loop_rounds st) timeout
     ∧ (result = false ↔ ∃ d, d ∈ media_player_dicts ∧ d ∈ loop_waiting st)
     ∧ (∀ d, d ∈ media_player_dicts →
             d ∈ loop_waiting st
             ∨ ∃ k, (k < loop_rounds st)%nat ∧ condition k d = true))
  ∧ (∃ (result : bool) (st : loop_state num device),
       Budgeted.async_wait_until_media_player_volume_level subtract positive delay
         fuel volume media_player_dicts target_volume timeout
       = Some (result, st)
       ∧ (loop_rounds st ≤ n)%nat
       ∧ loop_budget st
         = Budgeted.budget_after subtract delay (loop_sleeps st) timeout
       ∧ (if result
          then all_at_target volume (Nat.pred (loop_rounds st)) media_player_dicts
                 target_volume = true
          else positive (loop_budget st) = false
               ∧ ∀ m, (m < loop_rounds st)%nat →
                      all_at_target volume m media_player_dicts target_volume
                      = false)).
Proof.
  intros Hne Hspent Hfuel. split.
  - unfold Budgeted._async_wait_until_media_players.
    set (start := {| loop_rounds := 0; loop_budget := timeout;
                     loop_waiting := media_player_dicts; loop_sleeps := 0 |}).
    assert (Hlen : (length media_player_dicts =? 0)%nat = false).
    { apply Nat.eqb_neq. destruct media_player_dicts; [congruence | simpl; lia]. }
    assert (Hsome : ∃ d, d ∈ media_player_dicts).
    { destruct media_player_dicts as [|d l]; [congruence |]. exists d. set_solver. }
    rewrite Hlen.
    destruct (forallb resolves media_player_dicts); simpl negb; cbv iota.
    + destruct (wait_loop_ends subtract positive delay condition n fuel start
                  Hfuel Hspent)
        as (st & k & Heq & Hk & Hr & Hb & _).
      destruct (wait_loop_accounts subtract positive delay condition
                  media_player_dicts fuel start st) as [Hsub Hacc];
        [now intros d Hd | intros d Hd; now left | exact Heq |].
      rewrite Heq. exists (length (loop_waiting st) =? 0)%nat, st.
      simpl in Hr, Hb. split; [reflexivity |]. split; [lia |].
      split; [now rewrite Hr, Hb |]. split; [| exact Hacc].
      destruct (loop_waiting st) as [|d l]; simpl.
      * split; [discriminate |]. intros (d & _ & Hd). now apply elem_of_nil in Hd.
      * split; [| reflexivity]. intros _. exists d.
        split; [apply Hsub |]; set_solver.
    + exists false, start. split; [reflexivity |]. simpl.
      split; [lia |]. split; [reflexivity |]. split.
      * split; [| reflexivity]. intros _. destruct Hsome as [d Hd]. now exists d.
      * intros d Hd. now left.
  - unfold Budgeted.async_wait_until_media_player_volume_level.
    set (start := {| loop_rounds := 0; loop_budget := timeout;
                     loop_waiting := media_player_dicts; loop_sleeps := 0 |}).
    destruct (volume_wait_loop_ends subtract positive delay
                (λ m, all_at_target volume m media_player_dicts target_volume)
                n fuel start Hfuel Hspent)
      as (result & st & k & Heq & Hr & Hs & Hb & _ & Hres).
    exists result, st. split; [exact Heq |]. simpl in Hr, Hs, Hb.
    split; [lia |]. split; [now rewrite Hs, Hb |].
    destruct result; [exact Hres |]. destruct Hres as [Hno Hnever].
    split; [exact Hno |]. intros m Hm. apply Hnever. simpl. lia.
Qed.

Lemma waiters_terminate_witness :
  (∃ (result : bool) (st : loop_state float string),
     Budgeted._async_wait_until_media_players PrimFloat.sub float_positive float_delay
       6 (λ _, true) ["media_player.kitchen"; "media_player.hall"]
       (λ _ _, false) 1%float
     = Some (result, st)
     ∧ (loop_rounds st ≤ 6)%nat
     ∧ loop_budget st
       = Budgeted.budget_after PrimFloat.sub float_delay (loop_rounds st) 1%float
     ∧ (result = false
        ↔ ∃ d, d ∈ ["media_player.kitchen"; "media_player.hall"]
               ∧ d ∈ loop_waiting st)
     ∧ (∀ d, d ∈ ["media_player.kitchen"; "media_player.hall"] →
             d ∈ loop_waiting st
             ∨ ∃ k, (k < loop_rounds st)%nat
                    ∧ (λ (_ : nat) (_ : string), false) k d = true))
  ∧ (∃ (result : bool) (st : loop_state float string),
       Budgeted.async_wait_until_media_player_volume_level PrimFloat.sub
         float_positive float_delay 6 (λ _ _, Some (3 # 10)%Q)
         ["media_player.kitchen"; "media_player.hall"] (5 # 10)%Q 1%float
       = Some (result, st)
       ∧ (loop_rounds st ≤ 6)%nat
       ∧ loop_budget st
         = Budgeted.budget_after PrimFloat.sub float_delay (loop_sleeps st) 1%float
       ∧ (if result
          then all_at_target (λ _ _, Some (3 # 10)%Q) (Nat.pred (loop_rounds st))
                 ["media_player.kitchen"; "media_player.hall"] (5 # 10)%Q = true
          else float_positive (loop_budget st) = false
               ∧ ∀ m, (m < loop_rounds st)%nat →
                      all_at_target (λ _ _, Some (3 # 10)%Q) m
                        ["media_player.kitchen"; "media_player.hall"] (5 # 10)%Q
                      = false)).
Proof.
  apply (waiters_terminate PrimFloat.sub float_positive float_delay
           (λ _ : string, true) (λ _ _, false) (λ _ _, Some (3 # 10)%Q)
           ["media_player.kitchen"; "media_player.hall"] (5 # 10)%Q 1%float 6 6).
  - discriminate.
  - reflexivity.
  - lia.
Defined.

(** X3: with a predicate that no device ever satisfies, the shared
    waiter runs exactly as many rounds as it takes subtractions of the
    poll interval to bring the time-out to a value that is not positive,
    in the arithmetic of the budget. It sleeps after each of them, keeps
    every device in the list and returns [False]. *)
Theorem waiter_never_satisfied_runs_all_rounds {num device : Type}
    `{EqDecision device}
    (subtract : num → num → num) (positive : num → bool) (delay : num)
    (resolves : device → bool) (condition : nat → device → bool)
    (media_player_dicts : list device) (timeout : num) (n fuel : nat) :
  media_player_dicts ≠ [] →
  forallb resolves media_player_dicts = true →
  (∀ k d, d ∈ media_player_dicts → condition k d = false) →
  (∀ k, (k < n)%nat →
        positive (Budgeted.budget_after subtract delay k timeout) = true) →
  positive (Budgeted.budget_after subtract delay n timeout) = false →
  (n ≤ fuel)%nat →
  Budgeted._async_wait_until_media_players subtract positive delay fuel
    resolves media_player_dicts condition timeout
  = Some (false,
          {| loop_rounds := n;
             loop_budget := Budgeted.budget_after subtract delay n timeout;
             loop_waiting := media_player_dicts;
             loop_sleeps := n |}).
Proof.
  intros Hne Hres Hnever Hpos Hspent Hfuel.
  unfold Budgeted._async_wait_until_media_players.
  assert (Hlen : (length media_player_dicts =? 0)%nat = false).
  { apply Nat.eqb_neq. destruct media_player_dicts; [congruence | simpl; lia]. }
  rewrite Hlen, Hres. simpl negb. cbv iota.
  rewrite (wait_loop_runs_budget_down subtract positive delay condition n fuel);
    simpl; try assumption.
  now rewrite Hlen.
Qed.

Lemma waiter_never_satisfied_runs_all_rounds_witness :
  Budgeted._async_wait_until_media_players PrimFloat.sub float_positive float_delay
    8 (λ _, true) ["media_player.kitchen"] (λ _ _, false) 1%float
  = Some (false,
          {| loop_rounds := 6;
             loop_budget := Budgeted.budget_after PrimFloat.sub float_delay 6 1%float;
             loop_waiting := ["media_player.kitchen"];
             loop_sleeps := 6 |}).
Proof.
  apply (waiter_never_satisfied_runs_all_rounds PrimFloat.sub float_positive
           float_delay (λ _ : string, true) (λ _ _, false)
           ["media_player.kitchen"] 1%float 6 8).
  - discriminate.
  - reflexivity.
  - reflexivity.
  - intros k Hk. do 6 (destruct k as [|k]; [reflexivity |]). lia.
  - reflexivity.
  - lia.
Defined.

(** The rounds that some time-outs pay for in binary64: the defaults
    [3.5] and [5] seconds give 18 and 25 rounds, which is
    [ceil(timeout / 0.2)]; [2] seconds give 11 rounds, one more than
    [ceil(2 / 0.2)]. *)
Example rounds_in_binary64 :
  float_positive (Budgeted.budget_after PrimFloat.sub float_delay 17 3.5%float) = true
  ∧ float_positive (Budgeted.budget_after PrimFloat.sub float_delay 18 3.5%float) = false
  ∧ float_positive (Budgeted.budget_after PrimFloat.sub float_delay 24 5%float) = true
  ∧ float_positive (Budgeted.budget_after PrimFloat.sub float_delay 25 5%float) = false
  ∧ float_positive (Budgeted.budget_after PrimFloat.sub float_delay 10 2%float) = true
  ∧ float_positive (Budgeted.budget_after PrimFloat.sub float_delay 11 2%float) = false
  ∧ max_rounds 2 = 10%nat.
Proof. repeat split; reflexivity. Qed.

(** X4: a single device that satisfies the predicate at the first poll
    makes the shared waiter return [True] after one round, without a
    sleep. *)
Theorem waiter_single_device_no_sleep {device : Type} `{EqDecision device}
    (resolves : device → bool) (condition : nat → device → bool)
    (d : device) (timeout : Q) :
  resolves d = true → condition 0%nat d = true → (0 < timeout)%Q →
  _async_wait_until_media_players resolves [d] condition timeout
  = Some (true, {| rounds := 1; budget := (timeout - poll_delay)%Q;
                   still_waiting := []; sleeps := 0 |}).
Proof.
  intros Hres Hc Hpos. unfold _async_wait_until_media_players.
  destruct (max_rounds_pos timeout Hpos) as [fuel ->].
  simpl. rewrite Hres. simpl.
  assert (Hq : Qltb 0 timeout = true) by now apply Qltb_true.
  rewrite Hq. unfold poll. simpl. rewrite Hc. simpl.
  destruct (decide (d = d)) as [_|Hne]; [| congruence].
  simpl. destruct fuel; reflexivity.
Qed.

Lemma waiter_single_device_no_sleep_witness :
  _async_wait_until_media_players (λ _, true) ["media_player.kitchen"]
    (λ _ _, true) 1%Q
  = Some (true, {| rounds := 1; budget := (1 - poll_delay)%Q;
                   still_waiting := []; sleeps := 0 |}).
Proof.
  apply (waiter_single_device_no_sleep (λ _ : string, true) (λ _ _, true)
           "media_player.kitchen" 1%Q); reflexivity.
Defined.

(** X5: the volume waiter passes over devices that [hass] does not know.
    With a positive time-out and no known device in the list (an empty
    list included) it returns [True] from its first round, without a
    sleep and whatever the target volume is. *)
Theorem volume_waiter_ignores_unknown_devices {device : Type}
    (volume : nat → device → option Q) (media_player_dicts : list device)
    (target_volume timeout : Q) :
  (0 < timeout)%Q →
  (∀ d, d ∈ media_player_dicts → volume 0%nat d = None) →
  async_wait_until_media_player_volume_level volume media_player_dicts
    target_volume timeout
  = Some (true, {| rounds := 1; budget := timeout;
                   still_waiting := media_player_dicts; sleeps := 0 |}).
Proof.
  intros Hpos Hunknown. unfold async_wait_until_media_player_volume_level.
  destruct (max_rounds_pos timeout Hpos) as [fuel ->].
  simpl. assert (Hq : Qltb 0 timeout = true) by now apply Qltb_true.
  rewrite Hq.
  assert (Hall : all_at_target volume 0 media_player_dicts target_volume = true).
  { unfold all_at_target. apply forallb_forall. intros d Hd.
    rewrite Hunknown; [reflexivity | now apply list_elem_of_In]. }
  now rewrite Hall.
Qed.

Lemma volume_waiter_ignores_unknown_devices_witness :
  async_wait_until_media_player_volume_level (λ _ _, None)
    ["media_player.gone"] (5 # 10)%Q 1%Q
  = Some (true, {| rounds := 1; budget := 1%Q;
                   still_waiting := ["media_player.gone"]; sleeps := 0 |}).
Proof.
  apply (volume_waiter_ignores_unknown_devices (λ _ (_ : string), None)
           ["media_player.gone"] (5 # 10)%Q 1%Q).
  - reflexivity.
  - reflexivity.
Defined.

(** ** More on the volume fade controller *)

Section PreservesFacts.
Context {S : Type} (P : S → Prop).

Lemma preserves_ret {A} (a : A) : preserves P (ret a).
Proof. intros w Hw. exact Hw. Qed.

Lemma preserves_raise {A} (e : exn) : preserves P (@raise S A e).
Proof. intros w Hw. exact Hw. Qed.

Lemma preserves_get_state : preserves P (@get_state S).
Proof. intros w Hw. exact Hw. Qed.

Lemma preserves_bind {A B} (m : M S A) (k : A → M S B) :
  preserves P m → (∀ a, preserves P (k a)) → preserves P (bind m k).
Proof.
  intros Hm Hk w Hw. unfold bind. specialize (Hm w Hw).
  destruct (m w) as [[a|e] w']; simpl in *; [now apply Hk | exact Hm].
Qed.

(** The same with the state in which the continuation starts at hand. *)
Lemma preserves_bind_get {B} (k : S → M S B) :
  (∀ w, P w → P (snd (k w w))) → preserves P (bind get_state k).
Proof. intros Hk w Hw. unfold bind, get_state. now apply Hk. Qed.

Lemma preserves_for_each {A} (l : list A) (body : A → M S unit) :
  (∀ x, preserves P (body x)) → preserves P (for_each l body).
Proof.
  intros Hbody. induction l as [|x l IH]; simpl.
  - apply preserves_ret.
  - apply preserves_bind; [apply Hbody | intros _; exact IH].
Qed.

End PreservesFacts.

Section RoundFacts.
Local Open Scope Q_scope.

Lemma round_half_even_nonneg (x : Q) : 0 <= x → (0 <= round_half_even x)%Z.
Proof.
  intros Hx. unfold round_half_even.
  assert (Hf : (0 <= Qfloor x)%Z).
  { change 0%Z with (Qfloor 0). now apply Qfloor_resp_le. }
  destruct (Qltb _ half); [assumption |].
  destruct (Qltb half _); [lia |].
  destruct (Z.even _); lia.
Qed.

Lemma py_round_nonneg (x : Q) (ndigits : nat) : 0 <= x → 0 <= py_round x ndigits.
Proof.
  intros Hx. unfold py_round.
  assert (Hs : 0 < inject_Z (10 ^ Z.of_nat ndigits)).
  { change 0 with (inject_Z 0). rewrite <- Zlt_Qlt. apply Z.pow_pos_nonneg; lia. }
  apply Qle_shift_div_l; [exact Hs |]. rewrite Qmult_0_l.
  change 0 with (inject_Z 0). rewrite <- Zle_Qle.
  apply round_half_even_nonneg. apply Qmult_le_0_compat; [exact Hx | lra].
Qed.

End RoundFacts.

Section FadeFacts.
Variable TRANSITION_STEP_MS : Q.
Variable hass : list hass_event → string → option State.

Lemma preserves_current_volume_of (P : fade_state → Prop) (entity : string) :
  preserves P (current_volume_of hass entity).
Proof.
  intros st Hst. unfold current_volume_of. now destruct (hass _ _).
Qed.

(** What the fader leaves to the property: the events only grow by
    [emit], and [store_volume_steps] does not touch them. *)
Lemma preserves_emit (Ev : hass_event → Prop) (e : hass_event) :
  Ev e → preserves (λ st, Forall Ev (events st)) (emit e).
Proof.
  intros He st Hst. unfold emit, modify. simpl.
  apply Forall_app. split; [exact Hst | now constructor].
Qed.

Lemma preserves_store_volume_steps (Ev : hass_event → Prop) (j : nat) (steps : list Q) :
  preserves (λ st, Forall Ev (events st)) (store_volume_steps j steps).
Proof. intros st Hst. exact Hst. Qed.

Lemma fade_device_step_nonnegative (key : volume_key) (fade_steps step j : nat) :
  preserves (λ st, Forall nonnegative_level (events st))
    (fade_device_step hass key fade_steps step j).
Proof.
  set (Pr := λ st : fade_state, Forall nonnegative_level (events st)).
  unfold fade_device_step. apply preserves_bind_get. intros st Hst.
  destruct (dicts st !! j) as [d|]; [| exact Hst].
  refine (preserves_bind Pr _ _ _ _ st Hst);
    [apply preserves_current_volume_of |].
  intros current.
  destruct (same_number _ current && _); [apply preserves_ret |].
  destruct (same_number _ (-1)%Q); [apply preserves_ret |].
  apply preserves_bind.
  { destruct (step =? 0)%nat; [| apply preserves_ret].
    destruct (target_of d key);
      [apply preserves_store_volume_steps | apply preserves_raise]. }
  intros _. apply preserves_bind_get. intros st' Hst'.
  destruct (dicts st' !! j) as [d'|]; [| exact Hst'].
  destruct (volume_steps d') as [steps|]; [| exact Hst'].
  refine (preserves_bind Pr _ _ _ _ st' Hst').
  { destruct (step <? length steps)%nat.
    - destruct (steps !! step); [apply preserves_ret | apply preserves_raise].
    - destruct (target_of d key); [apply preserves_ret | apply preserves_raise]. }
  intros value. apply preserves_emit. simpl.
  apply py_round_nonneg.
  destruct (Qltb value 0) eqn:Hv; [apply Qle_refl | now apply Qltb_false].
Qed.

Lemma set_device_directly_nonnegative (key : volume_key) (j : nat) :
  preserves (λ st, Forall nonnegative_level (events st))
    (set_device_directly hass key j).
Proof.
  set (Pr := λ st : fade_state, Forall nonnegative_level (events st)).
  unfold set_device_directly. apply preserves_bind_get. intros st Hst.
  destruct (dicts st !! j) as [d|]; [| exact Hst].
  refine (preserves_bind Pr _ _ _ _ st Hst);
    [apply preserves_current_volume_of |].
  intros current. destruct (target_of d key) as [target|]; [| apply preserves_raise].
  destruct (Qle_bool 0 target) eqn:Ht; simpl; [| apply preserves_ret].
  destruct (negb _); [| apply preserves_ret].
  apply preserves_emit. simpl. now apply Qle_bool_iff.
Qed.

(** The whole fade keeps a property of the state that its two loop
    bodies keep and that a sleep does not break. *)
Lemma fade_preserves (Pr : fade_state → Prop) (key : volume_key) :
  (∀ seconds, preserves Pr (emit (Sleep seconds))) →
  (∀ fade_steps step j, preserves Pr (fade_device_step hass key fade_steps step j)) →
  (∀ j, preserves Pr (set_device_directly hass key j)) →
  ∀ fade_duration,
    preserves Pr
      (async_set_volume_for_media_players TRANSITION_STEP_MS hass key fade_duration).
Proof.
  intros Hsleep Hstep Hdirect fade_duration.
  unfold async_set_volume_for_media_players.
  apply preserves_bind_get. intros st Hst.
  destruct (length (dicts st) =? 0)%nat; [exact Hst |].
  generalize (seq 0 (length (dicts st))). intros players.
  refine (preserves_bind Pr _ _ _ _ st Hst).
  { destruct (Qltb 0 _); [| apply preserves_ret].
    destruct (Qeq_bool _ 0); [apply preserves_raise | apply preserves_ret]. }
  intros fade_steps. destruct (fade_steps =? 0)%Z; [apply preserves_raise |].
  destruct (1 <? fade_steps)%Z.
  - apply preserves_for_each. intros step. apply preserves_bind.
    + apply preserves_for_each. intros j. apply Hstep.
    + intros _. destruct (negb _); [| apply preserves_ret]. apply Hsleep.
  - apply preserves_for_each. intros j. apply Hdirect.
Qed.

Lemma unchanged_targets_sleep (key : volume_key) (seconds : Q) :
  preserves (unchanged_targets key) (emit (Sleep seconds)).
Proof.
  intros st [Hd He]. split; [exact Hd |]. simpl.
  apply Forall_app. split; [exact He | now repeat constructor].
Qed.

Lemma unchanged_targets_step (key : volume_key) (fade_steps step j : nat) :
  preserves (unchanged_targets key) (fade_device_step hass key fade_steps step j).
Proof.
  unfold fade_device_step. apply preserves_bind_get. intros st Hst.
  destruct (dicts st !! j) as [d|] eqn:Hj; [| exact Hst].
  assert (Hd : same_number (target_of d key) (-1)%Q = true).
  { apply (proj1 Hst). eapply list_elem_of_lookup_2; eassumption. }
  refine (preserves_bind (unchanged_targets key) _ _ _ _ st Hst);
    [apply preserves_current_volume_of |].
  intros current. rewrite Hd.
  destruct (same_number _ current && _); apply preserves_ret.
Qed.

Lemma unchanged_targets_direct (key : volume_key) (j : nat) :
  preserves (unchanged_targets key) (set_device_directly hass key j).
Proof.
  unfold set_device_directly. apply preserves_bind_get. intros st Hst.
  destruct (dicts st !! j) as [d|] eqn:Hj; [| exact Hst].
  assert (Hd : same_number (target_of d key) (-1)%Q = true).
  { apply (proj1 Hst). eapply list_elem_of_lookup_2; eassumption. }
  refine (preserves_bind (unchanged_targets key) _ _ _ _ st Hst);
    [apply preserves_current_volume_of |].
  intros current. destruct (target_of d key) as [target|]; [| apply preserves_raise].
  simpl in Hd. apply Qeq_bool_iff in Hd.
  assert (Hneg : Qle_bool 0 target = false).
  { destruct (Qle_bool 0 target) eqn:Hle; [| reflexivity].
    apply Qle_bool_iff in Hle. lra. }
  rewrite Hneg. apply preserves_ret.
Qed.

End FadeFacts.

(** X6: the fader never sends a negative volume level. Whatever the
    devices report, whatever the targets and the duration are, and also
    when the fade raises half way, every [volume_set] it issued has a
    level of at least [0]. *)
Theorem fade_never_sends_negative_level (TRANSITION_STEP_MS : Q)
    (hass : list hass_event → string → option State) (key : volume_key)
    (fade_duration : Q) (media_player_dicts : list media_player_dict) :
  Forall nonnegative_level
    (events (snd (async_set_volume_for_media_players TRANSITION_STEP_MS hass key
                    fade_duration
                    {| dicts := media_player_dicts; events := [] |}))).
Proof.
  apply (fade_preserves TRANSITION_STEP_MS hass
           (λ st, Forall nonnegative_level (events st)) key).
  - intros seconds. now apply preserves_emit.
  - apply fade_device_step_nonnegative.
  - apply set_device_directly_nonnegative.
  - constructor.
Qed.

(** X7: a player whose target is the value [-1] is left alone. When the
    target of every dictionary resolves to [-1], the fade issues no
    [volume_set] at all, in one step or in many. *)
Theorem fade_skips_unchanged_targets (TRANSITION_STEP_MS : Q)
    (hass : list hass_event → string → option State) (key : volume_key)
    (fade_duration : Q) (media_player_dicts : list media_player_dict) :
  (∀ d, d ∈ media_player_dicts →
        ∃ target, target_of d key = Some target ∧ (target == -1)%Q) →
  Forall is_sleep
    (events (snd (async_set_volume_for_media_players TRANSITION_STEP_MS hass key
                    fade_duration
                    {| dicts := media_player_dicts; events := [] |}))).
Proof.
  intros Htargets.
  apply (fade_preserves TRANSITION_STEP_MS hass (unchanged_targets key) key).
  - apply unchanged_targets_sleep.
  - apply unchanged_targets_step.
  - apply unchanged_targets_direct.
  - split; [| constructor]. simpl. intros d Hd.
    destruct (Htargets d Hd) as (target & -> & Heq). simpl.
    now apply Qeq_bool_iff.
Qed.

Lemma fade_skips_unchanged_targets_witness :
  Forall is_sleep
    (events (snd (async_set_volume_for_media_players 500%Q steady_hass
                    (Level (-1)%Q) 1500%Q
                    {| dicts := [kitchen]; events := [] |}))).
Proof.
  apply (fade_skips_unchanged_targets 500%Q steady_hass (Level (-1)%Q) 1500%Q [kitchen]).
  intros d _. exists (-1)%Q. split; reflexivity.
Defined.

Section LinearFade.
Variable TRANSITION_STEP_MS : Q.
Variable hass : list hass_event → string → option State.
Variable key : volume_key.
Variable d : media_player_dict.
Variable start : State.
Variable target : Q.
Variable n : nat.

Let current : Q := default 0%Q (volume_level start).
Let stored : media_player_dict :=
  {| entity_id := entity_id d; levels := levels d;
     volume_steps :=
       Some (map (λ i, (current + (target - current) / inject_Z (Z.of_nat n)
                                  * inject_Z (Z.of_nat i))%Q)
                 (seq 1 (n - 1))) |}.

Hypothesis Hstart : hass [] (entity_id d) = Some start.
Hypothesis Hknown : ∀ issued, is_Some (hass issued (entity_id d)).
Hypothesis Htarget : target_of d key = Some target.
Hypothesis Hmove : Qeq_bool target current = false.
Hypothesis Hset : Qeq_bool target (-1)%Q = false.
Hypothesis Hn : (2 ≤ n)%nat.

Lemma target_of_stored : target_of stored key = Some target.
Proof. rewrite <- Htarget. now destruct key. Qed.

(** Step [0] stores the intermediate levels and sends the first one. *)
Lemma fade_first_step :
  fade_device_step hass key n 0 0 {| dicts := [d]; events := [] |}
  = (Return tt,
     {| dicts := [stored];
        events := [VolumeSet (entity_id d) (fade_level current target n 0)] |}).
Proof.
  unfold fade_device_step, bind, get_state, current_volume_of. simpl.
  rewrite Hstart, Htarget. simpl. fold current. rewrite Hmove, Hset. simpl.
  unfold store_volume_steps, modify, emit. simpl.
  destruct n as [|[|n']]; [lia | lia |]. reflexivity.
Qed.

(** A later step reads the stored level of its position, or the target
    in the last step, and sends it. *)
Lemma fade_later_step (step : nat) (issued : list hass_event) :
  (1 ≤ step)%nat →
  fade_device_step hass key n step 0 {| dicts := [stored]; events := issued |}
  = (Return tt,
     {| dicts := [stored];
        events := issued ++ [VolumeSet (entity_id d) (fade_level current target n step)] |}).
Proof.
  intros Hstep.
  unfold fade_device_step, bind, get_state, current_volume_of. simpl.
  destruct (Hknown issued) as [s Hs]. rewrite Hs, target_of_stored.
  assert (Hz : (step =? 0)%nat = false) by (apply Nat.eqb_neq; lia).
  rewrite Hz, andb_false_r. simpl. rewrite Hset. unfold ret. simpl.
  rewrite length_map, length_seq. unfold emit, modify, fade_level. simpl.
  destruct (Nat.ltb_spec step (n - 1)) as [Hlt|Hge]; [| reflexivity].
  rewrite list_lookup_fmap, lookup_seq_lt by lia. reflexivity.
Qed.

(** The steps from [k] on, each followed by its sleep but the last. *)
Lemma fade_later_steps (delay_s : Q) (m : nat) :
  ∀ (k : nat) (issued : list hass_event),
    (1 ≤ k)%nat →
    for_each (seq k m)
      (λ step,
         bind (for_each [0%nat] (fade_device_step hass key n step))
           (λ _, if negb (step =? n - 1)%nat then emit (Sleep delay_s) else ret tt))
      {| dicts := [stored]; events := issued |}
    = (Return tt,
       {| dicts := [stored];
          events :=
            issued
            ++ flat_map
                 (λ s, VolumeSet (entity_id d) (fade_level current target n s)
                       :: if (s =? n - 1)%nat then [] else [Sleep delay_s])
                 (seq k m) |}).
Proof.
  induction m as [|m IH]; intros k issued Hk.
  - simpl. now rewrite app_nil_r.
  - simpl seq. simpl for_each. unfold bind at 1 2 3.
    rewrite fade_later_step by exact Hk. simpl.
    destruct (k =? n - 1)%nat; simpl.
    + rewrite IH by lia. now rewrite <- app_assoc.
    + rewrite IH by lia. now rewrite <- !app_assoc.
Qed.

(** All steps of the fade. *)
Lemma fade_all_steps (delay_s : Q) :
  for_each (seq 0 n)
    (λ step,
       bind (for_each [0%nat] (fade_device_step hass key n step))
         (λ _, if negb (step =? n - 1)%nat then emit (Sleep delay_s) else ret tt))
    {| dicts := [d]; events := [] |}
  = (Return tt,
     {| dicts := [stored];
        events := fade_schedule (entity_id d) current target delay_s n |}).
Proof.
  assert (Hseq : seq 0 n = 0%nat :: seq 1 (n - 1)).
  { destruct n as [|m]; [lia |]. simpl. now rewrite Nat.sub_0_r. }
  assert (Hlast : (0 =? n - 1)%nat = false) by (apply Nat.eqb_neq; lia).
  unfold fade_schedule. rewrite Hseq.
  change (for_each (0%nat :: ?l) ?body) with (bind (body 0%nat) (λ _, for_each l body)).
  cbv beta. rewrite Hlast.
  change (for_each [0%nat] ?body) with (bind (body 0%nat) (λ _, @ret fade_state _ tt)).
  unfold bind at 1 2 3. rewrite fade_first_step.
  change (negb false) with true. cbv beta iota. unfold ret at 1. cbv beta iota.
  unfold emit at 1, modify. cbv beta iota.
  change (dicts {| dicts := [stored]; events := ?e |}) with [stored].
  change (events {| dicts := [stored]; events := ?e |}) with e.
  rewrite fade_later_steps by lia.
  change (flat_map ?g (0%nat :: ?l)) with (g 0%nat ++ flat_map g l)%list.
  cbv beta. rewrite Hlast. reflexivity.
Qed.

End LinearFade.

Lemma Qeq_bool_false (x y : Q) : ¬ (x == y)%Q → Qeq_bool x y = false.
Proof.
  intros Hne. destruct (Qeq_bool x y) eqn:Hb; [| reflexivity].
  apply Qeq_bool_iff in Hb. contradiction.
Qed.

(** The direct set reads the volume once, before any call. *)
Lemma set_directly_from_start (hass : list hass_event → string → option State)
    (key : volume_key) (d : media_player_dict) (start : State) :
  hass [] (entity_id d) = Some start →
  for_each [0%nat] (set_device_directly hass key) {| dicts := [d]; events := [] |}
  = for_each [0%nat] (set_device_directly (λ _ _, Some start) key)
      {| dicts := [d]; events := [] |}.
Proof.
  intros Hstart. simpl. unfold bind, set_device_directly, get_state, bind,
    current_volume_of. simpl. now rewrite Hstart.
Qed.

(** X8: the schedule of a fade is fixed when the fade starts. For one
    player that stays known to [hass] and is not at its target, what
    the fade sends, when it sleeps and what it stores depend on [hass]
    only through the volume read before the first call: two [hass]
    that agree then give the same run, whatever volumes they report
    while the fade goes on. *)
Theorem fade_schedule_fixed_at_start (TRANSITION_STEP_MS : Q)
    (hass hass' : list hass_event → string → option State) (key : volume_key)
    (d : media_player_dict) (start : State) (target fade_duration : Q) :
  hass [] (entity_id d) = Some start →
  hass' [] (entity_id d) = Some start →
  (∀ issued, is_Some (hass issued (entity_id d))) →
  (∀ issued, is_Some (hass' issued (entity_id d))) →
  target_of d key = Some target →
  ¬ (target == default 0 (volume_level start))%Q →
  ¬ (target == -1)%Q →
  async_set_volume_for_media_players TRANSITION_STEP_MS hass key fade_duration
    {| dicts := [d]; events := [] |}
  = async_set_volume_for_media_players TRANSITION_STEP_MS hass' key fade_duration
      {| dicts := [d]; events := [] |}.
Proof.
  intros Hstart Hstart' Hknown Hknown' Htarget Hmove Hset.
  apply Qeq_bool_false in Hmove, Hset.
  unfold async_set_volume_for_media_players, bind, get_state. cbv beta iota.
  change (length (dicts {| dicts := [d]; events := [] |})) with 1%nat.
  change (1 =? 0)%nat with false. cbv iota. change (seq 0 1) with [0%nat].
  assert (Hrun : ∀ fade_steps delay_s,
            (if (fade_steps =? 0)%Z then raise ZeroDivisionError
             else if (1 <? fade_steps)%Z
                  then for_each (seq 0 (Z.to_nat fade_steps))
                         (λ step,
                            bind (for_each [0%nat]
                                    (fade_device_step hass key (Z.to_nat fade_steps)
                                       step))
                              (λ _, if negb (step =? Z.to_nat fade_steps - 1)%nat
                                    then emit (Sleep delay_s) else ret tt))
                  else for_each [0%nat] (set_device_directly hass key))
              {| dicts := [d]; events := [] |}
            = (if (fade_steps =? 0)%Z then raise ZeroDivisionError
               else if (1 <? fade_steps)%Z
                    then for_each (seq 0 (Z.to_nat fade_steps))
                           (λ step,
                              bind (for_each [0%nat]
                                      (fade_device_step hass' key
                                         (Z.to_nat fade_steps) step))
                                (λ _, if negb (step =? Z.to_nat fade_steps - 1)%nat
                                      then emit (Sleep delay_s) else ret tt))
                    else for_each [0%nat] (set_device_directly hass' key))
                {| dicts := [d]; events := [] |}).
  { intros fade_steps delay_s.
    destruct (fade_steps =? 0)%Z; [reflexivity |].
    destruct (Z.ltb_spec 1 fade_steps) as [Hmany|Hone].
    - assert (Hn : (2 ≤ Z.to_nat fade_steps)%nat) by lia.
      etransitivity.
      + apply (fade_all_steps hass key d start target (Z.to_nat fade_steps)
                 Hstart Hknown Htarget Hmove Hset Hn).
      + symmetry.
        apply (fade_all_steps hass' key d start target (Z.to_nat fade_steps)
                 Hstart' Hknown' Htarget Hmove Hset Hn).
    - etransitivity.
      + apply (set_directly_from_start hass key d start Hstart).
      + symmetry. apply (set_directly_from_start hass' key d start Hstart'). }
  destruct (Qltb 0 (fade_duration / 1000));
    [destruct (Qeq_bool TRANSITION_STEP_MS 0); [reflexivity |] |];
    unfold ret at 1 3; cbv beta iota; apply Hrun.
Qed.

Lemma fade_schedule_fixed_at_start_witness :
  async_set_volume_for_media_players 500%Q steady_hass (Level (8 # 10)%Q) 1500%Q
    {| dicts := [kitchen]; events := [] |}
  = async_set_volume_for_media_players 500%Q following_hass (Level (8 # 10)%Q) 1500%Q
      {| dicts := [kitchen]; events := [] |}.
Proof.
  apply (fade_schedule_fixed_at_start 500%Q steady_hass following_hass
           (Level (8 # 10)%Q) kitchen
           {| state := "idle"; volume_level := Some (5 # 10)%Q |} (8 # 10)%Q 1500%Q).
  - reflexivity.
  - reflexivity.
  - intros issued. eexists. reflexivity.
  - intros issued. eexists. reflexivity.
  - reflexivity.
  - discriminate.
  - discriminate.
Defined.

Example fade_schedule_example :
  fade_schedule "media_player.kitchen" (5 # 10)%Q (8 # 10)%Q (5 # 10)%Q 3
  = [VolumeSet "media_player.kitchen" (6000 # 10000)%Q; Sleep (5 # 10)%Q;
     VolumeSet "media_player.kitchen" (7000 # 10000)%Q; Sleep (5 # 10)%Q;
     VolumeSet "media_player.kitchen" (8000 # 10000)%Q].
Proof. vm_compute. reflexivity. Qed.

(** ** More on the transcoder invoker *)

Section TranscoderExtras.
Context {frame content : Type}.
Variable env : collaborators frame content.

(** [if os.path.exists(p): os.remove(p)] leaves the file system without [p]. *)
Lemma remove_when_present (path : string) (w : gmap string content) :
  bind (os_path_exists path)
    (λ present, if present then os_remove path else ret tt) w
  = (Return tt, delete path w).
Proof.
  unfold bind, os_path_exists, os_remove, ret.
  case_bool_decide as Hp.
  - destruct Hp as [c Hp]. now rewrite Hp.
  - rewrite delete_id; [reflexivity |]. now apply eq_None_not_Some.
Qed.

Lemma remove_if_exists_deletes (path : string) (w : gmap string content) :
  path ≠ "" → remove_if_exists path w = (Return tt, delete path w).
Proof.
  intros Hne. unfold remove_if_exists.
  apply String.eqb_neq in Hne. rewrite Hne. change (negb false) with true.
  unfold bind, os_path_exists, try_except, os_remove, ret. cbv beta iota.
  case_bool_decide as Hp.
  - destruct Hp as [c Hp]. now rewrite Hp.
  - rewrite delete_id; [reflexivity |]. now apply eq_None_not_Some.
Qed.

(** The file system in which the transcoder starts has no file at the
    output path. *)
Lemma prepare_output_deletes (file_path ffmpeg_args q : string)
    (w : gmap string content) :
  computed_output_path file_path ffmpeg_args = Return q →
  prepare_output file_path ffmpeg_args w = (Return q, delete q w).
Proof.
  intros Hq. unfold prepare_output. unfold bind at 1. unfold lift. rewrite Hq.
  pose proof (remove_when_present q w) as Hr.
  unfold bind in *. destruct (os_path_exists q w) as [[present|e] w'].
  - destruct ((if present then os_remove q else ret tt) w') as [[[]|e] w''];
      [| discriminate]. now injection Hr as ->.
  - discriminate.
Qed.

Lemma ffmpeg_convert_from_file_start (file_path ffmpeg_args q : string)
    (w : gmap string content) :
  is_Some (w !! file_path) →
  computed_output_path file_path ffmpeg_args = Return q →
  ffmpeg_convert_from_file env file_path ffmpeg_args w
  = try_except (run_ffmpeg env file_path ffmpeg_args q)
      (λ _, ret (ConvPath file_path)) (delete q w).
Proof.
  intros Hex Hq. unfold ffmpeg_convert_from_file.
  unfold bind at 1. unfold os_path_exists.
  rewrite bool_decide_eq_true_2 by exact Hex. change (negb true) with false.
  cbv iota. unfold bind at 1. unfold try_except at 1.
  now rewrite (prepare_output_deletes _ _ q).
Qed.

(** X9: a transcoder run that exits with a code other than [0] fails
    soft. The conversion returns the segment it was given, the temp
    source file is deleted, and every other file is as the transcoder
    left it. *)
Theorem nonzero_exit_returns_original (audio : list frame)
    (ffmpeg_args folder temp q : string) (code : Z)
    (w w1 w2 : gmap string content) :
  audio ≠ [] → ffmpeg_args ≠ "" → folder ≠ "" →
  async_save_audio_to_folder env audio folder "temp_segment.mp3" w
    = (Return (Some temp), w1) →
  temp ≠ "" → is_Some (w1 !! temp) →
  computed_output_path temp ffmpeg_args = Return q →
  ffmpeg env (ffmpeg_command temp ffmpeg_args ++ [q])%list (delete q w1)
    = (Return code, w2) →
  code ≠ 0%Z →
  async_ffmpeg_convert_from_audio_segment env (Some audio) ffmpeg_args folder w
  = (Return (Some audio), delete temp w2).
Proof.
  intros Ha Hargs Hfolder Hsave Htemp Hex Hq Hrun Hcode.
  unfold async_ffmpeg_convert_from_audio_segment.
  destruct audio as [|x audio]; [congruence |].
  apply String.eqb_neq in Hargs, Hfolder. rewrite Hargs, Hfolder.
  change (false || false) with false. cbv iota.
  unfold bind at 1. rewrite Hsave. cbv beta iota.
  destruct temp as [|c temp]; [congruence |].
  unfold bind at 1.
  rewrite (ffmpeg_convert_from_file_start _ _ q) by assumption.
  unfold try_except, run_ffmpeg. unfold bind at 1. rewrite Hrun.
  apply Z.eqb_neq in Hcode. rewrite Hcode. change (negb false) with true.
  cbv beta iota. unfold ret at 1. cbv beta iota.
  unfold bind at 1. unfold ret at 1. cbv beta iota.
  unfold bind at 1. rewrite remove_if_exists_deletes by discriminate.
  reflexivity.
Qed.

(** X10: without a requested format the converted file takes the place
    of the input file. When the transcoder exits with code [0] and has
    written the file with the [_converted] suffix, the function returns
    the input path, the input path holds the converted content, and no
    file with the suffix is left. The transcoder was started without a
    file at the output path. *)
Theorem default_suffix_replaces_input (file_path ffmpeg_args : string)
    (converted : content) (w w2 : gmap string content) :
  let q := PyStr.replace ".mp3" "_converted.mp3" file_path in
  PyStr.contains ".mp3" file_path = true →
  is_Some (w !! file_path) →
  computed_output_path file_path ffmpeg_args = Return q →
  ffmpeg env (ffmpeg_command file_path ffmpeg_args ++ [q])%list (delete q w)
    = (Return 0%Z, w2) →
  w2 !! q = Some converted →
  ∃ files : gmap string content,
    ffmpeg_convert_from_file env file_path ffmpeg_args w
      = (Return (ConvPath file_path), files)
    ∧ files !! file_path = Some converted
    ∧ files !! q = None.
Proof.
  intros q Hmp3 Hex Hq Hrun Hout.
  assert (Hne : q ≠ file_path).
  { apply PyStrFacts.replace_changes; [discriminate | discriminate | exact Hmp3]. }
  exists (<[file_path := converted]> (delete q w2)). split; [| split].
  - rewrite (ffmpeg_convert_from_file_start _ _ q) by assumption.
    unfold try_except, run_ffmpeg. unfold bind at 1. fold q. rewrite Hrun.
    change (negb (0 =? 0)%Z) with false. cbv iota.
    rewrite String.eqb_refl.
    unfold try_except, bind, shutil_move, ret. cbv beta iota. now rewrite Hout.
  - apply lookup_insert_eq.
  - rewrite lookup_insert_ne by congruence. apply lookup_delete_eq.
Qed.

End TranscoderExtras.

Lemma nonzero_exit_returns_original_witness :
  async_ffmpeg_convert_from_audio_segment failing_transcoder
    (Some [1; 2; 3]%Z) "-f wav" "/tmp" ∅
  = (Return (Some [1; 2; 3]%Z),
     delete "/tmp/temp_segment.mp3"
       (<["/tmp/temp_segment.wav" := []]>
          (delete "/tmp/temp_segment.wav"
             (<["/tmp/temp_segment.mp3" := [1; 2; 3]%Z]> ∅)))).
Proof.
  apply (nonzero_exit_returns_original failing_transcoder [1; 2; 3]%Z "-f wav" "/tmp"
           "/tmp/temp_segment.mp3" "/tmp/temp_segment.wav" 1%Z ∅
           (<["/tmp/temp_segment.mp3" := [1; 2; 3]%Z]> ∅)).
  - discriminate.
  - discriminate.
  - discriminate.
  - reflexivity.
  - discriminate.
  - exists [1; 2; 3]%Z. reflexivity.
  - reflexivity.
  - reflexivity.
  - discriminate.
Defined.

Lemma default_suffix_replaces_input_witness :
  ∃ files : gmap string (list Z),
    ffmpeg_convert_from_file working_transcoder "/tmp/temp_segment.mp3"
      "-af atempo=0.5" (<["/tmp/temp_segment.mp3" := [1; 2]%Z]> ∅)
      = (Return (ConvPath "/tmp/temp_segment.mp3"), files)
    ∧ files !! "/tmp/temp_segment.mp3" = Some [1; 1; 2; 2]%Z
    ∧ files !! "/tmp/temp_segment_converted.mp3" = None.
Proof.
  apply (default_suffix_replaces_input working_transcoder "/tmp/temp_segment.mp3"
           "-af atempo=0.5" [1; 1; 2; 2]%Z
           (<["/tmp/temp_segment.mp3" := [1; 2]%Z]> ∅)
           (<["/tmp/temp_segment_converted.mp3" := [1; 1; 2; 2]%Z]>
              (<["/tmp/temp_segment.mp3" := [1; 2]%Z]> ∅))).
  - reflexivity.
  - exists [1; 2]%Z. reflexivity.
  - reflexivity.
  - vm_compute. reflexivity.
  - reflexivity.
Defined.

(** ** More on the tempo decomposition *)

Section TempoExtras.
Local Open Scope Q_scope.

(** What the loop returns lies in the range of the [atempo] filter:
    stages of one half and a residual from one half to below one. *)
Lemma atempo_loop_stages (fuel : nat) :
  ∀ (remaining : Q) (tempos out : list Q),
    atempo_loop fuel remaining tempos = Some out →
    remaining < half →
    ∃ (k : nat) (residual : Q),
      out = (tempos ++ replicate k half ++ [residual])%list
      ∧ half <= residual ∧ residual < 1.
Proof.
  induction fuel as [|fuel IH]; intros remaining tempos out Hloop Hlt.
  - simpl in Hloop. apply Qltb_true in Hlt. now rewrite Hlt in Hloop.
  - simpl in Hloop. apply Qltb_true in Hlt as Hb. rewrite Hb in Hloop.
    destruct (Qle_bool half (remaining / half)) eqn:Hres.
    + injection Hloop as <-. exists 0%nat, (remaining / half).
      split; [reflexivity |]. split; [now apply Qle_bool_iff |].
      assert (Hd : remaining / half == 2 * remaining) by (unfold half; field).
      rewrite Hd. unfold half in Hlt. lra.
    + assert (Hlt' : remaining / half < half).
      { apply Qltb_true. unfold Qltb. now rewrite Hres. }
      destruct (IH _ _ _ Hloop Hlt') as (k & residual & -> & Hge & Hone).
      exists (S k), residual. split; [| split; assumption].
      now rewrite <- app_assoc.
Qed.

End TempoExtras.

(** X11: for a tempo of at most [2] every stage lies between [0.5] and
    [2], the range of ffmpeg's [atempo] filter. Only slow tempos are
    split: a tempo above [2] stays one stage. *)
Theorem atempo_stages_within_range (tempo : Q) (tempos : list Q) :
  atempo_values tempo = Some tempos →
  ((tempo <= 2)%Q → Forall (λ stage, (half <= stage)%Q ∧ (stage <= 2)%Q) tempos)
  ∧ ((2 < tempo)%Q → tempos = [tempo]).
Proof.
  unfold atempo_values. intros Hv.
  destruct (Qltb tempo half) eqn:Hb.
  - apply Qltb_true in Hb.
    destruct (atempo_loop_stages _ _ _ _ Hv Hb) as (k & residual & -> & Hge & Hone).
    split.
    + intros _. apply Forall_app. split.
      * repeat constructor; unfold half; lra.
      * apply Forall_app. split.
        -- apply Forall_replicate. unfold half. split; lra.
        -- repeat constructor; [exact Hge | lra].
    + intros Hfast. exfalso. unfold half in Hb. lra.
  - apply Qltb_false in Hb. injection Hv as <-. split.
    + intros Hle. repeat constructor; assumption.
    + reflexivity.
Qed.

Lemma atempo_stages_within_range_witness :
  Forall (λ stage, (half <= stage)%Q ∧ (stage <= 2)%Q)
    [half; half; half; ((1 # 10) / half / half / half)%Q].
Proof.
  refine (proj1 (atempo_stages_within_range (1 # 10)%Q _ _) _).
  - reflexivity.
  - discriminate.
Defined.

(** X12: a speed from 1 to 500 percent other than 100 always gives a
    conversion: the tempo loop ends, the stages multiply to [speed/100],
    and the segment is converted with the argument string
    [-af atempo=<first>] followed by [,atempo=<stage>] for every further
    stage. From 50 percent on that is the single stage [speed/100]. *)
Theorem speed_change_builds_tempo_chain {frame content : Type}
    (env : collaborators frame content) (float_str : Q → string)
    (x : frame) (audio : list frame) (speed : Q) (temp_folder : string) :
  (1 <= speed)%Q → (speed <= 500)%Q → ¬ (speed == 100)%Q →
  ∃ (first : Q) (rest : list Q),
    atempo_values (speed / 100)%Q = Some (first :: rest)
    ∧ (Qproduct (first :: rest) == speed / 100)%Q
    ∧ ((50 <= speed)%Q → first = (speed / 100)%Q ∧ rest = [])
    ∧ async_change_speed_of_audiosegment env float_str (Some (x :: audio)) speed
        temp_folder
      = Some (async_ffmpeg_convert_from_audio_segment env (Some (x :: audio))
                ("-af atempo=" ++ float_str first ++ atempo_chain float_str rest)
                temp_folder).
Proof.
  intros Hlo Hhi Hne.
  assert (Hpos : (0 < speed / 100)%Q).
  { apply Qlt_shift_div_l; [reflexivity | lra]. }
  destruct (atempo_values_compose (speed / 100)%Q Hpos)
    as (tempos & Hv & Hprod & Hslow & Hfast).
  assert (Hcons : ∃ first rest, tempos = first :: rest).
  { destruct (Qlt_le_dec (speed / 100) half) as [Hs|Hf].
    - destruct (Hslow Hs) as (k & residual & -> & _). simpl. eauto.
    - rewrite (Hfast Hf). eauto. }
  destruct Hcons as (first & rest & ->).
  exists first, rest. split; [exact Hv |]. split; [exact Hprod |]. split.
  - intros H50.
    assert (Hf : (half <= speed / 100)%Q).
    { apply Qle_shift_div_l; [reflexivity |]. unfold half. lra. }
    specialize (Hfast Hf). now injection Hfast as -> ->.
  - unfold async_change_speed_of_audiosegment.
    rewrite (Qeq_bool_false _ _ Hne).
    assert (H1 : Qltb speed 1 = false) by now apply Qltb_false.
    assert (H2 : Qltb 500 speed = false) by now apply Qltb_false.
    rewrite H1, H2. simpl orb. cbv iota.
    unfold add_atempo_values_to_ffmpeg_args_string. rewrite Hv. simpl.
    unfold append_atempo_stages. simpl fold_left.
    fold (append_atempo_stages float_str rest (Some ("-af atempo=" ++ float_str first))).
    rewrite append_atempo_stages_some. simpl default.
    now rewrite append_assoc.
Qed.

Lemma speed_change_builds_tempo_chain_witness :
  ∃ (first : Q) (rest : list Q),
    atempo_values (150 / 100)%Q = Some (first :: rest)
    ∧ (Qproduct (first :: rest) == 150 / 100)%Q
    ∧ ((50 <= 150)%Q → first = (150 / 100)%Q ∧ rest = [])
    ∧ async_change_speed_of_audiosegment working_transcoder (λ _, "1.5")
        (Some [1; 2]%Z) 150%Q "/tmp"
      = Some (async_ffmpeg_convert_from_audio_segment working_transcoder
                (Some [1; 2]%Z)
                ("-af atempo=" ++ (λ _ : Q, "1.5") first
                 ++ atempo_chain (λ _ : Q, "1.5") rest)
                "/tmp").
Proof.
  apply (speed_change_builds_tempo_chain working_transcoder (λ _, "1.5")
           1%Z [2%Z] 150%Q "/tmp").
  - discriminate.
  - discriminate.
  - discriminate.
Defined.

(** X13: the speed change always ends, and it leaves the segment and
    the file system alone when there is nothing to do: for an absent or
    empty segment, for a speed of 100 percent, and for a speed below 1
    or above 500 percent, where the tempo loop would not be safe. *)
Theorem speed_change_guard {frame content : Type}
    (env : collaborators frame content) (float_str : Q → string)
    (audio_segment : option (list frame)) (speed : Q) (temp_folder : string) :
  is_Some (async_change_speed_of_audiosegment env float_str audio_segment speed
             temp_folder)
  ∧ (audio_segment = None ∨ audio_segment = Some []
     ∨ (speed == 100)%Q ∨ (speed < 1)%Q ∨ (500 < speed)%Q →
     async_change_speed_of_audiosegment env float_str audio_segment speed temp_folder
     = Some (ret audio_segment)).
Proof.
  assert (Hguard :
    audio_segment = None ∨ audio_segment = Some []
    ∨ (speed == 100)%Q ∨ (speed < 1)%Q ∨ (500 < speed)%Q →
    async_change_speed_of_audiosegment env float_str audio_segment speed temp_folder
    = Some (ret audio_segment)).
  { unfold async_change_speed_of_audiosegment.
    intros [->|[->|[H|[H|H]]]]; [reflexivity | reflexivity | | |].
    - apply Qeq_bool_iff in H. rewrite H. now rewrite orb_true_r.
    - apply Qltb_true in H. rewrite H. now rewrite orb_true_r.
    - apply Qltb_true in H. rewrite H. now rewrite orb_true_r. }
  split; [| exact Hguard].
  destruct audio_segment as [[|x audio]|];
    [rewrite Hguard by tauto; eauto | | rewrite Hguard by tauto; eauto].
  destruct (Qeq_dec speed 100) as [He|Hne];
    [rewrite Hguard by tauto; eauto |].
  destruct (Qlt_le_dec speed 1) as [Hlo|Hlo];
    [rewrite Hguard by tauto; eauto |].
  destruct (Qlt_le_dec 500 speed) as [Hhi|Hhi];
    [rewrite Hguard by tauto; eauto |].
  destruct (speed_change_builds_tempo_chain env float_str x audio speed temp_folder
              Hlo Hhi Hne) as (first & rest & _ & _ & _ & ->).
  eauto.
Qed.

Lemma speed_change_guard_witness :
  is_Some (async_change_speed_of_audiosegment working_transcoder (λ _, "0")
             (Some [1; 2]%Z) 0%Q "/tmp")
  ∧ async_change_speed_of_audiosegment working_transcoder (λ _, "0")
      (Some [1; 2]%Z) 0%Q "/tmp"
    = Some (ret (Some [1; 2]%Z)).
Proof.
  destruct (speed_change_guard working_transcoder (λ _, "0") (Some [1; 2]%Z) 0%Q "/tmp")
    as [Hends Hguard].
  split; [exact Hends |]. apply Hguard. right. right. right. left. reflexivity.
Defined.

(** ** More on the segment parser *)

Module DictFacts.

Lemma has_set (k k' : string) (v : yaml) (d : list (string * yaml)) :
  Dict.has k (Dict.set k' v d) = Dict.has k d || String.eqb k' k.
Proof.
  induction d as [|[a va] d IH]; simpl.
  - now rewrite orb_false_r.
  - destruct (String.eqb_spec a k') as [->|Hne]; simpl.
    + destruct (String.eqb k' k); simpl; [reflexivity | now rewrite orb_false_r].
    + fold (Dict.has k (Dict.set k' v d)). rewrite IH.
      fold (Dict.has k d). now rewrite orb_assoc.
Qed.

Lemma has_del_ne (k k' : string) (d : list (string * yaml)) :
  k ≠ k' → Dict.has k (Dict.del k' d) = Dict.has k d.
Proof.
  intros Hne. induction d as [|[a va] d IH]; simpl; [reflexivity |].
  destruct (String.eqb_spec a k') as [->|Ha]; simpl.
  - assert (Hk : String.eqb k' k = false) by (apply String.eqb_neq; congruence).
    now rewrite Hk.
  - fold (Dict.has k (Dict.del k' d)). fold (Dict.has k d). now rewrite IH.
Qed.

End DictFacts.

Section ParserExtras.
Variable QUOTE_CHAR_SUBSTITUTE : string.
Variable safe_load : string → result yaml.

Lemma convert_short_form_typed (elem elem' : list (string * yaml)) :
  convert_short_form QUOTE_CHAR_SUBSTITUTE elem = Return (elem', true) → typed elem'.
Proof.
  unfold convert_short_form, typed.
  destruct (Dict.has "type" elem) eqn:Ht; [now intros [= <-] |].
  destruct (Dict.has "chime" elem).
  { destruct (Dict.get "chime" elem) as [[]|]; try discriminate.
    intros [= <-]. rewrite DictFacts.has_del_ne by discriminate.
    rewrite !DictFacts.has_set. simpl. now rewrite orb_true_r. }
  destruct (Dict.has "tts" elem).
  { destruct (Dict.get "tts" elem) as [[]|]; try discriminate.
    intros [= <-]. rewrite DictFacts.has_del_ne by discriminate.
    rewrite !DictFacts.has_set. simpl. now rewrite orb_true_r. }
  destruct (Dict.has "delay" elem); [| discriminate].
  destruct (Dict.get "delay" elem); [| discriminate].
  intros [= <-]. rewrite DictFacts.has_del_ne by discriminate.
  rewrite !DictFacts.has_set. simpl. now rewrite orb_true_r.
Qed.

Lemma validate_typed (message_yaml converted : list yaml) :
  validate QUOTE_CHAR_SUBSTITUTE message_yaml = Return (converted, true) →
  Forall typed (as_dicts converted)
  ∧ length (as_dicts converted) = length message_yaml.
Proof.
  revert converted. induction message_yaml as [|elem rest IH]; intros converted.
  - simpl. intros [= <-]. split; [constructor | reflexivity].
  - simpl.
    destruct elem as [| | | | | |d]; try (destruct (validate _ rest) as [[? ?]|];
      [intros [= <- ?]; discriminate | discriminate]).
    destruct (convert_short_form QUOTE_CHAR_SUBSTITUTE d) as [[d' ok]|] eqn:Hc;
      [| discriminate].
    destruct (validate _ rest) as [[rest' ok']|] eqn:Hv; [| discriminate].
    intros [= <- Hok]. apply andb_true_iff in Hok as [-> ->].
    destruct (IH rest' eq_refl) as [Hall Hlen]. simpl. split.
    + constructor; [eapply convert_short_form_typed; eassumption | exact Hall].
    + now rewrite Hlen.
Qed.

Lemma lower_keys_typed (rest acc out : list (string * yaml)) :
  lower_keys rest acc = Return out →
  Dict.has "type" acc = true ∨ Dict.has "type" rest = true → typed out.
Proof.
  revert acc. induction rest as [|[key value] rest IH]; intros acc; simpl.
  - intros [= <-] [H|H]; [exact H | discriminate].
  - set (lowered := match value with
                    | YDict d => _
                    | other => Return other
                    end).
    destruct lowered as [value'|]; [| discriminate].
    intros Hrec Hor. eapply IH; [exact Hrec |].
    rewrite DictFacts.has_set.
    destruct Hor as [->|Hor]; [now left |].
    fold (Dict.has "type" rest) in Hor.
    destruct (String.eqb_spec key "type") as [->|Hk]; simpl in Hor.
    + left. now rewrite orb_true_r.
    + now right.
Qed.

Lemma rename_alias_typed (alias name : string) (segment : list (string * yaml)) :
  alias ≠ "type" → typed segment → typed (rename_alias alias name segment).
Proof.
  unfold rename_alias, typed. intros Hne Ht.
  destruct (Dict.get alias segment) as [v|]; [| exact Ht].
  destruct (truthy v); [| exact Ht].
  rewrite DictFacts.has_del_ne by congruence.
  rewrite DictFacts.has_set, Ht. reflexivity.
Qed.

Lemma repeat_count_pos (segment : list (string * yaml)) :
  (1 ≤ repeat_count segment)%nat.
Proof.
  unfold repeat_count. destruct (Dict.get "repeat" segment) as [[]|]; lia.
Qed.

Lemma final_adjustments_typed (segments out : list (list (string * yaml))) :
  final_adjustments segments = Return out →
  Forall typed segments →
  Forall typed out ∧ (length segments ≤ length out)%nat.
Proof.
  revert out. induction segments as [|segment_n rest IH]; intros out; simpl.
  - intros [= <-] _. split; [constructor | reflexivity].
  - destruct (lower_keys segment_n []) as [segment|] eqn:Hl; [| discriminate].
    destruct (final_adjustments rest) as [final_segments|]; [| discriminate].
    intros [= <-] Hall. apply Forall_cons in Hall as [Hseg Hrest].
    destruct (IH final_segments eq_refl Hrest) as [Hout Hlen].
    set (renamed := rename_alias "pitch" "tts_pitch"
                      (rename_alias "speed" "tts_speed" segment)).
    assert (Hty : typed renamed).
    { apply rename_alias_typed; [discriminate |].
      apply rename_alias_typed; [discriminate |].
      eapply lower_keys_typed; [exact Hl | now right]. }
    split.
    + apply Forall_app. split; [| exact Hout].
      apply Forall_replicate. exact Hty.
    + rewrite length_app, length_replicate.
      pose proof (repeat_count_pos renamed). lia.
Qed.

(** The segments that the final adjustments start from. *)
Lemma parse_message_segments (message_string : string)
    (out : list (list (string * yaml))) :
  parse_message QUOTE_CHAR_SUBSTITUTE safe_load message_string = Return out →
  out = []
  ∨ ∃ segments,
      segments ≠ [] ∧ Forall typed segments
      ∧ final_adjustments segments = Return out.
Proof.
  unfold parse_message.
  destruct (_ || _); [intros [= <-]; now left |].
  rewrite contains_keys_true.
  set (fallback := [[("type", YStr "tts"); ("message", YStr _)]]).
  assert (Hfb : ∀ out, final_adjustments fallback = Return out →
                       ∃ segments, segments ≠ [] ∧ Forall typed segments
                                   ∧ final_adjustments segments = Return out).
  { intros o Ho. exists fallback. split; [discriminate |].
    split; [| exact Ho]. repeat constructor. }
  destruct (convert_yaml_str _ _ _) as [| | | | |message_yaml|];
    try (intros Ho; right; now apply Hfb).
  destruct (validate _ message_yaml) as [[converted [|]]|] eqn:Hv;
    [| intros Ho; right; now apply Hfb | discriminate].
  destruct (validate_typed _ _ Hv) as [Hall Hlen].
  destruct (as_dicts converted) as [|seg segs] eqn:Hd.
  - intros Ho. right. now apply Hfb.
  - intros Ho. right. exists (seg :: segs). split; [discriminate |].
    split; [exact Hall | exact Ho].
Qed.

End ParserExtras.

(** X14: every segment that [parse_message] returns has a [type] entry,
    whether it was written in the long form, converted from the short
    form or made from the whole message. *)
Theorem parsed_segments_have_type (QUOTE_CHAR_SUBSTITUTE : string)
    (safe_load : string → result yaml) (message_string : string)
    (out : list (list (string * yaml))) :
  parse_message QUOTE_CHAR_SUBSTITUTE safe_load message_string = Return out →
  Forall (λ segment, Dict.has "type" segment = true) out.
Proof.
  intros Hp. destruct (parse_message_segments _ _ _ _ Hp) as [->|(segs & _ & Hty & Hf)].
  - constructor.
  - now apply (final_adjustments_typed segs out Hf).
Qed.

Lemma parsed_segments_have_type_witness :
  Forall (λ segment, Dict.has "type" segment = true)
    [[("type", YStr "tts"); ("message", YStr "Don't")]].
Proof.
  apply (parsed_segments_have_type example_substitute example_safe_load
           "[{'tts': 'Don\'t'}]").
  reflexivity.
Defined.

(** X15: a message that is neither empty nor the text [None] never
    parses to an empty list: [parse_message] returns at least one
    segment, or raises. *)
Theorem parsed_message_is_not_empty (QUOTE_CHAR_SUBSTITUTE : string)
    (safe_load : string → result yaml) (message_string : string)
    (out : list (list (string * yaml))) :
  parse_message QUOTE_CHAR_SUBSTITUTE safe_load message_string = Return out →
  remove_niqqud message_string ≠ "" → remove_niqqud message_string ≠ "None" →
  out ≠ [].
Proof.
  intros Hp He Hn.
  assert (Hsegs : ∃ segs, segs ≠ [] ∧ Forall typed segs
                          ∧ final_adjustments segs = Return out).
  { destruct (parse_message_segments _ _ _ _ Hp) as [->|H]; [| exact H].
    exfalso. unfold parse_message in Hp.
    apply String.eqb_neq in He, Hn. rewrite He, Hn in Hp. simpl in Hp.
    set (fallback := [[("type", YStr "tts"); ("message", YStr _)]]) in Hp.
    assert (Hlen : ∀ segs, segs ≠ [] → final_adjustments segs ≠ Return []).
    { intros segs Hne Hf.
      destruct segs as [|seg segs]; [congruence |]. simpl in Hf.
      destruct (lower_keys seg []) as [l|]; [| discriminate].
      destruct (final_adjustments segs) as [rest|]; [| discriminate].
      injection Hf as Hf. apply (f_equal length) in Hf.
      rewrite length_app, length_replicate in Hf. simpl in Hf.
      pose proof (repeat_count_pos
                    (rename_alias "pitch" "tts_pitch"
                       (rename_alias "speed" "tts_speed" l))). lia. }
    destruct (convert_yaml_str _ _ _) as [| | | | |message_yaml|];
      try (now apply (Hlen fallback)).
    destruct (validate _ message_yaml) as [[converted [|]]|];
      [| now apply (Hlen fallback) | discriminate].
    destruct (as_dicts converted) as [|seg segs];
      [now apply (Hlen fallback) | now apply (Hlen (seg :: segs))]. }
  destruct Hsegs as (segs & Hne & Hty & Hf).
  destruct (final_adjustments_typed segs out Hf Hty) as [_ Hlen].
  intros ->. destruct segs; [congruence | simpl in Hlen; lia].
Qed.

Lemma parsed_message_is_not_empty_witness :
  [[("type", YStr "tts"); ("message", YStr "hello")]] ≠ [].
Proof.
  apply (parsed_message_is_not_empty example_substitute example_safe_load "hello").
  - reflexivity.
  - discriminate.
  - discriminate.
Defined.

(** X16: a message that the YAML decoder rejects, or decodes to
    something that is not a list, becomes one [tts] segment that speaks
    the whole message. *)
Theorem undecodable_message_is_spoken (QUOTE_CHAR_SUBSTITUTE : string)
    (safe_load : string → result yaml) (message_string : string) :
  remove_niqqud message_string ≠ "" → remove_niqqud message_string ≠ "None" →
  (∀ items,
     safe_load (escape_quotes QUOTE_CHAR_SUBSTITUTE (remove_niqqud message_string))
     ≠ Return (YList items)) →
  parse_message QUOTE_CHAR_SUBSTITUTE safe_load message_string
  = Return [[("type", YStr "tts");
             ("message", YStr (remove_niqqud message_string))]].
Proof.
  intros He Hn Hload. unfold parse_message.
  apply String.eqb_neq in He, Hn. rewrite He, Hn. simpl orb. cbv iota.
  rewrite contains_keys_true. unfold convert_yaml_str. rewrite He.
  destruct (safe_load _) as [[| | | | |items|]|] eqn:Hl; try reflexivity.
  now specialize (Hload items).
Qed.

Lemma undecodable_message_is_spoken_witness :
  parse_message example_substitute example_safe_load "Dinner: it's ready"
  = Return [[("type", YStr "tts");
             ("message", YStr (remove_niqqud "Dinner: it's ready"))]].
Proof.
  apply (undecodable_message_is_spoken example_substitute example_safe_load
           "Dinner: it's ready").
  - discriminate.
  - discriminate.
  - intros items. discriminate.
Defined.

(** ** Quotes on the way to the decoder *)

Section QuoteFacts.

Lemma prefix_nil (s : string) : String.prefix "" s = true.
Proof. now destruct s. Qed.

Lemma prefix_cons (a : ascii) (p : string) (c : ascii) (s : string) :
  String.prefix (String a p) (String c s)
  = if ascii_dec a c then String.prefix p s else false.
Proof. reflexivity. Qed.

Lemma quote_step_quote (s : string) :
  PyStr.replace_skip "'" "\'" 0 (String "'" s)
  = String "\" (String "'" (PyStr.replace_skip "'" "\'" 0 s)).
Proof.
  change (PyStr.replace_skip "'" "\'" 0 (String "'" s))
    with (if String.prefix "'" (String "'" s)
          then "\'" ++ PyStr.replace_skip "'" "\'" 0 s
          else String "'" (PyStr.replace_skip "'" "\'" 0 s)).
  rewrite prefix_cons, prefix_nil. reflexivity.
Qed.

Lemma quote_step_other (c : ascii) (s : string) :
  c ≠ "'"%char →
  PyStr.replace_skip "'" "\'" 0 (String c s)
  = String c (PyStr.replace_skip "'" "\'" 0 s).
Proof.
  intros Hc.
  change (PyStr.replace_skip "'" "\'" 0 (String c s))
    with (if String.prefix "'" (String c s)
          then "\'" ++ PyStr.replace_skip "'" "\'" 0 s
          else String c (PyStr.replace_skip "'" "\'" 0 s)).
  rewrite prefix_cons.
  destruct (ascii_dec "'" c); [congruence | reflexivity].
Qed.

Lemma quote_step_head (s t : string) :
  PyStr.replace_skip "'" "\'" 0 s ≠ String "'" t.
Proof.
  destruct s as [|c s]; [discriminate |].
  destruct (ascii_dec c "'") as [->|Hc].
  - rewrite quote_step_quote. discriminate.
  - rewrite quote_step_other by exact Hc. congruence.
Qed.

Lemma unquote_step_pair (s : string) :
  PyStr.replace_skip "\'" "'" 0 (String "\" (String "'" s))
  = String "'" (PyStr.replace_skip "\'" "'" 0 s).
Proof.
  change (PyStr.replace_skip "\'" "'" 0 (String "\" (String "'" s)))
    with (if String.prefix "\'" (String "\" (String "'" s))
          then "'" ++ PyStr.replace_skip "\'" "'" 0 s
          else String "\" (PyStr.replace_skip "\'" "'" 0 (String "'" s))).
  rewrite !prefix_cons, prefix_nil. reflexivity.
Qed.

Lemma unquote_step_other (c : ascii) (s : string) :
  String.prefix "\'" (String c s) = false →
  PyStr.replace_skip "\'" "'" 0 (String c s)
  = String c (PyStr.replace_skip "\'" "'" 0 s).
Proof.
  intros Hp.
  change (PyStr.replace_skip "\'" "'" 0 (String c s))
    with (if String.prefix "\'" (String c s)
          then "'" ++ PyStr.replace_skip "\'" "'" 1 s
          else String c (PyStr.replace_skip "\'" "'" 0 s)).
  now rewrite Hp.
Qed.

Lemma prefix_pair (a b c : ascii) (s : string) :
  String.prefix (String a (String b "")) (String c s) = true →
  a = c ∧ ∃ t, s = String b t.
Proof.
  rewrite prefix_cons.
  destruct (ascii_dec a c) as [->|]; [| discriminate].
  destruct s as [|d s]; [discriminate |].
  rewrite prefix_cons.
  destruct (ascii_dec b d) as [->|]; [| discriminate].
  intros _. split; [reflexivity | now exists s].
Qed.

Lemma quote_round_trip (s : string) :
  PyStr.replace_skip "\'" "'" 0 (PyStr.replace_skip "'" "\'" 0 s) = s.
Proof.
  induction s as [|c s IH]; [reflexivity |].
  destruct (ascii_dec c "'") as [->|Hc].
  - rewrite quote_step_quote, unquote_step_pair. now rewrite IH.
  - rewrite quote_step_other by exact Hc.
    rewrite unquote_step_other; [now rewrite IH |].
    destruct (String.prefix "\'" (String c _)) eqn:Hp; [| reflexivity].
    apply prefix_pair in Hp as [_ [t Ht]].
    now apply quote_step_head in Ht.
Qed.

Lemma quote_step_no_double (s : string) :
  PyStr.contains "\'" s = false →
  PyStr.contains "\\'" (PyStr.replace_skip "'" "\'" 0 s) = false.
Proof.
  induction s as [|c s IH]; [reflexivity |].
  rewrite PyStrFacts.contains_cons. intros Hc.
  apply orb_false_iff in Hc as [Hp Hs]. specialize (IH Hs).
  destruct (ascii_dec c "'") as [->|Hq].
  - rewrite quote_step_quote.
    rewrite PyStrFacts.contains_cons.
    rewrite !prefix_cons. simpl. exact IH.
  - rewrite quote_step_other by exact Hq.
    rewrite PyStrFacts.contains_cons, IH, orb_false_r.
    destruct (String.prefix "\\'" (String c _)) eqn:Hpp; [| reflexivity].
    exfalso. revert Hpp. rewrite prefix_cons.
    destruct (ascii_dec "\" c) as [<-|]; [| discriminate].
    destruct s as [|d s]; [discriminate |].
    destruct (ascii_dec d "'") as [->|Hd].
    + rewrite !prefix_cons, prefix_nil in Hp. discriminate Hp.
    + rewrite quote_step_other by exact Hd. intros Hpp.
      apply prefix_pair in Hpp as [_ [t Ht]].
      now apply quote_step_head in Ht.
Qed.
Lemma is_niqqud_high (c1 c2 : ascii) :
  is_niqqud c1 c2 = true → (128 ≤ nat_of_ascii c1)%nat.
Proof.
  unfold is_niqqud. intros H.
  apply orb_true_iff in H as [H|H];
    apply andb_true_iff in H as [H _]; apply andb_true_iff in H as [H _];
    apply Nat.eqb_eq in H; lia.
Qed.

End QuoteFacts.

(** X17: a message in which no quote follows a backslash reaches the
    YAML decoder as it was written, whatever the quote substitute: the
    three replacements of [convert_yaml_str] cancel out. *)
Theorem unescaped_quotes_pass_through (QUOTE_CHAR_SUBSTITUTE yaml_string : string) :
  PyStr.contains "\'" yaml_string = false →
  escape_quotes QUOTE_CHAR_SUBSTITUTE yaml_string = yaml_string.
Proof.
  intros H. unfold escape_quotes.
  change (PyStr.replace "'" "\'" yaml_string)
    with (PyStr.replace_skip "'" "\'" 0 yaml_string).
  change (PyStr.replace "\\'" QUOTE_CHAR_SUBSTITUTE
            (PyStr.replace_skip "'" "\'" 0 yaml_string))
    with (PyStr.replace_skip "\\'" QUOTE_CHAR_SUBSTITUTE 0
            (PyStr.replace_skip "'" "\'" 0 yaml_string)).
  rewrite (replace_skip_absent "\\'" QUOTE_CHAR_SUBSTITUTE);
    [| discriminate | now apply quote_step_no_double].
  apply quote_round_trip.
Qed.

Lemma unescaped_quotes_pass_through_witness :
  escape_quotes example_substitute "[{'tts': 'it is \six o'clock'}]"
  = "[{'tts': 'it is \six o'clock'}]".
Proof.
  apply (unescaped_quotes_pass_through example_substitute
           "[{'tts': 'it is \six o'clock'}]").
  reflexivity.
Defined.

(** X18: [remove_niqqud] leaves a message of ASCII characters as it is. *)
Theorem ascii_message_keeps_its_text (message_text : string) :
  ascii_only message_text = true → remove_niqqud message_text = message_text.
Proof.
  induction message_text as [|c1 rest IH]; [reflexivity |].
  simpl ascii_only. intros H. apply andb_true_iff in H as [Hc Hr].
  destruct rest as [|c2 rest']; [reflexivity |].
  change (remove_niqqud (String c1 (String c2 rest')))
    with (if is_niqqud c1 c2 then remove_niqqud rest'
          else String c1 (remove_niqqud (String c2 rest'))).
  destruct (is_niqqud c1 c2) eqn:Hn.
  - apply is_niqqud_high in Hn. apply Nat.ltb_lt in Hc. lia.
  - now rewrite IH.
Qed.

Lemma ascii_message_keeps_its_text_witness :
  remove_niqqud "Dinner is ready" = "Dinner is ready".
Proof.
  apply (ascii_message_keeps_its_text "Dinner is ready"). reflexivity.
Defined.

(** ** TTS platform selection *)

Section TtsFacts.
Variable NABU_CASA_CLOUD_TTS_OLD : string.
Variable NABU_CASA_CLOUD_TTS : string.
Variable GOOGLE_TRANSLATE : string.

Lemma find_eqb_In (x : string) (l : list string) :
  In x l → List.find (String.eqb x) l = Some x.
Proof.
  induction l as [|y l IH]; simpl; [tauto |].
  destruct (String.eqb_spec x y) as [->|Hne]; [reflexivity |].
  intros [->|Hin]; [congruence | now apply IH].
Qed.

Lemma providers_installed (hass : tts_hass) (p : string) :
  In p (tts_manager_providers hass) → In p (get_installed_tts_platforms hass).
Proof. intros H. unfold get_installed_tts_platforms. apply in_or_app. now left. Qed.

Lemma default_platform_origin (hass : tts_hass) (d : option string) (r : string) :
  get_default_tts_platform hass d = Some r →
  In r (tts_manager_providers hass) ∨ (d = Some r ∧ states_get hass r = true).
Proof.
  unfold get_default_tts_platform.
  destruct (tts_manager_providers hass) as [|first rest] eqn:Hp; [discriminate |].
  destruct d as [default|]; [| intros [= <-]; left; now left].
  destruct (String.length default =? 0)%nat; [intros [= <-]; left; now left |].
  destruct (existsb _ _) eqn:Hex.
  - simpl. intros [= <-]. left.
    apply existsb_exists in Hex as (x & Hin & Heq).
    apply String.eqb_eq in Heq. now subst x.
  - destruct (states_get hass default) eqn:Hs; simpl.
    + intros [= <-]. now right.
    + intros [= <-]. left. now left.
Qed.

Lemma default_platform_some (hass : tts_hass) (d : option string) :
  tts_manager_providers hass ≠ [] → is_Some (get_default_tts_platform hass d).
Proof.
  unfold get_default_tts_platform.
  destruct (tts_manager_providers hass) as [|first rest]; [congruence |].
  intros _. destruct d as [default|]; [| eauto].
  destruct (String.length default =? 0)%nat; [eauto |].
  destruct (_ || _); eauto.
Qed.

End TtsFacts.

(** X19: a requested platform or entity that is installed is the one
    that is used, unless it is the deprecated Nabu Casa name. *)
Theorem installed_platform_is_used (NABU_CASA_CLOUD_TTS_OLD NABU_CASA_CLOUD_TTS
    GOOGLE_TRANSLATE : string) (hass : tts_hass) (tts_platform : string)
    (default_tts_platform : option string) :
  In tts_platform (get_installed_tts_platforms hass) →
  PyStr.lower tts_platform ≠ NABU_CASA_CLOUD_TTS_OLD →
  get_tts_platform NABU_CASA_CLOUD_TTS_OLD NABU_CASA_CLOUD_TTS GOOGLE_TRANSLATE
    hass tts_platform default_tts_platform
  = Some tts_platform.
Proof.
  intros Hin Hold. unfold get_tts_platform.
  apply String.eqb_neq in Hold. rewrite Hold.
  now rewrite (find_eqb_In _ _ Hin).
Qed.

Lemma installed_platform_is_used_witness :
  get_tts_platform "cloudsay" "cloud" "google_translate"
    {| tts_manager_providers := ["google_translate"];
       states_async_all := ["light.hall"; "tts.piper"];
       states_get := λ _, false |}
    "tts.piper" None
  = Some "tts.piper".
Proof.
  apply installed_platform_is_used.
  - simpl. tauto.
  - discriminate.
Defined.

(** X20: with at least one provider registered with the TTS manager the
    selection always names a platform: it does not return [False],
    whatever was requested and whatever the default is. *)
Theorem platform_found_when_provider_installed (NABU_CASA_CLOUD_TTS_OLD
    NABU_CASA_CLOUD_TTS GOOGLE_TRANSLATE : string) (hass : tts_hass)
    (tts_platform : string) (default_tts_platform : option string) :
  tts_manager_providers hass ≠ [] →
  is_Some (get_tts_platform NABU_CASA_CLOUD_TTS_OLD NABU_CASA_CLOUD_TTS
             GOOGLE_TRANSLATE hass tts_platform default_tts_platform).
Proof.
  intros Hp. pose proof (default_platform_some hass default_tts_platform Hp) as Hd.
  unfold get_tts_platform.
  destruct (String.eqb _ NABU_CASA_CLOUD_TTS_OLD); [eauto |].
  destruct (List.find (String.eqb tts_platform) _); [eauto |].
  destruct (PyStr.contains "google" tts_platform); [| exact Hd].
  destruct (if String.prefix "tts." tts_platform then _ else _); [eauto |].
  destruct (existsb _ _); [eauto | exact Hd].
Qed.

Lemma platform_found_when_provider_installed_witness :
  is_Some (get_tts_platform "cloudsay" "cloud" "google_translate"
             {| tts_manager_providers := ["picotts"];
                states_async_all := [];
                states_get := λ _, false |}
             "tts.google_en_com" (Some "piper")).
Proof.
  apply platform_found_when_provider_installed. discriminate.
Defined.

(** X21: the selection makes up no name. What it returns is the Nabu
    Casa name for the deprecated one, an installed platform or entity,
    the Google Translate name when an installed platform is spelled like
    it, or the configured default when [hass] has a state for it. *)
Theorem selected_platform_origin (NABU_CASA_CLOUD_TTS_OLD NABU_CASA_CLOUD_TTS
    GOOGLE_TRANSLATE : string) (hass : tts_hass) (tts_platform : string)
    (default_tts_platform : option string) (selected : string) :
  get_tts_platform NABU_CASA_CLOUD_TTS_OLD NABU_CASA_CLOUD_TTS GOOGLE_TRANSLATE
    hass tts_platform default_tts_platform
  = Some selected →
  (selected = NABU_CASA_CLOUD_TTS
   ∧ PyStr.lower tts_platform = NABU_CASA_CLOUD_TTS_OLD)
  ∨ In selected (get_installed_tts_platforms hass)
  ∨ (selected = GOOGLE_TRANSLATE
     ∧ ∃ installed, In installed (get_installed_tts_platforms hass)
                    ∧ PyStr.lower installed = GOOGLE_TRANSLATE)
  ∨ (default_tts_platform = Some selected ∧ states_get hass selected = true).
Proof.
  assert (Hdef : get_default_tts_platform hass default_tts_platform = Some selected →
                 In selected (get_installed_tts_platforms hass)
                 ∨ (default_tts_platform = Some selected
                    ∧ states_get hass selected = true)).
  { intros H. apply default_platform_origin in H as [H|H]; [left | now right].
    now apply providers_installed. }
  unfold get_tts_platform.
  destruct (String.eqb_spec (PyStr.lower tts_platform) NABU_CASA_CLOUD_TTS_OLD)
    as [Hold|_]; [intros [= <-]; now left |].
  destruct (List.find (String.eqb tts_platform) _) as [p|] eqn:Hfind.
  { intros [= <-]. right. left. now apply find_some in Hfind as [Hin _]. }
  destruct (PyStr.contains "google" tts_platform);
    [| intros H; right; destruct (Hdef H); tauto].
  destruct (if String.prefix "tts." tts_platform then _ else _) as [p|] eqn:Hg.
  { intros [= <-]. right. left.
    destruct (String.prefix "tts." tts_platform); [| discriminate].
    now apply find_some in Hg as [Hin _]. }
  destruct (existsb _ _) eqn:Hex.
  - intros [= <-]. right. right. left. split; [reflexivity |].
    apply existsb_exists in Hex as (x & Hin & Heq).
    apply String.eqb_eq in Heq. now exists x.
  - intros H. right. destruct (Hdef H); tauto.
Qed.

Lemma selected_platform_origin_witness :
  ("google_translate" = "cloud" ∧ PyStr.lower "google_say" = "cloudsay")
  ∨ In "google_translate"
       (get_installed_tts_platforms
          {| tts_manager_providers := ["Google_Translate"];
             states_async_all := [];
             states_get := λ _, false |})
  ∨ ("google_translate" = "google_translate"
     ∧ ∃ installed,
         In installed
            (get_installed_tts_platforms
               {| tts_manager_providers := ["Google_Translate"];
                  states_async_all := [];
                  states_get := λ _, false |})
         ∧ PyStr.lower installed = "google_translate")
  ∨ (None = Some "google_translate" ∧ false = true).
Proof.
  apply (selected_platform_origin "cloudsay" "cloud" "google_translate"
           {| tts_manager_providers := ["Google_Translate"];
              states_async_all := [];
              states_get := λ _, false |}
           "google_say" None "google_translate").
  reflexivity.
Defined.

(** ** Media player platforms *)

Section PlatformFacts.
Variable ALEXA_MEDIA_PLAYER_PLATFORM : string.
Variable SONOS_PLATFORM : string.
Variable SPOTIFY_PLATFORM : string.
Variable entity_registry : list registry_entry.

Lemma alexa_count_from (entity_ids : list string) (start : nat) :
  fold_left (λ ret_val entity_id,
               if get_is_media_player_alexa ALEXA_MEDIA_PLAYER_PLATFORM
                    entity_registry entity_id
               then ret_val + 1 else ret_val)%nat
            entity_ids start
  = (start
     + length (List.filter (get_is_media_player_alexa ALEXA_MEDIA_PLAYER_PLATFORM
                              entity_registry) entity_ids))%nat.
Proof.
  revert start. induction entity_ids as [|entity_id rest IH]; intros start; simpl.
  - lia.
  - rewrite IH. destruct (get_is_media_player_alexa _ _ entity_id); simpl; lia.
Qed.

End PlatformFacts.

(** X22: when the three platform names of [const.py] differ from each
    other, every entity id is of exactly one kind: standard, Alexa,
    Sonos or Spotify. *)
Theorem media_player_has_one_kind (ALEXA_MEDIA_PLAYER_PLATFORM SONOS_PLATFORM
    SPOTIFY_PLATFORM : string) (entity_registry : list registry_entry)
    (entity_id : string) :
  ALEXA_MEDIA_PLAYER_PLATFORM ≠ SONOS_PLATFORM →
  ALEXA_MEDIA_PLAYER_PLATFORM ≠ SPOTIFY_PLATFORM →
  SONOS_PLATFORM ≠ SPOTIFY_PLATFORM →
  (Nat.b2n (get_is_standard_media_player ALEXA_MEDIA_PLAYER_PLATFORM SONOS_PLATFORM
              SPOTIFY_PLATFORM entity_registry entity_id)
   + Nat.b2n (get_is_media_player_alexa ALEXA_MEDIA_PLAYER_PLATFORM
                entity_registry entity_id)
   + Nat.b2n (get_is_media_player_sonos SONOS_PLATFORM entity_registry entity_id)
   + Nat.b2n (get_is_media_player_spotify SPOTIFY_PLATFORM entity_registry entity_id)
   = 1)%nat.
Proof.
  intros Has Hap Hsp.
  unfold get_is_standard_media_player, get_is_media_player_alexa,
    get_is_media_player_sonos, get_is_media_player_spotify.
  set (platform := PyStr.lower _).
  destruct (String.eqb_spec platform ALEXA_MEDIA_PLAYER_PLATFORM) as [Ha|Ha];
    destruct (String.eqb_spec platform SONOS_PLATFORM) as [Hs|Hs];
    destruct (String.eqb_spec platform SPOTIFY_PLATFORM) as [Hp|Hp];
    simpl; try reflexivity; congruence.
Qed.

Lemma media_player_has_one_kind_witness :
  (Nat.b2n (get_is_standard_media_player "alexa_media" "sonos" "spotify"
              [{| reg_entity_id := "media_player.den"; reg_platform := "Sonos";
                  reg_device_id := None |}] "media_player.den")
   + Nat.b2n (get_is_media_player_alexa "alexa_media"
                [{| reg_entity_id := "media_player.den"; reg_platform := "Sonos";
                    reg_device_id := None |}] "media_player.den")
   + Nat.b2n (get_is_media_player_sonos "sonos"
                [{| reg_entity_id := "media_player.den"; reg_platform := "Sonos";
                    reg_device_id := None |}] "media_player.den")
   + Nat.b2n (get_is_media_player_spotify "spotify"
                [{| reg_entity_id := "media_player.den"; reg_platform := "Sonos";
                    reg_device_id := None |}] "media_player.den")
   = 1)%nat.
Proof.
  apply media_player_has_one_kind; discriminate.
Defined.

(** X23: an entity id that the registry does not hold is read as the
    platform text [none]. It is a standard media player as long as none
    of the three platform names is that text. *)
Theorem unregistered_player_is_standard (ALEXA_MEDIA_PLAYER_PLATFORM SONOS_PLATFORM
    SPOTIFY_PLATFORM : string) (entity_registry : list registry_entry)
    (entity_id : string) :
  Forall (λ entity, reg_entity_id entity ≠ entity_id) entity_registry →
  ALEXA_MEDIA_PLAYER_PLATFORM ≠ "none" → SONOS_PLATFORM ≠ "none" →
  SPOTIFY_PLATFORM ≠ "none" →
  get_is_standard_media_player ALEXA_MEDIA_PLAYER_PLATFORM SONOS_PLATFORM
    SPOTIFY_PLATFORM entity_registry entity_id = true.
Proof.
  intros Hreg Ha Hs Hp.
  assert (Hnone : get_media_player_platform entity_registry entity_id = None).
  { unfold get_media_player_platform.
    induction Hreg as [|entity rest Hne _ IH]; [reflexivity |]. simpl.
    apply String.eqb_neq in Hne. rewrite Hne. exact IH. }
  unfold get_is_standard_media_player, get_is_media_player_alexa,
    get_is_media_player_sonos, get_is_media_player_spotify.
  rewrite Hnone.
  change (PyStr.lower (py_str None)) with "none".
  apply not_eq_sym, String.eqb_neq in Ha, Hs, Hp.
  now rewrite Ha, Hs, Hp.
Qed.

Lemma unregistered_player_is_standard_witness :
  get_is_standard_media_player "alexa_media" "sonos" "spotify"
    [{| reg_entity_id := "media_player.den"; reg_platform := "sonos";
        reg_device_id := None |}] "media_player.attic" = true.
Proof.
  apply unregistered_player_is_standard.
  - repeat constructor. discriminate.
  - discriminate.
  - discriminate.
  - discriminate.
Defined.

(** X24: the Alexa count is the number of listed ids, repetitions
    included, that are Alexa players. It is [0] exactly when none is,
    and the length of the list exactly when all are. *)
Theorem alexa_count_bounds (ALEXA_MEDIA_PLAYER_PLATFORM : string)
    (entity_registry : list registry_entry) (entity_ids : list string) :
  let alexa := get_is_media_player_alexa ALEXA_MEDIA_PLAYER_PLATFORM entity_registry in
  let count := get_alexa_media_player_count ALEXA_MEDIA_PLAYER_PLATFORM
                 entity_registry entity_ids in
  count = length (List.filter alexa entity_ids)
  ∧ (count = 0%nat ↔ forallb (λ entity_id, negb (alexa entity_id)) entity_ids = true)
  ∧ (count = length entity_ids ↔ forallb alexa entity_ids = true).
Proof.
  intros alexa count. subst count. unfold get_alexa_media_player_count.
  rewrite alexa_count_from. fold alexa. simpl Nat.add.
  split; [reflexivity |].
  induction entity_ids as [|entity_id rest [IH0 IHn]]; simpl.
  - split; split; reflexivity.
  - pose proof (List.filter_length_le alexa rest) as Hle.
    destruct (alexa entity_id); simpl.
    + split; [split; [lia | discriminate] |].
      split; [intros H; apply IHn; lia | intros H; apply IHn in H; lia].
    + split; [exact IH0 |].
      split; [intros H; lia | discriminate].
Qed.

(** ** Supported features and joining *)

Section FeatureFacts.

Lemma has_flag_testbit (supported_features : Z) (n : Z) :
  (0 ≤ n)%Z → has_flag supported_features (2 ^ n) = Z.testbit supported_features n.
Proof.
  intros Hn. unfold has_flag.
  destruct (Z.testbit supported_features n) eqn:Hbit.
  - apply negb_true_iff, Z.eqb_neq. intros Hz.
    apply (f_equal (λ z, Z.testbit z n)) in Hz.
    rewrite Z.land_spec, Hbit, Z.pow2_bits_true, Z.bits_0 in Hz by lia.
    discriminate.
  - apply negb_false_iff, Z.eqb_eq. apply Z.bits_inj'. intros m Hm.
    rewrite Z.land_spec, Z.bits_0.
    destruct (Z.eq_dec n m) as [<-|Hne].
    + now rewrite Hbit.
    + rewrite (Z.pow2_bits_false n m) by lia. apply andb_false_r.
Qed.

Lemma supported_feature_bits (entity : option entity_state) :
  get_supported_feature entity ATTR_GROUP_MEMBERS = true ↔
  ∃ e attrs, entity = Some e ∧ attributes e = Some attrs
             ∧ Z.testbit (default 0%Z attrs) 19 = true.
Proof.
  unfold get_supported_feature.
  change 524288%Z with (2 ^ 19)%Z.
  split.
  - destruct entity as [e|]; [| discriminate].
    destruct (attributes e) as [attrs|] eqn:Ha; [| discriminate].
    rewrite has_flag_testbit by lia. intros H. now exists e, attrs.
  - intros (e & attrs & -> & Ha & Hbit). rewrite Ha.
    now rewrite has_flag_testbit by lia.
Qed.

End FeatureFacts.

(** X25: the three features are single bits of [supported_features]:
    bit 1 for the volume level, bit 20 for announcements and bit 19 for
    group members, also for a negative number. Without an entity,
    without attributes or for another feature the answer is [False]. *)
Theorem supported_feature_is_one_bit (entity : option entity_state) (f : feature) :
  get_supported_feature entity f = true ↔
  ∃ e attrs bit,
    entity = Some e ∧ attributes e = Some attrs
    ∧ match f with
      | ATTR_MEDIA_VOLUME_LEVEL => bit = 1%Z
      | ATTR_MEDIA_ANNOUNCE => bit = 20%Z
      | ATTR_GROUP_MEMBERS => bit = 19%Z
      | other_feature => False
      end
    ∧ Z.testbit (default 0%Z attrs) bit = true.
Proof.
  unfold get_supported_feature. split.
  - destruct entity as [e|]; [| discriminate].
    destruct (attributes e) as [attrs|] eqn:Ha; [| discriminate].
    destruct f; [| | | discriminate]; intros H.
    + exists e, attrs, 1%Z. rewrite <- (has_flag_testbit _ 1) by lia. auto.
    + exists e, attrs, 20%Z. rewrite <- (has_flag_testbit _ 20) by lia. auto.
    + exists e, attrs, 19%Z. rewrite <- (has_flag_testbit _ 19) by lia. auto.
  - intros (e & attrs & bit & -> & Ha & Hbit & Htest). rewrite Ha.
    destruct f; [| | | contradiction]; subst bit;
      rewrite <- has_flag_testbit in Htest by lia; exact Htest.
Qed.

Lemma group_bit_supported (hass_states_get : string → option entity_state)
    (entity_id : string) :
  get_supported_feature (hass_states_get entity_id) ATTR_GROUP_MEMBERS
  = group_bit hass_states_get entity_id.
Proof.
  unfold get_supported_feature, group_bit.
  destruct (hass_states_get entity_id) as [[[[supported_features|]|]]|];
    try reflexivity.
  apply (has_flag_testbit supported_features 19). lia.
Qed.

(** X26: joining asks for at most one service call. The call is made
    exactly when two or more of the listed players have bit 19 of
    [supported_features] set. Its group members are exactly those
    players, as often and in the order in which they are listed, and
    its entity id is the first of them. An id is returned only for a
    call that did not raise, and it is the entity id of that call. *)
Theorem join_groups_capable_players (hass_states_get : string → option entity_state)
    (join_raises : join_call → bool) (entity_ids : list string)
    (joined : option string) (calls : list join_call) :
  async_join_media_players hass_states_get join_raises entity_ids = (joined, calls) →
  let capable := List.filter (group_bit hass_states_get) entity_ids in
  ((length capable ≤ 1)%nat ∧ calls = [] ∧ joined = None)
  ∨ (∃ (first : string) (others : list string),
       capable = first :: others ∧ others ≠ []
       ∧ calls = [{| join_entity_id := first; join_group_members := capable |}]
       ∧ joined = if join_raises {| join_entity_id := first;
                                    join_group_members := capable |}
                  then None else Some first).
Proof.
  unfold async_join_media_players.
  rewrite (filter_ext _ _ (group_bit_supported hass_states_get) entity_ids).
  set (capable := List.filter (group_bit hass_states_get) entity_ids).
  destruct (Nat.ltb_spec 1 (length capable)) as [Hlt|Hle].
  - destruct capable as [|first [|second others]] eqn:Hc;
      [simpl in Hlt; lia | simpl in Hlt; lia |].
    intros Hres. right. exists first, (second :: others).
    split; [reflexivity |]. split; [discriminate |].
    destruct (join_raises _); injection Hres as <- <-; auto.
  - intros [= <- <-]. left. auto.
Qed.

Lemma join_groups_capable_players_witness :
  ((length (List.filter (group_bit group_states)
              ["media_player.den"; "media_player.tv"; "media_player.hall"]) ≤ 1)%nat
   ∧ [{| join_entity_id := "media_player.den";
         join_group_members := ["media_player.den"; "media_player.hall"] |}] = []
   ∧ Some "media_player.den" = None)
  ∨ (∃ (first : string) (others : list string),
       List.filter (group_bit group_states)
         ["media_player.den"; "media_player.tv"; "media_player.hall"]
       = first :: others
       ∧ others ≠ []
       ∧ [{| join_entity_id := "media_player.den";
             join_group_members := ["media_player.den"; "media_player.hall"] |}]
         = [{| join_entity_id := first;
               join_group_members :=
                 List.filter (group_bit group_states)
                   ["media_player.den"; "media_player.tv"; "media_player.hall"] |}]
       ∧ Some "media_player.den"
         = if false then None else Some first).
Proof.
  apply (join_groups_capable_players group_states (λ _, false)
           ["media_player.den"; "media_player.tv"; "media_player.hall"]
           (Some "media_player.den")
           [{| join_entity_id := "media_player.den";
               join_group_members := ["media_player.den"; "media_player.hall"] |}]).
  reflexivity.
Defined.

(** ** More on combining segments *)

Section AudioExtras.
Context {frame : Type}.
Variable mix : frame → frame → frame.
Variable silence : frame.

Local Open Scope list_scope.

(** X27: an overlap of [d] milliseconds makes the combined segment [d]
    shorter than the two segments together, but never shorter than the
    first one: its length is [len(a) + max(0, len(b) - d)], also when
    the overlap is longer than the first segment. *)
Theorem overlap_shortens_by_offset (a b : list frame) (offset : Z) :
  (offset < 0)%Z →
  ∃ out, combine_audio mix silence (Some a) (Some b) offset = Some out
         ∧ length out = (length a + (length b - Z.to_nat (- offset)))%nat.
Proof.
  intros Ho. unfold combine_audio.
  destruct (Z.ltb_spec offset 0) as [_|]; [| lia].
  eexists. split; [reflexivity |].
  replace offset with (- Z.of_nat (Z.to_nat (- offset)))%Z at 1 by lia.
  rewrite overlay_eq.
  rewrite !length_app, length_take, length_zip_with, !length_drop.
  lia.
Qed.

End AudioExtras.

Lemma overlap_shortens_by_offset_witness :
  ∃ out, combine_audio Nat.add 0%nat (Some [1; 2; 3]%nat) (Some [10; 20; 30; 40]%nat) (-5)
         = Some out
         ∧ length out = (3 + (4 - Z.to_nat (- -5)))%nat.
Proof.
  apply (overlap_shortens_by_offset Nat.add 0%nat [1; 2; 3]%nat [10; 20; 30; 40]%nat (-5)).
  lia.
Defined.

(** X28: delays chain for segments of one format. For three segments
    with the same channels, frame rate and sample width, of at least two
    bytes a sample and 11025 Hz, and offsets that are not negative,
    combining from the left or from the right gives the same segment:
    no segment is converted, and each silence is converted once, to the
    format of the segments. *)
Theorem combine_audio_delays_associate {frame : Type}
    (to_channels to_frame_rate to_sample_width :
       positive → Pydub.AudioSegment frame → result (list frame))
    (pydub_overlay : Pydub.AudioSegment frame → Pydub.AudioSegment frame → Z
                     → result (Pydub.AudioSegment frame))
    (slice_from : Pydub.AudioSegment frame → Z → result (Pydub.AudioSegment frame))
    (silence : frame) (a b c : Pydub.AudioSegment frame) (offset_1 offset_2 : Z)
    (gap_1 gap_2 : list frame) :
  Pydub.channels a = Pydub.channels b → Pydub.channels b = Pydub.channels c →
  Pydub.frame_rate a = Pydub.frame_rate b →
  Pydub.frame_rate b = Pydub.frame_rate c →
  Pydub.sample_width a = Pydub.sample_width b →
  Pydub.sample_width b = Pydub.sample_width c →
  (2 ≤ Pydub.sample_width a)%positive →
  (11025 ≤ Pydub.frame_rate a)%positive →
  Pydub.delay_frames to_channels to_frame_rate to_sample_width silence
    (Pydub.channels a) (Pydub.frame_rate a) (Pydub.sample_width a)
    offset_1 gap_1 →
  Pydub.delay_frames to_channels to_frame_rate to_sample_width silence
    (Pydub.channels a) (Pydub.frame_rate a) (Pydub.sample_width a)
    offset_2 gap_2 →
  and_then
    (Pydub.combine_audio to_channels to_frame_rate to_sample_width pydub_overlay
       slice_from silence (Some a) (Some b) offset_1)
    (λ ab, Pydub.combine_audio to_channels to_frame_rate to_sample_width
             pydub_overlay slice_from silence ab (Some c) offset_2)
  = and_then
      (Pydub.combine_audio to_channels to_frame_rate to_sample_width pydub_overlay
         slice_from silence (Some b) (Some c) offset_2)
      (λ bc, Pydub.combine_audio to_channels to_frame_rate to_sample_width
               pydub_overlay slice_from silence (Some a) bc offset_1).
Proof.
  intros Hc Hc' Hr Hr' Hw Hw' Hwidth Hrate Hgap1 Hgap2.
  rewrite (combine_frames_delay _ _ _ _ _ _ a b offset_1 gap_1) by assumption.
  rewrite (combine_frames_delay _ _ _ _ _ _ b c offset_2 gap_2);
    [| assumption | assumption | assumption
     | now rewrite <- Hw | now rewrite <- Hr | now rewrite <- Hc, <- Hr, <- Hw].
  unfold and_then.
  rewrite (combine_frames_delay _ _ _ _ _ _ _ c offset_2 gap_2);
    [| simpl; congruence | simpl; congruence | simpl; congruence
     | exact Hwidth | exact Hrate | exact Hgap2].
  rewrite (combine_frames_delay _ _ _ _ _ _ a _ offset_1 gap_1);
    [| exact Hc | exact Hr | exact Hw | exact Hwidth | exact Hrate | exact Hgap1].
  simpl. now rewrite <- !app_assoc.
Qed.

Lemma combine_audio_delays_associate_witness :
  and_then
    (Pydub.combine_audio no_conversion no_conversion no_conversion no_overlay
       no_slice 0%Z (Some half_second) (Some half_second) 500)
    (λ ab, Pydub.combine_audio no_conversion no_conversion no_conversion
             no_overlay no_slice 0%Z ab (Some half_second) 0)
  = and_then
      (Pydub.combine_audio no_conversion no_conversion no_conversion no_overlay
         no_slice 0%Z (Some half_second) (Some half_second) 0)
      (λ bc, Pydub.combine_audio no_conversion no_conversion no_conversion
               no_overlay no_slice 0%Z (Some half_second) bc 500).
Proof.
  apply (combine_audio_delays_associate no_conversion no_conversion no_conversion
           no_overlay no_slice 0%Z half_second half_second half_second 500 0
           (Pydub.frames half_second_of_silence) []);
    try reflexivity.
  - right. split; [lia |].
    exists half_second_of_silence, half_second_of_silence.
    split; [vm_compute; reflexivity |]. split; reflexivity.
  - now left.
Defined.

(** ** Media content ids *)

Section MediaContentFacts.

Lemma append_nil_r (s : string) : s ++ "" = s.
Proof.
  induction s as [|c s IH]; [reflexivity |].
  rewrite PyStrFacts.append_cons. now rewrite IH.
Qed.

(** A pattern without the character [sep] cannot start in [d] and run
    over a [sep] that follows [d]. *)
Lemma prefix_app_sep (old : string) (sep : ascii) :
  Forall (λ c, c ≠ sep) (list_ascii_of_string old) →
  ∀ d rest, String.prefix old (d ++ String sep rest) = String.prefix old d.
Proof.
  induction old as [|a old IH]; intros Hsep d rest.
  - now rewrite !prefix_nil.
  - simpl in Hsep. apply Forall_cons in Hsep as [Ha Hold].
    destruct d as [|c d].
    + change ("" ++ String sep rest) with (String sep rest).
      rewrite prefix_cons. destruct (ascii_dec a sep); [contradiction | reflexivity].
    + rewrite PyStrFacts.append_cons, !prefix_cons.
      destruct (ascii_dec a c); [now apply IH | reflexivity].
Qed.

Lemma replace_skip_before_sep (old new : string) (sep : ascii) :
  old ≠ "" → Forall (λ c, c ≠ sep) (list_ascii_of_string old) →
  ∀ d rest, PyStr.contains old d = false →
  PyStr.replace_skip old new 0 (d ++ String sep rest)
  = d ++ PyStr.replace_skip old new 0 (String sep rest).
Proof.
  intros Hold Hsep d rest. induction d as [|c d IH]; intros Hd.
  - reflexivity.
  - rewrite PyStrFacts.contains_cons in Hd.
    apply orb_false_iff in Hd as [Hp Hd].
    assert (Hpre : String.prefix old (String c (d ++ String sep rest)) = false).
    { rewrite <- PyStrFacts.append_cons, prefix_app_sep by exact Hsep. exact Hp. }
    rewrite !PyStrFacts.append_cons.
    rewrite PyStrFacts.replace_skip_cons by exact Hold.
    rewrite Hpre. now rewrite IH.
Qed.

Lemma str_find_contains (sub s : string) :
  str_find sub s = None ↔ PyStr.contains sub s = false.
Proof.
  induction s as [|c s IH].
  - change (str_find sub "") with (if String.prefix sub "" then Some 0%nat else None).
    change (PyStr.contains sub "") with (String.prefix sub "" || false).
    destruct (String.prefix sub ""); simpl; split; congruence.
  - rewrite PyStrFacts.contains_cons.
    change (str_find sub (String c s))
      with (if String.prefix sub (String c s) then Some 0%nat
            else S <$> str_find sub s).
    destruct (String.prefix sub (String c s)); simpl; [split; discriminate |].
    rewrite <- IH. destruct (str_find sub s); simpl; split; congruence.
Qed.

End MediaContentFacts.

(** X29: a path that holds [/media/] becomes a media-source id under the
    default media directory: the scheme, [/MEDIA_DIR_DEFAULT/], and what
    follows the first [/media/] with double slashes made single. The
    [media_dir] argument has no part in it. This needs a default
    directory name that does not hold the text [<media_path>] of the
    template. *)
Theorem media_content_id_of_media_path (MEDIA_DIR_DEFAULT file_path media_dir : string)
    (media_folder_path_index : nat) :
  str_find "/media/" file_path = Some media_folder_path_index →
  PyStr.contains "<media_path>" MEDIA_DIR_DEFAULT = false →
  get_media_content_id MEDIA_DIR_DEFAULT (Some file_path) media_dir
  = Some ("media-source://media_source/" ++ MEDIA_DIR_DEFAULT ++ "/"
          ++ PyStr.replace "//" "/" (PyStr.drop (media_folder_path_index + 7) file_path)).
Proof.
  intros Hfind Hdir. unfold get_media_content_id. rewrite Hfind.
  change (String.length "/media/") with 7%nat.
  set (media_path := PyStr.replace "//" "/" _).
  f_equal.
  change (PyStr.replace "<media_dir>" ("/" ++ MEDIA_DIR_DEFAULT ++ "/")
            "media-source://media_source<media_dir><media_path>")
    with ("media-source://media_source/"
          ++ ((MEDIA_DIR_DEFAULT ++ "/") ++ "<media_path>")).
  rewrite (append_assoc MEDIA_DIR_DEFAULT "/" "<media_path>").
  change (PyStr.replace "<media_path>" media_path
            ("media-source://media_source/"
             ++ (MEDIA_DIR_DEFAULT ++ "/" ++ "<media_path>")))
    with ("media-source://media_source/"
          ++ PyStr.replace_skip "<media_path>" media_path 0
               (MEDIA_DIR_DEFAULT ++ String "/" "<media_path>")).
  rewrite replace_skip_before_sep;
    [| discriminate | repeat constructor; discriminate | exact Hdir].
  change (PyStr.replace_skip "<media_path>" media_path 0 (String "/" "<media_path>"))
    with (String "/" (media_path ++ "")).
  now rewrite append_nil_r.
Qed.

Lemma media_content_id_of_media_path_witness :
  get_media_content_id "local" (Some "/config/media/sounds//bell.mp3") "chimes"
  = Some ("media-source://media_source/" ++ "local" ++ "/"
          ++ PyStr.replace "//" "/" (PyStr.drop (7 + 7) "/config/media/sounds//bell.mp3")).
Proof.
  apply (media_content_id_of_media_path "local" "/config/media/sounds//bell.mp3"
           "chimes" 7).
  - reflexivity.
  - reflexivity.
Defined.

(** X30: a path without [/media/] has no media content id, and neither
    has an absent path; every path with [/media/] has one. *)
Theorem media_content_id_needs_media_folder (MEDIA_DIR_DEFAULT : string)
    (file_path : option string) (media_dir : string) :
  get_media_content_id MEDIA_DIR_DEFAULT file_path media_dir = None ↔
  match file_path with
  | Some path => PyStr.contains "/media/" path = false
  | None => True
  end.
Proof.
  unfold get_media_content_id. destruct file_path as [path|]; [| tauto].
  rewrite <- str_find_contains.
  destruct (str_find "/media/" path); split; congruence.
Qed.
